(** * lsmart: a single-tier, group-partitioned LSM tree (Go)

  A shallow embedding of the engine core: segment file names, the
  segment handle ([Node]), the [Group], the engine ([Tree]) with its
  write, read, routing, flush and compaction paths, and the separator
  helper of package [util].

  Conventions.
  - Go [int] is a 64-bit and [int32] a 32-bit two's complement integer,
    [uint64] an unsigned 64-bit one; all are carried as [Z] and every
    operation that can leave the range writes its wrap-around out.
  - A Go [string] is a Rocq [string] (a sequence of 8-bit characters); a
    [[]byte] holding a key or a value is a [list byte].
  - A [*Node] is a record tagged with the address of the object;
    [n == node] compares addresses.  Nodes are never mutated after
    [NewNode], so no separate store is needed for them.
  - The [*Group]s of a tree are mutated in place and shared through the
    slice [t.groups]; a group reference is a position in that slice. *)

From Stdlib Require Import ZArith Lia List Sorted Ascii String Strings.Byte Bool Floats Uint63.
From stdpp Require Import base option list gmap strings.

Open Scope Z_scope.

(** ** Machine integers *)

Module GoInt.

(** Two's complement wrap-around of a [w]-bit signed integer. *)
Definition wrap_signed (w : Z) (x : Z) : Z :=
  (x + 2 ^ (w - 1)) mod 2 ^ w - 2 ^ (w - 1).

Definition int (x : Z) : Z := wrap_signed 64 x.
Definition int32 (x : Z) : Z := wrap_signed 32 x.
Definition uint64 (x : Z) : Z := x mod 2 ^ 64.

(** [len] of a slice, as a Go [int]. *)
Definition len {A : Type} (l : list A) : Z := Z.of_nat (length l).

Definition max_int : Z := 2 ^ 63 - 1.
Definition max_int32 : Z := 2 ^ 31 - 1.

End GoInt.

(** ** Package [strings], [strconv] and [fmt]: the functions the engine calls *)

Module GoString.

Definition byte_of (c : ascii) : Z := Z.of_N (N_of_ascii c).

(** [strings.HasPrefix]. *)
Fixpoint HasPrefix (s prefix : string) {struct prefix} : bool :=
  match prefix, s with
  | EmptyString, _ => true
  | String _ _, EmptyString => false
  | String p prefix', String c s' =>
      if Ascii.eqb p c then HasPrefix s' prefix' else false
  end.

(** [strings.Replace s old new (-1)] for a non-empty [old]: every
    leftmost, non-overlapping occurrence of [old] is replaced.  [skip]
    counts the characters of a matched occurrence still to be dropped. *)
Fixpoint replace_from (skip : nat) (old new s : string) : string :=
  match s with
  | EmptyString => EmptyString
  | String c s' =>
      match skip with
      | S k => replace_from k old new s'
      | O =>
          if HasPrefix s old
          then new +:+ replace_from (String.length old - 1) old new s'
          else String c (replace_from 0 old new s')
      end
  end.

Definition ReplaceAll (s old new : string) : string :=
  replace_from 0 old new s.

(** [strings.Split s sep] for a non-empty [sep]: the pieces between the
    leftmost, non-overlapping occurrences of [sep]; [cur] is the piece
    being read. *)
Fixpoint split_from (skip : nat) (sep cur s : string) : list string :=
  match s with
  | EmptyString => [cur]
  | String c s' =>
      match skip with
      | S k => split_from k sep cur s'
      | O =>
          if HasPrefix s sep
          then cur :: split_from (String.length sep - 1) sep EmptyString s'
          else split_from 0 sep (cur +:+ String c EmptyString) s'
      end
  end.

Definition Split (s sep : string) : list string :=
  split_from 0 sep EmptyString s.

(** The digit loop shared by the fast path of [strconv.Atoi] and by
    [strconv.ParseUint]: [ch -= '0'] on a byte, then [ch > 9] rejects. *)
Definition digit_of (c : ascii) : option Z :=
  let d := (byte_of c - 48) mod 256 in
  if 9 <? d then None else Some d.

Fixpoint atoi_loop (n : Z) (s : string) : option Z :=
  match s with
  | EmptyString => Some n
  | String c s' =>
      match digit_of c with
      | None => None
      | Some d => atoi_loop (n * 10 + d) s'
      end
  end.

(** [strconv.NumError]: the two causes the parsers report. *)
Inductive NumError : Type := ErrSyntax | ErrRange.

(** [strconv.ParseUint s 10 64]: the value and the error.  A syntax
    error yields 0, a range error the largest [uint64]. *)
Definition maxUint64 : Z := 2 ^ 64 - 1.

Fixpoint parseUint_loop (n : Z) (s : string) : Z * option NumError :=
  match s with
  | EmptyString => (n, None)
  | String c s' =>
      match digit_of c with
      | None => (0, Some ErrSyntax)
      | Some d =>
          if maxUint64 / 10 + 1 <=? n then (maxUint64, Some ErrRange)
          else
            let n1 := n * 10 + d in
            if maxUint64 <? n1 then (maxUint64, Some ErrRange)
            else parseUint_loop n1 s'
      end
  end.

Definition ParseUint (s : string) : Z * option NumError :=
  match s with
  | EmptyString => (0, Some ErrSyntax)
  | _ => parseUint_loop 0 s
  end.

(** [strconv.ParseInt s 10 0] on a 64-bit platform. *)
Definition ParseInt (s : string) : Z * option NumError :=
  match s with
  | EmptyString => (0, Some ErrSyntax)
  | String c s' =>
      let neg := Ascii.eqb c "-" in
      let body := if Ascii.eqb c "+" || neg then s' else s in
      let cutoff := 2 ^ 63 in
      match ParseUint body with
      | (_, Some ErrSyntax) => (0, Some ErrSyntax)
      | (un, _) =>
          if negb neg && (cutoff <=? un) then (cutoff - 1, Some ErrRange)
          else if neg && (cutoff <? un) then (- cutoff, Some ErrRange)
          else (if neg then - un else un, None)
      end
  end.

(** [strconv.Atoi]: the fast path for 1 to 18 characters, [ParseInt]
    otherwise. *)
Definition Atoi (s : string) : Z * option NumError :=
  let sLen := Z.of_nat (String.length s) in
  if (0 <? sLen) && (sLen <? 19) then
    match s with
    | EmptyString => (0, Some ErrSyntax)
    | String c s' =>
        let signed := Ascii.eqb c "-" || Ascii.eqb c "+" in
        let body := if signed then s' else s in
        match body with
        | EmptyString => (0, Some ErrSyntax)
        | _ =>
            match atoi_loop 0 body with
            | None => (0, Some ErrSyntax)
            | Some n => (if Ascii.eqb c "-" then - n else n, None)
            end
        end
    end
  else
    let '(i64, err) := ParseInt s in (GoInt.int i64, err).

(** [fmt.Sprintf "%d"]: the digits are produced from the least
    significant one into the end of a 20-byte buffer
    ([for u >= 10 { next := u / 10; buf[i] = '0' + u - next*10; u = next }]). *)
Definition digit_char (d : Z) : ascii := ascii_of_N (Z.to_N (48 + d)).

Fixpoint fmt_digits (room : nat) (u : Z) (buf : string) : string :=
  match room with
  | O => buf
  | S room' =>
      if 10 <=? u
      then let next := u / 10 in
           fmt_digits room' next (String (digit_char (u - next * 10)) buf)
      else String (digit_char u) buf
  end.

Definition fmt_d (n : Z) : string :=
  if n <? 0 then String "-" (fmt_digits 20 (- n) EmptyString)
  else fmt_digits 20 n EmptyString.

(** Every character of [s] satisfies [p]. *)
Fixpoint all_chars (p : ascii -> bool) (s : string) : bool :=
  match s with
  | EmptyString => true
  | String c s' => p c && all_chars p s'
  end.

Definition is_digit (c : ascii) : bool :=
  match digit_of c with Some _ => true | None => false end.

Definition not_char (x : ascii) (c : ascii) : bool := negb (Ascii.eqb x c).

End GoString.

(** ** Segment file names *)

Module FileName.
Import GoString.

(** [Tree.sstFile]: [fmt.Sprintf("g%d_%d.sst", groupID, seq)]. *)
Definition sstFile (groupID seq : Z) : string :=
  "g" +:+ fmt_d groupID +:+ "_" +:+ fmt_d seq +:+ ".sst".

(** [getGroupSeqFromSSTFile]; [None] is the index-out-of-range panic of
    [splitted[0]] or [splitted[1]].  Both [Atoi] errors are dropped. *)
Definition getGroupSeqFromSSTFile (file : string) : option (Z * Z) :=
  let file := ReplaceAll file ".sst" EmptyString in
  let splitted := Split file "_" in
  match splitted !! 0%nat, splitted !! 1%nat with
  | Some s0, Some s1 =>
      let groupID := (Atoi s0).1 in
      let _seq := (Atoi s1).1 in
      Some (groupID, GoInt.int32 _seq)
  | _, _ => None
  end.

(** The first loop of [constructTree]: the names of the segment files
    sorted into groups, and the largest group id and sequence number seen.
    [None] is the panic of the parser. *)
Record scanned : Type := {
  groupFiles : gmap Z (list string);
  maxGroupID : Z;
  maxSSTSeq : Z
}.

Definition scan_sst_name (acc : option scanned) (name : string) : option scanned :=
  acc ← acc;
  '(groupID, seq) ← getGroupSeqFromSSTFile name;
  Some {| groupFiles :=
            <[groupID := default [] (groupFiles acc !! groupID) ++ [name]]> (groupFiles acc);
          maxGroupID := if maxGroupID acc <? groupID then groupID else maxGroupID acc;
          maxSSTSeq := if maxSSTSeq acc <? seq then seq else maxSSTSeq acc |}.

Definition scan_sst_names (names : list string) : option scanned :=
  fold_left scan_sst_name names
            (Some {| groupFiles := ∅; maxGroupID := 0; maxSSTSeq := 0 |}).

End FileName.


(** ** Byte strings: package [bytes] and package [util] *)

Module Bytes.

Definition bytes : Type := list byte.

Definition byte_val (b : byte) : Z := Z.of_N (Byte.to_N b).

(** Lexicographic comparison of unsigned bytes; a proper prefix is smaller. *)
Fixpoint compare_lex (a b : bytes) : comparison :=
  match a, b with
  | [], [] => Eq
  | [], _ :: _ => Lt
  | _ :: _, [] => Gt
  | x :: a', y :: b' =>
      match byte_val x ?= byte_val y with
      | Eq => compare_lex a' b'
      | c => c
      end
  end.

(** [bytes.Compare]: -1, 0 or +1. *)
Definition Compare (a b : bytes) : Z :=
  match compare_lex a b with Lt => -1 | Eq => 0 | Gt => 1 end.

(** [bytes.Equal]. *)
Definition Equal (a b : bytes) : bool := Compare a b =? 0.

(** The order on keys that the specification speaks of. *)
Definition lt (a b : bytes) : Prop := Compare a b < 0.
Definition le (a b : bytes) : Prop := Compare a b <= 0.

(** A key written as text, for the examples. *)
Definition of_string (s : string) : bytes := list_byte_of_string s.

End Bytes.

Module util.
Import GoInt Bytes.

(** [util.SharedPrefixLen]. *)
Fixpoint SharedPrefixLen (a b : bytes) : Z :=
  match a, b with
  | x :: a', y :: b' =>
      if byte_val x =? byte_val y then 1 + SharedPrefixLen a' b' else 0
  | _, _ => 0
  end.

(** [util.GetSeparatorBetween]: a copy of [b] when [a] is empty, [a]
    itself otherwise. *)
Definition GetSeparatorBetween (a b : bytes) : bytes :=
  if len a =? 0 then b else a.

End util.

(** ** Shared types: errors, pairs, index entries, configuration *)

Module Types.
Import Bytes.

(** A Go [error] value, by its message. *)
Definition error : Type := string.

(** A call that returns [(x, err)]. *)
Inductive result (A : Type) : Type :=
| Ok (a : A)
| Err (e : error).
Arguments Ok {A} a.
Arguments Err {A} e.

(** What [Get] returns at every level: [(value, ok, err)]. *)
Definition GetResult : Type := bytes * bool * option error.
Definition miss : GetResult := ([], false, None).
Definition hit (v : bytes) : GetResult := (v, true, None).
Definition failed (e : error) : GetResult := ([], false, Some e).

Record KV : Type := { KV_Key : bytes; KV_Value : bytes }.

(** [Index]: the key stored for a block, and where the block lies. *)
Record Index : Type := {
  Index_Key : bytes;
  PrevBlockOffset : Z;
  PrevBlockSize : Z
}.

(** The approximate-membership capability [filter.Filter]; the engine core
    only asks [Exist(bitmap, key)]. *)
Record Filter : Type := { Exist : bytes -> bytes -> bool }.

(** [Config] as the engine reads it: the filter is set, and the field
    [MemTableConstructor] is carried by the [MemTable] class below. *)
Record Config : Type := {
  Dir : string;
  GroupSize : Z;
  GroupSSTSize : Z;
  MaxGroups : Z;
  CompactionRatio : float;
  SSTDataBlockSize : Z;
  SSTFooterSize : Z;
  conf_Filter : Filter
}.

(** [Config] as [NewConfig] and its options leave it and as [repaire]
    rewrites it in place: here [Filter] and [MemTableConstructor] may
    still be nil ([None]).  [C] is the type of the memtable constructors. *)
Record RawConfig (C : Type) : Type := {
  raw_Dir : string;
  raw_GroupSize : Z;
  raw_GroupSSTSize : Z;
  raw_MaxGroups : Z;
  raw_CompactionRatio : float;
  raw_SSTDataBlockSize : Z;
  raw_SSTFooterSize : Z;
  raw_Filter : option Filter;
  raw_MemTableConstructor : option C
}.
Arguments raw_Dir {C} _.
Arguments raw_GroupSize {C} _.
Arguments raw_GroupSSTSize {C} _.
Arguments raw_MaxGroups {C} _.
Arguments raw_CompactionRatio {C} _.
Arguments raw_SSTDataBlockSize {C} _.
Arguments raw_SSTFooterSize {C} _.
Arguments raw_Filter {C} _.
Arguments raw_MemTableConstructor {C} _.

(** [repaire]: the defaults put in place of non-positive options (the
    ratio 0.8 is the binary64 constant written out), of a nil filter and
    of a nil memtable constructor.  [bloom] is what
    [filter.NewBloomFilter(1024)] returns, whose error is dropped, and
    [skiplist] is [memtable.NewSkiplist]; both packages are not among the
    engine files. *)
Definition repaire {C : Type} (bloom : option Filter) (skiplist : C) (c : RawConfig C)
    : RawConfig C :=
  {| raw_Dir := raw_Dir c;
     raw_GroupSize := if raw_GroupSize c <=? 0 then 10 else raw_GroupSize c;
     raw_GroupSSTSize :=
       if raw_GroupSSTSize c <=? 0 then 10 * 1024 * 1024 else raw_GroupSSTSize c;
     raw_MaxGroups := if raw_MaxGroups c <=? 0 then 100 else raw_MaxGroups c;
     raw_CompactionRatio :=
       if PrimFloat.leb (raw_CompactionRatio c) 0%float
          || PrimFloat.leb 1%float (raw_CompactionRatio c)
       then 0x1.999999999999ap-1%float else raw_CompactionRatio c;
     raw_SSTDataBlockSize :=
       if raw_SSTDataBlockSize c <=? 0 then 16 * 1024 else raw_SSTDataBlockSize c;
     raw_SSTFooterSize := raw_SSTFooterSize c;
     raw_Filter := match raw_Filter c with
                   | None => bloom
                   | Some f => Some f
                   end;
     raw_MemTableConstructor := match raw_MemTableConstructor c with
                                | None => Some skiplist
                                | Some constructor => Some constructor
                                end |}.

(** The [Config] the engine reads, once the filter is set. *)
Definition config_of {C : Type} (c : RawConfig C) : option Config :=
  match raw_Filter c with
  | None => None
  | Some f =>
      Some {| Dir := raw_Dir c; GroupSize := raw_GroupSize c;
              GroupSSTSize := raw_GroupSSTSize c; MaxGroups := raw_MaxGroups c;
              CompactionRatio := raw_CompactionRatio c;
              SSTDataBlockSize := raw_SSTDataBlockSize c;
              SSTFooterSize := raw_SSTFooterSize c; conf_Filter := f |}
  end.

(** [float64(n)] for a Go [int] of magnitude below 2^63. *)
Definition float64_of_int (n : Z) : float :=
  if n <? 0 then PrimFloat.opp (PrimFloat.of_uint63 (Uint63.of_Z (- n)))
  else PrimFloat.of_uint63 (Uint63.of_Z n).

(** The ordered in-memory table [memtable.MemTable], an interface of the
    repository whose implementations are not part of the engine core:
    the constructor of the configuration and the four methods used. *)
Class MemTable (M : Type) : Type := {
  MemTableConstructor : M;
  mt_Put : bytes -> bytes -> M -> M;
  mt_Get : M -> bytes -> bytes * bool;
  mt_Size : M -> Z;
  mt_All : M -> list KV
}.

End Types.

(** ** Segment handles *)

Module SST.
Import GoInt Bytes Types.

(** The reader of one segment file.  The file never changes once it is
    published, so each method is a function of its arguments; a method may
    fail with an i/o or corruption error. *)
Record SSTReader : Type := {
  ReadBlock : Z -> Z -> result bytes;
  ReadBlockData : bytes -> result (list KV);
  ReadData : result (list KV)
}.

(** [Node].  [n_addr] is the address of the object. *)
Record Node : Type := {
  n_addr : N;
  n_conf : Config;
  n_file : string;
  n_groupID : Z;
  n_seq : Z;
  n_size : Z;
  n_blockToFilter : gmap Z bytes;
  n_index : list Index;
  n_startKey : bytes;
  n_endKey : bytes;
  n_sstReader : SSTReader
}.

(** [n == node] on two [*Node]. *)
Definition same_node (n m : Node) : bool := N.eqb (n_addr n) (n_addr m).

(** An element of a slice by a Go [int] position; [None] is the
    index-out-of-range panic. *)
Definition at_index {A : Type} (l : list A) (i : Z) : option A :=
  if i <? 0 then None else l !! Z.to_nat i.

(** [NewNode]: [index[0]] panics on an empty index. *)
Definition NewNode (addr : N) (conf : Config) (file : string) (sstReader : SSTReader)
    (groupID seq size : Z) (blockToFilter : gmap Z bytes) (index : list Index)
    : option Node :=
  first ← at_index index 0;
  last ← at_index index (len index - 1);
  Some {| n_addr := addr; n_conf := conf; n_file := file; n_sstReader := sstReader;
          n_groupID := groupID; n_seq := seq; n_size := size;
          n_blockToFilter := blockToFilter; n_index := index;
          n_startKey := Index_Key first; n_endKey := Index_Key last |}.

(** [Node.GetAll]. *)
Definition GetAll (n : Node) : result (list KV) := ReadData (n_sstReader n).

(** [Node.binarySearchIndex], a recursive function on [(start, end)].
    [steps] bounds the depth of the recursion; [None] is a panic (or the
    bound was reached). *)
Fixpoint binarySearchIndex_rec (steps : nat) (n : Node) (key : bytes) (start end_ : Z)
    : option (Index * bool) :=
  match steps with
  | O => None
  | S steps' =>
      if start =? end_ then
        e ← at_index (n_index n) start;
        Some (e, 0 <=? Compare (Index_Key e) key)
      else
        let mid := GoInt.int (start + Z.shiftr (GoInt.int (end_ - start)) 1) in
        e ← at_index (n_index n) mid;
        if Compare (Index_Key e) key <? 0
        then binarySearchIndex_rec steps' n key (GoInt.int (mid + 1)) end_
        else binarySearchIndex_rec steps' n key start mid
  end.

Definition binarySearchIndex (n : Node) (key : bytes) (start end_ : Z)
    : option (Index * bool) :=
  binarySearchIndex_rec (S (length (n_index n))) n key start end_.

(** The scan of a decoded block for the exact key. *)
Fixpoint scan_block (kvs : list KV) (key : bytes) : GetResult :=
  match kvs with
  | [] => miss
  | kv :: kvs' =>
      if Equal (KV_Key kv) key then hit (KV_Value kv) else scan_block kvs' key
  end.

(** [Node.Get]. *)
Definition Node_Get (n : Node) (key : bytes) : option GetResult :=
  if (Compare key (n_startKey n) <? 0) || (0 <? Compare key (n_endKey n)) then Some miss
  else
    '(index, ok) ← binarySearchIndex n key 0 (len (n_index n) - 1);
    if negb ok then Some miss
    else
      let bitmap := default [] (n_blockToFilter n !! PrevBlockOffset index) in
      if negb (Exist (conf_Filter (n_conf n)) bitmap key) then Some miss
      else
        match ReadBlock (n_sstReader n) (PrevBlockOffset index) (PrevBlockSize index) with
        | Err e => Some (failed e)
        | Ok block =>
            match ReadBlockData (n_sstReader n) block with
            | Err e => Some (failed e)
            | Ok kvs => Some (scan_block kvs key)
            end
        end.

Definition Start (n : Node) : bytes := n_startKey n.
Definition End_ (n : Node) : bytes := n_endKey n.

(** [Node.KeyInRange]. *)
Definition KeyInRange (n : Node) (key : bytes) : bool :=
  (0 <=? Compare key (n_startKey n)) && (Compare key (n_endKey n) <=? 0).

End SST.

(** ** Groups *)

Module Grp.
Import GoInt Bytes Types SST.

(** [Group].  A nil [startKey] or [endKey] is [None]. *)
Record Group : Type := {
  g_id : Z;
  g_conf : Config;
  g_nodes : list Node;
  g_startKey : option bytes;
  g_endKey : option bytes;
  g_size : Z
}.

(** [make([]*Node, 0, n)] returns for a capacity from 0 to the largest
    slice of pointers, [maxAlloc / 8] with [maxAlloc = 2^48] on a 64-bit
    platform, and panics for every other [n].  Running out of memory is
    outside the model. *)
Definition max_slice_cap : Z := 2 ^ 45.

Definition make_ok (n : Z) : bool := (0 <=? n) && (n <=? max_slice_cap).

(** [NewGroup], where [make([]*Node, 0, conf.GroupSize)] returns, that is
    for [make_ok (GroupSize conf)]; otherwise [NewGroup] panics, and the
    statements that promise a new group assume [make_ok]. *)
Definition NewGroup (id : Z) (conf : Config) : Group :=
  {| g_id := id; g_conf := conf; g_nodes := [];
     g_startKey := None; g_endKey := None; g_size := 0 |}.

(** One round of the loop of [updateKeyRange]. *)
Definition widen (range : bytes * bytes) (node : Node) : bytes * bytes :=
  let startKey := if Compare (Start node) range.1 <? 0 then Start node else range.1 in
  let endKey := if 0 <? Compare (End_ node) range.2 then End_ node else range.2 in
  (startKey, endKey).

(** The two keys [updateKeyRange] leaves for a list of nodes. *)
Definition key_range (nodes : list Node) : option bytes * option bytes :=
  match nodes with
  | [] => (None, None)
  | first :: _ =>
      let range := fold_left widen nodes (Start first, End_ first) in
      (Some range.1, Some range.2)
  end.

(** [Group.updateKeyRange]. *)
Definition updateKeyRange (g : Group) : Group :=
  let range := key_range (g_nodes g) in
  {| g_id := g_id g; g_conf := g_conf g; g_nodes := g_nodes g;
     g_startKey := range.1; g_endKey := range.2; g_size := g_size g |}.

(** [sort.Slice] as it runs on at most 12 elements: insertion sort, in
    which each element moves left while it is less than its neighbour.
    [sorted_rev] is the sorted prefix, last element first.  On a longer
    slice [sort.Slice] runs another algorithm, which also returns the
    elements in an order that respects [less] but may place elements
    that [less] does not tell apart differently. *)
Fixpoint move_left {A : Type} (less : A -> A -> bool) (x : A) (sorted_rev : list A) : list A :=
  match sorted_rev with
  | [] => [x]
  | y :: rest => if less x y then y :: move_left less x rest else x :: y :: rest
  end.

Definition sort_Slice {A : Type} (less : A -> A -> bool) (l : list A) : list A :=
  rev (fold_left (fun sorted_rev x => move_left less x sorted_rev) l []).

(** [Group.sortNodes]: by start key. *)
Definition sortNodes (g : Group) : Group :=
  {| g_id := g_id g; g_conf := g_conf g;
     g_nodes := sort_Slice (fun a b => Compare (Start a) (Start b) <? 0) (g_nodes g);
     g_startKey := g_startKey g; g_endKey := g_endKey g; g_size := g_size g |}.

(** [Group.AddNode]. *)
Definition AddNode (g : Group) (node : Node) : Group :=
  let g1 := {| g_id := g_id g; g_conf := g_conf g;
               g_nodes := g_nodes g ++ [node];
               g_startKey := g_startKey g; g_endKey := g_endKey g;
               g_size := uint64 (g_size g + n_size node) |} in
  sortNodes (updateKeyRange g1).

(** [Group.RemoveNode]: the loop over [g.nodes], at position [i] with
    [rest] still to visit. *)
Fixpoint RemoveNode_loop (g : Group) (node : Node) (i : nat) (rest : list Node)
    : Group * bool :=
  match rest with
  | [] => (g, false)
  | n :: rest' =>
      if same_node n node then
        (updateKeyRange
           {| g_id := g_id g; g_conf := g_conf g;
              g_nodes := take i (g_nodes g) ++ drop (S i) (g_nodes g);
              g_startKey := g_startKey g; g_endKey := g_endKey g;
              g_size := uint64 (g_size g - n_size node) |},
         true)
      else RemoveNode_loop g node (S i) rest'
  end.

Definition RemoveNode (g : Group) (node : Node) : Group * bool :=
  RemoveNode_loop g node 0 (g_nodes g).

(** [Group.keyInRange]. *)
Definition keyInRange (g : Group) (key : bytes) : bool :=
  match g_startKey g, g_endKey g with
  | Some startKey, Some endKey =>
      (0 <=? Compare key startKey) && (Compare key endKey <=? 0)
  | _, _ => false
  end.

(** The loop of [Group.Get]: [for i := len(g.nodes) - 1; i >= 0; i--], with
    [k = i + 1] positions left. *)
Fixpoint Group_Get_loop (nodes : list Node) (key : bytes) (k : nat) : option GetResult :=
  match k with
  | O => Some miss
  | S i =>
      node ← nodes !! i;
      r ← Node_Get node key;
      match r with
      | (_, _, Some err) => Some (failed err)
      | (value, true, None) => Some (hit value)
      | (_, false, None) => Group_Get_loop nodes key i
      end
  end.

(** [Group.Get]. *)
Definition Group_Get (g : Group) (key : bytes) : option GetResult :=
  if negb (keyInRange g key) then Some miss
  else Group_Get_loop (g_nodes g) key (length (g_nodes g)).

(** [Group.IsFull], [Group.NodeCount], [Group.ShouldCompact]. *)
Definition NodeCount (g : Group) : Z := len (g_nodes g).

Definition IsFull (g : Group) : bool := GroupSize (g_conf g) <=? NodeCount g.

Definition ShouldCompact (g : Group) : bool :=
  let threshold :=
    PrimFloat.mul (float64_of_int (GroupSize (g_conf g))) (CompactionRatio (g_conf g)) in
  PrimFloat.leb threshold (float64_of_int (NodeCount g)).

Section WithMemTable.
Context {M : Type} `{MemTable M}.

(** The loops of [Group.GetAllKVs]: every pair of every node, in the order
    of [g.nodes], is put into one temporary memtable. *)
Definition put_all (m : M) (kvs : list KV) : M :=
  fold_left (fun m kv => mt_Put (KV_Key kv) (KV_Value kv) m) kvs m.

Fixpoint GetAllKVs_loop (nodes : list Node) (tempMemTable : M) : result M :=
  match nodes with
  | [] => Ok tempMemTable
  | node :: nodes' =>
      match GetAll node with
      | Err err => Err err
      | Ok kvs => GetAllKVs_loop nodes' (put_all tempMemTable kvs)
      end
  end.

(** [Group.GetAllKVs]. *)
Definition GetAllKVs (g : Group) : result (list KV) :=
  match GetAllKVs_loop (g_nodes g) MemTableConstructor with
  | Err err => Err err
  | Ok tempMemTable =>
      Ok (map (fun kv => {| KV_Key := KV_Key kv; KV_Value := KV_Value kv |})
              (mt_All tempMemTable))
  end.

End WithMemTable.

End Grp.

(** ** The engine *)

Module Engine.
Import GoInt GoString Bytes Types SST Grp.

(** The loop of [lazybuf] in [path.Clean] that drops the last element:
    [out.w--] and then [for out.w > dotdot && out.index(out.w) != '/'].
    The buffer is kept last byte first. *)
Fixpoint clean_backtrack (out_rev : list ascii) (dotdot : nat) : list ascii :=
  match out_rev with
  | [] => []
  | c :: out_rev' =>
      if (dotdot <? length out_rev')%nat && negb (Ascii.eqb c "/")
      then clean_backtrack out_rev' dotdot
      else out_rev'
  end.

(** The bytes up to the next slash, and the rest. *)
Fixpoint clean_element (path : list ascii) : list ascii * list ascii :=
  match path with
  | [] => ([], [])
  | c :: path' =>
      if Ascii.eqb c "/" then ([], path)
      else let '(element, rest) := clean_element path' in (c :: element, rest)
  end.

(** Whether the path is at its end or at a slash. *)
Definition at_separator (path : list ascii) : bool :=
  match path with
  | [] => true
  | c :: _ => Ascii.eqb c "/"
  end.

(** The loop [for r < n] of [path.Clean] over the bytes from [r] on.
    Every round reads at least one byte, so [rounds] is never used up
    when it starts above the length of the path. *)
Fixpoint clean_loop (rounds : nat) (rooted : bool) (path : list ascii)
    (out_rev : list ascii) (dotdot : nat) : list ascii :=
  match rounds with
  | O => out_rev
  | S rounds' =>
      match path with
      | [] => out_rev
      | c :: path1 =>
          if Ascii.eqb c "/" then clean_loop rounds' rooted path1 out_rev dotdot
          else if Ascii.eqb c "." && at_separator path1
          then clean_loop rounds' rooted path1 out_rev dotdot
          else
            match path1 with
            | c1 :: path2 =>
                if Ascii.eqb c "." && Ascii.eqb c1 "." && at_separator path2 then
                  if (dotdot <? length out_rev)%nat
                  then clean_loop rounds' rooted path2 (clean_backtrack out_rev dotdot) dotdot
                  else if negb rooted then
                    let out1 := if (0 <? length out_rev)%nat
                                then "/"%char :: out_rev else out_rev in
                    let out2 := "."%char :: "."%char :: out1 in
                    clean_loop rounds' rooted path2 out2 (length out2)
                  else clean_loop rounds' rooted path2 out_rev dotdot
                else
                  let out1 :=
                    if (rooted && negb (length out_rev =? 1)%nat)
                       || (negb rooted && negb (length out_rev =? 0)%nat)
                    then "/"%char :: out_rev else out_rev in
                  let '(element, rest) := clean_element path in
                  clean_loop rounds' rooted rest (rev element ++ out1) dotdot
            | [] =>
                let out1 :=
                  if (rooted && negb (length out_rev =? 1)%nat)
                     || (negb rooted && negb (length out_rev =? 0)%nat)
                  then "/"%char :: out_rev else out_rev in
                clean_loop rounds' rooted [] (c :: out1) dotdot
            end
      end
  end.

(** [path.Clean]. *)
Definition path_Clean (path : string) : string :=
  match list_ascii_of_string path with
  | [] => "."%string
  | c :: rest =>
      let rooted := Ascii.eqb c "/" in
      let out_rev :=
        if rooted
        then clean_loop (S (String.length path)) true rest ["/"%char] 1
        else clean_loop (S (String.length path)) false (c :: rest) [] 0 in
      match out_rev with
      | [] => "."%string
      | _ => string_of_list_ascii (rev out_rev)
      end
  end.

(** The loop of [path.Join] that fills [buf]. *)
Fixpoint join_elements (buf : string) (elems : list string) : string :=
  match elems with
  | [] => buf
  | e :: rest =>
      if negb (String.eqb buf EmptyString) || negb (String.eqb e EmptyString)
      then
        join_elements
          ((if negb (String.eqb buf EmptyString) then buf +:+ "/" else buf) +:+ e) rest
      else join_elements buf rest
  end.

(** [path.Join]: the empty string when every element is empty, and
    otherwise the joined elements, cleaned. *)
Definition path_Join (elems : list string) : string :=
  if forallb (fun e => String.eqb e EmptyString) elems then EmptyString
  else path_Clean (join_elements EmptyString elems).

(** Modelled from the spec: the writer of package [wal], which is not among
    the engine files.  It appends one record per [Write]; an append either
    succeeds or reports an i/o error and appends nothing.  [wal_written]
    are the records appended through this writer. *)
Record WALWriter : Type := {
  wal_file : string;
  wal_written : list KV;
  wal_closed : bool
}.

Definition NewWALWriter (file : string) : WALWriter :=
  {| wal_file := file; wal_written := []; wal_closed := false |}.

(** [WALWriter.Write]; [io] is the outcome of the append on the disk. *)
Definition WALWriter_Write (w : WALWriter) (key value : bytes) (io : option error)
    : WALWriter * option error :=
  match io with
  | Some err => (w, Some err)
  | None =>
      ({| wal_file := wal_file w;
          wal_written := wal_written w ++ [{| KV_Key := key; KV_Value := value |}];
          wal_closed := wal_closed w |}, None)
  end.

Definition WALWriter_Close (w : WALWriter) : WALWriter :=
  {| wal_file := wal_file w; wal_written := wal_written w; wal_closed := true |}.

(** What the segment writer and the opening of a segment reader hand to
    the compactor.  [NewSSTWriter], [SSTWriter] and [NewSSTReader] are not
    among the engine files; the compactor only depends on whether a writer
    could be created, on the triple [Finish] returns for the pairs that
    were appended, and on the reader (or the error) for the finished file. *)
Record SSTIO : Type := {
  NewSSTWriter_err : string -> option error;
  Finish : string -> list KV -> Z * gmap Z bytes * list Index;
  NewSSTReader : string -> list KV -> result SSTReader
}.

Section WithMemTable.
Context {M : Type} `{MemTable M}.

(** A memtable object: its address and its present contents. *)
Record MemTableObj : Type := { mt_addr : N; mt_state : M }.

(** [memTableCompactItem]. *)
Record memTableCompactItem : Type := {
  item_walFile : string;
  item_memTable : MemTableObj
}.

(** [Tree].  The two channels hold what has been handed to a sending
    goroutine and not yet received by the compactor; [t_next_addr] is the
    next address the allocator hands out. *)
Record Tree : Type := {
  t_conf : Config;
  t_memTable : MemTableObj;
  t_rOnlyMemTable : list memTableCompactItem;
  t_walWriter : WALWriter;
  t_groups : list Group;
  t_memCompactC : list memTableCompactItem;
  t_groupCompactC : list Z;
  t_memTableIndex : Z;
  t_groupSeq : Z;
  t_sstSeq : Z;
  t_next_addr : N
}.

Definition set_memTable (t : Tree) (m : MemTableObj) : Tree :=
  {| t_conf := t_conf t; t_memTable := m; t_rOnlyMemTable := t_rOnlyMemTable t;
     t_walWriter := t_walWriter t; t_groups := t_groups t;
     t_memCompactC := t_memCompactC t; t_groupCompactC := t_groupCompactC t;
     t_memTableIndex := t_memTableIndex t; t_groupSeq := t_groupSeq t;
     t_sstSeq := t_sstSeq t; t_next_addr := t_next_addr t |}.

Definition set_rOnlyMemTable (t : Tree) (l : list memTableCompactItem) : Tree :=
  {| t_conf := t_conf t; t_memTable := t_memTable t; t_rOnlyMemTable := l;
     t_walWriter := t_walWriter t; t_groups := t_groups t;
     t_memCompactC := t_memCompactC t; t_groupCompactC := t_groupCompactC t;
     t_memTableIndex := t_memTableIndex t; t_groupSeq := t_groupSeq t;
     t_sstSeq := t_sstSeq t; t_next_addr := t_next_addr t |}.

Definition set_walWriter (t : Tree) (w : WALWriter) : Tree :=
  {| t_conf := t_conf t; t_memTable := t_memTable t;
     t_rOnlyMemTable := t_rOnlyMemTable t;
     t_walWriter := w; t_groups := t_groups t;
     t_memCompactC := t_memCompactC t; t_groupCompactC := t_groupCompactC t;
     t_memTableIndex := t_memTableIndex t; t_groupSeq := t_groupSeq t;
     t_sstSeq := t_sstSeq t; t_next_addr := t_next_addr t |}.

Definition set_groups (t : Tree) (gs : list Group) : Tree :=
  {| t_conf := t_conf t; t_memTable := t_memTable t;
     t_rOnlyMemTable := t_rOnlyMemTable t;
     t_walWriter := t_walWriter t; t_groups := gs;
     t_memCompactC := t_memCompactC t; t_groupCompactC := t_groupCompactC t;
     t_memTableIndex := t_memTableIndex t; t_groupSeq := t_groupSeq t;
     t_sstSeq := t_sstSeq t; t_next_addr := t_next_addr t |}.

Definition set_memCompactC (t : Tree) (c : list memTableCompactItem) : Tree :=
  {| t_conf := t_conf t; t_memTable := t_memTable t;
     t_rOnlyMemTable := t_rOnlyMemTable t;
     t_walWriter := t_walWriter t; t_groups := t_groups t;
     t_memCompactC := c; t_groupCompactC := t_groupCompactC t;
     t_memTableIndex := t_memTableIndex t; t_groupSeq := t_groupSeq t;
     t_sstSeq := t_sstSeq t; t_next_addr := t_next_addr t |}.

Definition set_groupCompactC (t : Tree) (c : list Z) : Tree :=
  {| t_conf := t_conf t; t_memTable := t_memTable t;
     t_rOnlyMemTable := t_rOnlyMemTable t;
     t_walWriter := t_walWriter t; t_groups := t_groups t;
     t_memCompactC := t_memCompactC t; t_groupCompactC := c;
     t_memTableIndex := t_memTableIndex t; t_groupSeq := t_groupSeq t;
     t_sstSeq := t_sstSeq t; t_next_addr := t_next_addr t |}.

Definition set_memTableIndex (t : Tree) (i : Z) : Tree :=
  {| t_conf := t_conf t; t_memTable := t_memTable t;
     t_rOnlyMemTable := t_rOnlyMemTable t;
     t_walWriter := t_walWriter t; t_groups := t_groups t;
     t_memCompactC := t_memCompactC t; t_groupCompactC := t_groupCompactC t;
     t_memTableIndex := i; t_groupSeq := t_groupSeq t;
     t_sstSeq := t_sstSeq t; t_next_addr := t_next_addr t |}.

Definition set_groupSeq (t : Tree) (s : Z) : Tree :=
  {| t_conf := t_conf t; t_memTable := t_memTable t;
     t_rOnlyMemTable := t_rOnlyMemTable t;
     t_walWriter := t_walWriter t; t_groups := t_groups t;
     t_memCompactC := t_memCompactC t; t_groupCompactC := t_groupCompactC t;
     t_memTableIndex := t_memTableIndex t; t_groupSeq := s;
     t_sstSeq := t_sstSeq t; t_next_addr := t_next_addr t |}.

Definition set_sstSeq (t : Tree) (s : Z) : Tree :=
  {| t_conf := t_conf t; t_memTable := t_memTable t;
     t_rOnlyMemTable := t_rOnlyMemTable t;
     t_walWriter := t_walWriter t; t_groups := t_groups t;
     t_memCompactC := t_memCompactC t; t_groupCompactC := t_groupCompactC t;
     t_memTableIndex := t_memTableIndex t; t_groupSeq := t_groupSeq t;
     t_sstSeq := s; t_next_addr := t_next_addr t |}.

Definition set_next_addr (t : Tree) (a : N) : Tree :=
  {| t_conf := t_conf t; t_memTable := t_memTable t;
     t_rOnlyMemTable := t_rOnlyMemTable t;
     t_walWriter := t_walWriter t; t_groups := t_groups t;
     t_memCompactC := t_memCompactC t; t_groupCompactC := t_groupCompactC t;
     t_memTableIndex := t_memTableIndex t; t_groupSeq := t_groupSeq t;
     t_sstSeq := t_sstSeq t; t_next_addr := a |}.

(** [Tree.sstFile] is [FileName.sstFile]; [Tree.walFile]. *)
Definition walFile (t : Tree) : string :=
  path_Join [Dir (t_conf t); "walfile"%string; fmt_d (t_memTableIndex t) +:+ ".wal"].

(** [Tree.newMemTable]: a writer on [walFile()] (the error of
    [wal.NewWALWriter] is dropped by the caller) and a new memtable. *)
Definition newMemTable (t : Tree) : Tree :=
  let t1 := set_walWriter t (NewWALWriter (walFile t)) in
  let t2 := set_memTable t1 {| mt_addr := t_next_addr t1; mt_state := MemTableConstructor |} in
  set_next_addr t2 (N.succ (t_next_addr t2)).

(** [Tree.refreshMemTableLocked]. *)
Definition refreshMemTableLocked (t : Tree) : Tree :=
  let oldItem := {| item_walFile := walFile t; item_memTable := t_memTable t |} in
  let t1 := set_rOnlyMemTable t (t_rOnlyMemTable t ++ [oldItem]) in
  let t2 := set_walWriter t1 (WALWriter_Close (t_walWriter t1)) in
  let t3 := set_memCompactC t2 (t_memCompactC t2 ++ [oldItem]) in
  let t4 := set_memTableIndex t3 (GoInt.int (t_memTableIndex t3 + 1)) in
  newMemTable t4.

(** The test of step 4 of [Put]:
    [uint64(t.memTable.Size()*5/4) <= t.conf.GroupSSTSize]. *)
Definition below_threshold (conf : Config) (size : Z) : bool :=
  uint64 (Z.quot (GoInt.int (size * 5)) 4) <=? GroupSSTSize conf.

(** [Tree.Put]; [io] is the outcome of the append to the log. *)
Definition Put (t : Tree) (key value : bytes) (io : option error) : Tree * option error :=
  match WALWriter_Write (t_walWriter t) key value io with
  | (_, Some err) => (t, Some err)
  | (w, None) =>
      let t1 := set_walWriter t w in
      let m := t_memTable t1 in
      let t2 := set_memTable t1
                  {| mt_addr := mt_addr m; mt_state := mt_Put key value (mt_state m) |} in
      if below_threshold (t_conf t2) (mt_Size (mt_state (t_memTable t2)))
      then (t2, None)
      else (refreshMemTableLocked t2, None)
  end.

(** The second loop of [Tree.Get]:
    [for i := len(t.rOnlyMemTable) - 1; i >= 0; i--], [k = i + 1]. *)
Fixpoint rOnly_loop (items : list memTableCompactItem) (key : bytes) (k : nat)
    : option (option bytes) :=
  match k with
  | O => Some None
  | S i =>
      item ← items !! i;
      let '(value, ok) := mt_Get (mt_state (item_memTable item)) key in
      if ok then Some (Some value) else rOnly_loop items key i
  end.

(** The third loop: [for i := len(t.groups) - 1; i >= 0; i--]. *)
Fixpoint groups_loop (groups : list Group) (key : bytes) (k : nat) : option GetResult :=
  match k with
  | O => Some miss
  | S i =>
      group ← groups !! i;
      r ← Group_Get group key;
      match r with
      | (_, _, Some err) => Some (failed err)
      | (value, true, None) => Some (hit value)
      | (_, false, None) => groups_loop groups key i
      end
  end.

(** [Tree.Get]. *)
Definition Tree_Get (t : Tree) (key : bytes) : option GetResult :=
  let '(value, ok) := mt_Get (mt_state (t_memTable t)) key in
  if ok then Some (hit value)
  else
    found ← rOnly_loop (t_rOnlyMemTable t) key (length (t_rOnlyMemTable t));
    match found with
    | Some value => Some (hit value)
    | None => groups_loop (t_groups t) key (length (t_groups t))
    end.

(** The test inside the loop of [findOrCreateGroup]. *)
Definition accepts (conf : Config) (group : Group) (startKey endKey : bytes) : bool :=
  (NodeCount group <? GroupSize conf) &&
  match g_startKey group, g_endKey group with
  | Some gStart, Some gEnd =>
      negb ((Compare endKey gStart <? 0) || (0 <? Compare startKey gEnd))
  | _, _ => true
  end.

(** The loop of [findOrCreateGroup]: the position of the first group that
    accepts the range. *)
Fixpoint first_accepting (conf : Config) (startKey endKey : bytes) (i : nat)
    (groups : list Group) : option nat :=
  match groups with
  | [] => None
  | group :: rest =>
      if accepts conf group startKey endKey then Some i
      else first_accepting conf startKey endKey (S i) rest
  end.

(** [t.groupSeq.Add(1)] followed by [NewGroup] and [append]. *)
Definition create_group (t : Tree) : Tree * nat :=
  let groupID := GoInt.int32 (t_groupSeq t + 1) in
  let t1 := set_groupSeq t groupID in
  let newGroup := NewGroup groupID (t_conf t1) in
  (set_groups t1 (t_groups t1 ++ [newGroup]), length (t_groups t1)).

(** [Tree.findOrCreateGroup]: the tree and the position in [t.groups] of
    the group that is returned. *)
Definition findOrCreateGroup (t : Tree) (startKey endKey : bytes) : Tree * nat :=
  match first_accepting (t_conf t) startKey endKey 0 (t_groups t) with
  | Some i => (t, i)
  | None =>
      if len (t_groups t) <? MaxGroups (t_conf t) then create_group t
      else if 0 <? len (t_groups t) then (t, (length (t_groups t) - 1)%nat)
      else create_group t
  end.

(** [Tree.tryTriggerGroupCompact]. *)
Fixpoint shall_compact (groups : list Group) (groupID : Z) : bool :=
  match groups with
  | [] => false
  | group :: rest =>
      if (g_id group =? groupID) && ShouldCompact group then true
      else shall_compact rest groupID
  end.

Definition tryTriggerGroupCompact (t : Tree) (groupID : Z) : Tree :=
  if shall_compact (t_groups t) groupID
  then set_groupCompactC t (t_groupCompactC t ++ [groupID])
  else t.

(** [Tree.createNodeFromSST]: nil ([None]) when the reader cannot be
    opened.  [kvs] are the pairs the finished file holds. *)
Definition createNodeFromSST (io : SSTIO) (t : Tree) (groupID seq : Z) (kvs : list KV)
    (size : Z) (blockToFilter : gmap Z bytes) (index : list Index)
    : option (Tree * option Node) :=
  let fileName := FileName.sstFile groupID seq in
  match NewSSTReader io fileName kvs with
  | Err _ => Some (t, None)
  | Ok sstReader =>
      node ← NewNode (t_next_addr t) (t_conf t) fileName sstReader groupID seq size
                     blockToFilter index;
      Some (set_next_addr t (N.succ (t_next_addr t)), Some node)
  end.

(** [group.AddNode(node)] on the group at position [i] of [t.groups]. *)
Definition add_node_at (t : Tree) (i : nat) (node : Node) : Tree :=
  match t_groups t !! i with
  | Some group => set_groups t (<[i := AddNode group node]> (t_groups t))
  | None => t
  end.

(** [Tree.flushMemTable].  [None] is a panic. *)
Definition flushMemTable (io : SSTIO) (t : Tree) (memTable : MemTableObj) : option Tree :=
  let allKVs := mt_All (mt_state memTable) in
  match allKVs, last allKVs with
  | first :: _, Some final =>
      let startKey := KV_Key first in
      let endKey := KV_Key final in
      let '(t1, i) := findOrCreateGroup t startKey endKey in
      group ← t_groups t1 !! i;
      let seq := GoInt.int32 (t_sstSeq t1 + 1) in
      let t2 := set_sstSeq t1 seq in
      let file := FileName.sstFile (g_id group) seq in
      match NewSSTWriter_err io file with
      | Some _ => Some t2
      | None =>
          let '(size, blockToFilter, index) := Finish io file allKVs in
          '(t3, newNode) ← createNodeFromSST io t2 (g_id group) seq allKVs
                              size blockToFilter index;
          match newNode with
          | Some node => Some (tryTriggerGroupCompact (add_node_at t3 i node) (g_id group))
          | None => Some t3
          end
      end
  | _, _ => Some t
  end.

(** The loop of [compactMemTable] that drops the flushed table from
    [t.rOnlyMemTable]: the first item that holds the same memtable object. *)
Fixpoint drop_item (items : list memTableCompactItem) (memTable : MemTableObj)
    : list memTableCompactItem :=
  match items with
  | [] => []
  | item :: rest =>
      if N.eqb (mt_addr (item_memTable item)) (mt_addr memTable) then rest
      else item :: drop_item rest memTable
  end.

(** [Tree.compactMemTable].  The removal of the log file happens outside
    the model. *)
Definition compactMemTable (io : SSTIO) (t : Tree) (memCompactItem : memTableCompactItem)
    : option Tree :=
  t1 ← flushMemTable io t (item_memTable memCompactItem);
  Some (set_rOnlyMemTable t1 (drop_item (t_rOnlyMemTable t1) (item_memTable memCompactItem))).

(** The state of the loop of [compactGroup]. *)
Record compaction : Type := {
  c_tree : Tree;
  c_seq : Z;
  c_appended : list KV;
  c_currentSize : Z;
  c_newNodes : list Node;
  c_broken : bool
}.

(** [sstWriter.Finish()] and [createNodeFromSST] for the open file of the
    loop; the node, when there is one, joins [newNodes]. *)
Definition finish_file (io : SSTIO) (groupID : Z) (c : compaction) : option compaction :=
  let file := FileName.sstFile groupID (c_seq c) in
  let '(size, blockToFilter, index) := Finish io file (c_appended c) in
  '(t1, newNode) ← createNodeFromSST io (c_tree c) groupID (c_seq c) (c_appended c)
                      size blockToFilter index;
  Some {| c_tree := t1; c_seq := c_seq c; c_appended := c_appended c;
          c_currentSize := c_currentSize c;
          c_newNodes := match newNode with
                        | Some node => c_newNodes c ++ [node]
                        | None => c_newNodes c
                        end;
          c_broken := c_broken c |}.

(** One round of the loop over [allKVs]; [is_last] is [i == len(allKVs)-1]. *)
Definition compact_round (io : SSTIO) (conf : Config) (groupID : Z) (c : compaction)
    (kv : KV) (is_last : bool) : option compaction :=
  let kvSize := uint64 (GoInt.int (len (KV_Key kv) + len (KV_Value kv))) in
  c1 ← (if (0 <? c_currentSize c) &&
            (GroupSSTSize conf <? uint64 (c_currentSize c + kvSize))
        then
          c' ← finish_file io groupID c;
          let seq := GoInt.int32 (t_sstSeq (c_tree c') + 1) in
          let t1 := set_sstSeq (c_tree c') seq in
          match NewSSTWriter_err io (FileName.sstFile groupID seq) with
          | Some _ =>
              Some {| c_tree := t1; c_seq := seq; c_appended := c_appended c';
                      c_currentSize := c_currentSize c'; c_newNodes := c_newNodes c';
                      c_broken := true |}
          | None =>
              Some {| c_tree := t1; c_seq := seq; c_appended := [];
                      c_currentSize := 0; c_newNodes := c_newNodes c';
                      c_broken := false |}
          end
        else Some c);
  if c_broken c1 then Some c1
  else
    let c2 := {| c_tree := c_tree c1; c_seq := c_seq c1;
                 c_appended := c_appended c1 ++ [kv];
                 c_currentSize := uint64 (c_currentSize c1 + kvSize);
                 c_newNodes := c_newNodes c1; c_broken := false |} in
    if is_last then finish_file io groupID c2 else Some c2.

Fixpoint compact_loop (io : SSTIO) (conf : Config) (groupID : Z) (c : compaction)
    (allKVs : list KV) : option compaction :=
  match allKVs with
  | [] => Some c
  | kv :: rest =>
      c1 ← compact_round io conf groupID c kv (match rest with [] => true | _ => false end);
      if c_broken c1 then Some c1 else compact_loop io conf groupID c1 rest
  end.

(** [Tree.replaceGroupNodes] on the group at position [i]; the old files
    are destroyed outside the model. *)
Definition replaceGroupNodes (t : Tree) (i : nat) (oldNodes newNodes : list Node) : Tree :=
  match t_groups t !! i with
  | None => t
  | Some group =>
      let g1 := fold_left (fun g oldNode => (RemoveNode g oldNode).1) oldNodes group in
      let g2 := fold_left AddNode newNodes g1 in
      set_groups t (<[i := g2]> (t_groups t))
  end.

(** The first loop of [compactGroup]: the position of the first group with
    the given id. *)
Fixpoint group_with_id (groups : list Group) (groupID : Z) (i : nat) : option nat :=
  match groups with
  | [] => None
  | group :: rest =>
      if g_id group =? groupID then Some i else group_with_id rest groupID (S i)
  end.

(** [Tree.compactGroup]. *)
Definition compactGroup (io : SSTIO) (t : Tree) (groupID : Z) : option Tree :=
  match group_with_id (t_groups t) groupID 0 with
  | None => Some t
  | Some i =>
      targetGroup ← t_groups t !! i;
      let nodes := g_nodes targetGroup in
      if len nodes <=? 1 then Some t
      else
        match GetAllKVs targetGroup with
        | Err _ => Some t
        | Ok [] => Some t
        | Ok allKVs =>
            let seq := GoInt.int32 (t_sstSeq t + 1) in
            let t1 := set_sstSeq t seq in
            match NewSSTWriter_err io (FileName.sstFile groupID seq) with
            | Some _ => Some t1
            | None =>
                c ← compact_loop io (t_conf t1) groupID
                      {| c_tree := t1; c_seq := seq; c_appended := [];
                         c_currentSize := 0; c_newNodes := []; c_broken := false |}
                      allKVs;
                Some (replaceGroupNodes (c_tree c) i nodes (c_newNodes c))
            end
        end
  end.

(** [NewTree] on a directory that holds no segment and no log: no group,
    both generators at 0, an empty memtable on the log [0.wal]. *)
Definition NewTree_empty (conf : Config) : Tree :=
  newMemTable
    {| t_conf := conf;
       t_memTable := {| mt_addr := 0; mt_state := MemTableConstructor |};
       t_rOnlyMemTable := []; t_walWriter := NewWALWriter EmptyString;
       t_groups := []; t_memCompactC := []; t_groupCompactC := [];
       t_memTableIndex := 0; t_groupSeq := 0; t_sstSeq := 0; t_next_addr := 1 |}.

(** The runs of the engine: calls of [Put], and the compactor receiving
    one of the pending items or group ids. *)
Inductive step (io : SSTIO) : Tree -> Tree -> Prop :=
| step_Put t key value wal_io :
    step io t (Put t key value wal_io).1
| step_compactMemTable t before item after t' :
    t_memCompactC t = before ++ item :: after ->
    compactMemTable io (set_memCompactC t (before ++ after)) item = Some t' ->
    step io t t'
| step_compactGroup t before groupID after t' :
    t_groupCompactC t = before ++ groupID :: after ->
    compactGroup io (set_groupCompactC t (before ++ after)) groupID = Some t' ->
    step io t t'.

Inductive reachable (io : SSTIO) (conf : Config) : Tree -> Prop :=
| reachable_init : reachable io conf (NewTree_empty conf)
| reachable_step t t' : reachable io conf t -> step io t t' -> reachable io conf t'.

(** No flush and no compaction is pending. *)
Definition steady (t : Tree) : Prop :=
  t_memCompactC t = [] /\ t_groupCompactC t = [].

End WithMemTable.

End Engine.

(** ** Vocabulary of the statements about groups *)

Module GroupSpec.
Import GoInt Bytes Types SST Grp.

(** [startKey], [endKey] are the aggregate range of [nodes]: both nil for
    no node; otherwise the least start key and the greatest end key, each
    taken from one of the nodes. *)
Definition is_range (nodes : list Node) (startKey endKey : option bytes) : Prop :=
  match nodes with
  | [] => startKey = None /\ endKey = None
  | _ :: _ =>
      exists s e,
        startKey = Some s /\ endKey = Some e /\
        In s (map Start nodes) /\ (forall n, In n nodes -> le s (Start n)) /\
        In e (map End_ nodes) /\ (forall n, In n nodes -> le (End_ n) e)
  end.

(** The group [RemoveNode] leaves when it drops a node: the other nodes in
    their order, the size reduced by the size of the argument (in [uint64]
    arithmetic) and the range recomputed. *)
Definition without (g : Group) (node : Node) (remaining : list Node) : Group :=
  {| g_id := g_id g; g_conf := g_conf g; g_nodes := remaining;
     g_startKey := (key_range remaining).1; g_endKey := (key_range remaining).2;
     g_size := uint64 (g_size g - n_size node) |}.

End GroupSpec.

(** ** Vocabulary of the statements about segment handles *)

Module NodeSpec.
Import GoInt Bytes Types SST.

(** The index keys of a handle are in ascending order (equal neighbours
    are allowed). *)
Definition index_ascending (n : Node) : Prop :=
  forall i j a b,
    (i <= j)%nat -> n_index n !! i = Some a -> n_index n !! j = Some b ->
    le (Index_Key a) (Index_Key b).

(** The test of the binary search: the stored key is [>= key]. *)
Definition covers (key : bytes) (e : Index) : bool := 0 <=? Compare (Index_Key e) key.

(** The test of the scan of a block. *)
Definition has_key (key : bytes) (kv : KV) : bool := Equal (KV_Key kv) key.

(** What [Node.Get] answers once the candidate entry is known. *)
Definition probe_block (n : Node) (key : bytes) (e : Index) : GetResult :=
  if Exist (conf_Filter (n_conf n)) (default [] (n_blockToFilter n !! PrevBlockOffset e)) key
  then
    match ReadBlock (n_sstReader n) (PrevBlockOffset e) (PrevBlockSize e) with
    | Err err => failed err
    | Ok block =>
        match ReadBlockData (n_sstReader n) block with
        | Err err => failed err
        | Ok kvs =>
            match find (has_key key) kvs with
            | Some kv => hit (KV_Value kv)
            | None => miss
            end
        end
    end
  else miss.

End NodeSpec.

(** ** Vocabulary of the statements about the engine *)

Module EngineSpec.
Import GoInt Bytes Types SST Grp Engine.

(** The answer of a sequence of probes made one after the other: the first
    probe that does not miss decides, be it a hit, an error or a panic. *)
Fixpoint first_decisive (probes : list (option GetResult)) : option GetResult :=
  match probes with
  | [] => Some miss
  | None :: _ => None
  | Some (_, _, Some err) :: _ => Some (failed err)
  | Some (value, true, None) :: _ => Some (hit value)
  | Some (_, false, None) :: rest => first_decisive rest
  end.

(** The value of the first probe that is a hit, whatever the probes before
    it answered. *)
Fixpoint first_hit (probes : list (option GetResult)) : option bytes :=
  match probes with
  | [] => None
  | Some (value, true, None) :: _ => Some value
  | _ :: rest => first_hit rest
  end.

(** The aggregate range of a group was left by [updateKeyRange]. *)
Definition group_wf (g : Group) : Prop :=
  GroupSpec.is_range (g_nodes g) (g_startKey g) (g_endKey g).

(** The routing rule in the words of the specification: fewer than
    [GroupSize] segments, and empty or overlapping [startKey..endKey]. *)
Definition routes_to (conf : Config) (g : Group) (startKey endKey : bytes) : Prop :=
  NodeCount g < GroupSize conf /\
  (g_nodes g = [] \/
   exists gStart gEnd,
     g_startKey g = Some gStart /\ g_endKey g = Some gEnd /\
     ~ (lt endKey gStart \/ lt gEnd startKey)).

Section WithMemTable.
Context {M : Type} `{MemTable M}.

(** A probe of one memtable. *)
Definition mem_probe (key : bytes) (m : MemTableObj) : option GetResult :=
  let '(value, ok) := mt_Get (mt_state m) key in
  Some (if ok then hit value else miss).

(** The probes of [Tree.Get] in the order they are made: the active
    memtable, the read-only memtables from the last to the first, the
    groups from the last to the first. *)
Definition probes (t : Tree) (key : bytes) : list (option GetResult) :=
  mem_probe key (t_memTable t)
  :: map (fun item => mem_probe key (item_memTable item)) (rev (t_rOnlyMemTable t))
  ++ map (fun g => Group_Get g key) (rev (t_groups t)).

(** The reading of [Tree.Get] that knows hits and misses only. *)
Definition returns_first_hit (t : Tree) (key : bytes) : Prop :=
  Tree_Get t key =
  Some (match first_hit (probes t key) with Some value => hit value | None => miss end).

(** Every group holds at most [GroupSize] segments. *)
Definition within_cap (t : @Tree M) : Prop :=
  Forall (fun g => NodeCount g <= GroupSize (t_conf t)) (t_groups t).

(** Some group passes the test of [findOrCreateGroup] for the range, or
    there is room for one more group. *)
Definition has_room (t : @Tree M) (startKey endKey : bytes) : Prop :=
  Exists (fun g => accepts (t_conf t) g startKey endKey = true) (t_groups t) \/
  len (t_groups t) < MaxGroups (t_conf t).

(** The range a flush of [memTable] is routed by has room in [t]. *)
Definition flush_has_room (t : @Tree M) (memTable : MemTableObj) : Prop :=
  forall first final,
    head (mt_All (mt_state memTable)) = Some first ->
    last (mt_All (mt_state memTable)) = Some final ->
    has_room t (KV_Key first) (KV_Key final).

End WithMemTable.

End EngineSpec.

(** ** A table, a filter and segments to run the engine on *)

Module Concrete.
Import GoInt Bytes Types SST Grp Engine.

(** Modelled from the spec: the skiplist of package [memtable], which is
    not among the engine files.  The spec describes a mutable sorted
    mapping from key to value, in which a write to a present key replaces
    the value, whose size is the sum of the key and value bytes and whose
    entries are listed in ascending key order. *)
Definition Table : Type := list KV.

Fixpoint table_Put (key value : bytes) (m : Table) : Table :=
  match m with
  | [] => [{| KV_Key := key; KV_Value := value |}]
  | e :: m' =>
      match compare_lex key (KV_Key e) with
      | Lt => {| KV_Key := key; KV_Value := value |} :: e :: m'
      | Eq => {| KV_Key := key; KV_Value := value |} :: m'
      | Gt => e :: table_Put key value m'
      end
  end.

Fixpoint table_Get (m : Table) (key : bytes) : bytes * bool :=
  match m with
  | [] => ([], false)
  | e :: m' => if Equal (KV_Key e) key then (KV_Value e, true) else table_Get m' key
  end.

Definition table_Size (m : Table) : Z :=
  fold_right (fun e n => len (KV_Key e) + len (KV_Value e) + n) 0 m.

#[export] Instance Table_MemTable : MemTable Table := {|
  MemTableConstructor := [];
  mt_Put := table_Put;
  mt_Get := table_Get;
  mt_Size := table_Size;
  mt_All := fun m => m
|}.

(** A filter that never rejects. *)
Definition pass_filter : Filter := {| Exist := fun _ _ => true |}.

(** A filter that rejects every key. *)
Definition reject_filter : Filter := {| Exist := fun _ _ => false |}.

Definition config (groupSize groupSSTSize maxGroups : Z) (f : Filter) : Config :=
  {| Dir := "db"; GroupSize := groupSize; GroupSSTSize := groupSSTSize;
     MaxGroups := maxGroups; CompactionRatio := 0x1.999999999999ap-1%float;
     SSTDataBlockSize := 16 * 1024; SSTFooterSize := 32; conf_Filter := f |}.

Definition kv (key value : string) : KV :=
  {| KV_Key := of_string key; KV_Value := of_string value |}.

(** The reader of a segment that keeps all its pairs in one block at
    offset 0; the raw block is not looked at. *)
Definition one_block_reader (kvs : list KV) : SSTReader :=
  {| ReadBlock := fun _ _ => Ok [];
     ReadBlockData := fun _ => Ok kvs;
     ReadData := Ok kvs |}.

(** The reader of a segment whose blocks cannot be read. *)
Definition broken_reader (e : error) : SSTReader :=
  {| ReadBlock := fun _ _ => Err e;
     ReadBlockData := fun _ => Err e;
     ReadData := Err e |}.

(** The index of a one-block segment: an entry for the first key and an
    entry for the last key, both pointing at the block. *)
Definition one_block_index (kvs : list KV) : list Index :=
  match kvs, last kvs with
  | first :: _, Some final =>
      [ {| Index_Key := KV_Key first; PrevBlockOffset := 0; PrevBlockSize := table_Size kvs |};
        {| Index_Key := KV_Key final; PrevBlockOffset := 0; PrevBlockSize := table_Size kvs |} ]
  | _, _ => []
  end.

(** A segment writer and reader for the runs of the compactor: no i/o
    error, one block per file. *)
Definition one_block_io : SSTIO :=
  {| NewSSTWriter_err := fun _ => None;
     Finish := fun _ kvs => (table_Size kvs, ∅, one_block_index kvs);
     NewSSTReader := fun _ kvs => Ok (one_block_reader kvs) |}.

(** A node over the given pairs, as [NewNode] builds it. *)
Definition node_of (addr : N) (conf : Config) (groupID seq : Z) (reader : SSTReader)
    (kvs : list KV) : option Node :=
  NewNode addr conf (FileName.sstFile groupID seq) reader groupID seq
          (table_Size kvs) ∅ (one_block_index kvs).

(** A node without index, the result of no call of [NewNode]. *)
Definition blank_node (addr : N) (conf : Config) : Node :=
  {| n_addr := addr; n_conf := conf; n_file := EmptyString; n_groupID := 0; n_seq := 0;
     n_size := 0; n_blockToFilter := ∅; n_index := []; n_startKey := []; n_endKey := [];
     n_sstReader := one_block_reader [] |}.

(** The node [node_of] builds for a non-empty list of pairs. *)
Definition segment (addr : N) (conf : Config) (groupID seq : Z) (reader : SSTReader)
    (kvs : list KV) : Node :=
  default (blank_node addr conf) (node_of addr conf groupID seq reader kvs).

(** The default sizes, and a configuration so small that every pair fills
    a memtable and a segment, with room for one group of one segment. *)
Definition roomy : Config := config 10 (10 * 1024 * 1024) 100 pass_filter.
Definition tiny : Config := config 1 1 1 pass_filter.

(** Two flushes into one group: the first holds [b] and [c], the second,
    flushed later, holds [a] and a newer value of [c]. *)
Definition older_kvs : list KV := [kv "b" "x"; kv "c" "old"].
Definition newer_kvs : list KV := [kv "a" "y"; kv "c" "new"].
Definition older : Node := segment 1 roomy 1 1 (one_block_reader older_kvs) older_kvs.
Definition newer : Node := segment 2 roomy 1 2 (one_block_reader newer_kvs) newer_kvs.
Definition stranger : Node := segment 3 roomy 1 3 (one_block_reader older_kvs) older_kvs.
Definition two_flushes : Group := AddNode (AddNode (NewGroup 1 roomy) older) newer.

(** A group of [tiny] that is full with one segment. *)
Definition crowded : Group := AddNode (NewGroup 1 tiny) older.

(** A tree over the given groups with an empty active memtable. *)
Definition tree_of (conf : Config) (groups : list Group) : @Tree Table :=
  {| t_conf := conf;
     t_memTable := {| mt_addr := 0; mt_state := [] |};
     t_rOnlyMemTable := [];
     t_walWriter := NewWALWriter "db/walfile/0.wal";
     t_groups := groups; t_memCompactC := []; t_groupCompactC := [];
     t_memTableIndex := 0; t_groupSeq := 9; t_sstSeq := 9; t_next_addr := 9 |}.

(** An older group that holds [k], and a newer group whose only segment
    covers [k] and cannot be read. *)
Definition readable : Node := segment 1 roomy 1 1 (one_block_reader [kv "k" "v"]) [kv "k" "v"].
Definition unreadable : Node :=
  segment 2 roomy 2 2 (broken_reader "read error") [kv "k" "w"].
Definition faulty_tree : @Tree Table :=
  tree_of roomy [AddNode (NewGroup 1 roomy) readable; AddNode (NewGroup 2 roomy) unreadable].

(** A run of the engine on [tiny]: two writes, each of which fills the
    memtable; the two flushes; the two compactions the flushes ask for. *)
Definition run_0 : @Tree Table := NewTree_empty tiny.
Definition run_1 : @Tree Table := (Put run_0 (of_string "a") (of_string "x") None).1.
Definition run_2 : @Tree Table := (Put run_1 (of_string "b") (of_string "y") None).1.
Definition first_item : @memTableCompactItem Table :=
  {| item_walFile := "db/walfile/0.wal";
     item_memTable := {| mt_addr := 1; mt_state := [kv "a" "x"] |} |}.
Definition second_item : @memTableCompactItem Table :=
  {| item_walFile := "db/walfile/1.wal";
     item_memTable := {| mt_addr := 2; mt_state := [kv "b" "y"] |} |}.
Definition run_3 : @Tree Table :=
  default run_0 (compactMemTable one_block_io (set_memCompactC run_2 [second_item]) first_item).
Definition run_4 : @Tree Table :=
  default run_0 (compactMemTable one_block_io (set_memCompactC run_3 []) second_item).
Definition run_5 : @Tree Table :=
  default run_0 (compactGroup one_block_io (set_groupCompactC run_4 [1]) 1).
Definition run_6 : @Tree Table :=
  default run_0 (compactGroup one_block_io (set_groupCompactC run_5 []) 1).

(** A run that ends in [two_flushes]: four writes, the second and the
    fourth of which fill the memtable, and the two flushes. *)
Definition medium : Config := config 10 5 100 pass_filter.
Definition walk_0 : @Tree Table := NewTree_empty medium.
Definition walk_1 : @Tree Table := (Put walk_0 (of_string "b") (of_string "x") None).1.
Definition walk_2 : @Tree Table := (Put walk_1 (of_string "c") (of_string "old") None).1.
Definition walk_3 : @Tree Table := (Put walk_2 (of_string "a") (of_string "y") None).1.
Definition walk_4 : @Tree Table := (Put walk_3 (of_string "c") (of_string "new") None).1.
Definition older_item : @memTableCompactItem Table :=
  {| item_walFile := "db/walfile/0.wal";
     item_memTable := {| mt_addr := 1; mt_state := older_kvs |} |}.
Definition newer_item : @memTableCompactItem Table :=
  {| item_walFile := "db/walfile/1.wal";
     item_memTable := {| mt_addr := 2; mt_state := newer_kvs |} |}.
Definition walk_5 : @Tree Table :=
  default walk_0 (compactMemTable one_block_io (set_memCompactC walk_4 [newer_item]) older_item).
Definition walk_6 : @Tree Table :=
  default walk_0 (compactMemTable one_block_io (set_memCompactC walk_5 []) newer_item).

(** The keys of a table are strictly ascending. *)
Definition ascending_keys (m : Table) : Prop :=
  Sorted (fun a b => lt (KV_Key a) (KV_Key b)) m.

(** The value the last pair with the given key carries in a sequence of
    writes, starting from [found]. *)
Definition last_write (kvs : list KV) (key : bytes) (found : bytes * bool) : bytes * bool :=
  fold_left (fun r e => if Equal (KV_Key e) key then (KV_Value e, true) else r) kvs found.

(** A memtable to flush into a tree that holds [two_flushes]. *)
Definition small_table : @MemTableObj Table :=
  {| mt_addr := 7; mt_state := [kv "b" "z"] |}.

End Concrete.

(** ** Names of the write-ahead logs *)

Module WalName.
Import GoString.

(** The base name [Tree.walFile] gives to a log:
    [fmt.Sprintf("%d.wal", t.memTableIndex)]. *)
Definition walName (memTableIndex : Z) : string := fmt_d memTableIndex +:+ ".wal".

(** [walFileToMemTableIndex]; the error of [Atoi] is dropped. *)
Definition walFileToMemTableIndex (walFile : string) : Z :=
  let rawIndex := ReplaceAll walFile ".wal" EmptyString in
  (Atoi rawIndex).1.

End WalName.

(** ** Vocabulary of the further statements *)

Module MoreSpec.
Import GoInt Bytes Types SST Grp Engine.

(** The order [sortNodes] hands to [sort.Slice]. *)
Definition by_start (a b : Node) : bool := Compare (Start a) (Start b) <? 0.

(** The nodes are in ascending order of their start keys. *)
Definition sorted_by_start (nodes : list Node) : Prop :=
  StronglySorted (fun a b => le (Start a) (Start b)) nodes.

(** The three facts about a memtable that the read path relies on: a
    lookup finds what was put last, a put leaves the other keys alone, and
    a new table holds nothing. *)
Record memtable_laws (M : Type) `{MemTable M} : Prop := {
  get_put_same : forall key value (m : M), mt_Get (mt_Put key value m) key = (value, true);
  get_put_other : forall key value (m : M) key',
      key <> key' -> mt_Get (mt_Put key value m) key' = mt_Get m key';
  get_new : forall key, (mt_Get (MemTableConstructor : M) key).2 = false
}.

(** Reopening a finished segment never fails, the reopened file gives
    back the pairs that were written, and a file with pairs has an index. *)
Record faithful_reader (io : SSTIO) : Prop := {
  reader_opens : forall file kvs,
      exists reader, NewSSTReader io file kvs = Ok reader /\ ReadData reader = Ok kvs;
  index_present : forall file kvs, kvs <> [] -> (Finish io file kvs).2 <> []
}.

(** Moreover no segment writer fails to open. *)
Record faithful_io (io : SSTIO) : Prop := {
  writer_opens : forall file, NewSSTWriter_err io file = None;
  reader_faithful : faithful_reader io
}.

(** The size the loop of [compactGroup] counts for a pair,
    [uint64(len(kv.Key)+len(kv.Value))], and the value [currentSize] has
    after the pairs of a file were appended. *)
Definition kv_size (kv : KV) : Z := uint64 (int (len (KV_Key kv) + len (KV_Value kv))).

Definition chunk_size (kvs : list KV) : Z :=
  fold_left (fun size kv => uint64 (size + kv_size kv)) kvs 0.

(** The pairs of a file fit: their size is within [GroupSSTSize], or the
    pairs before the last one have no size at all. *)
Definition fits (conf : Config) (chunk : list KV) : Prop :=
  chunk_size chunk <= GroupSSTSize conf \/ chunk_size (removelast chunk) = 0.

(** A file ends only where the next pair would not fit any more. *)
Definition cut_when_full (conf : Config) (chunks : list (list KV)) : Prop :=
  forall i chunk next,
    chunks !! i = Some chunk -> chunks !! S i = Some next ->
    0 < chunk_size chunk /\
    exists kv, head next = Some kv /\ GroupSSTSize conf < uint64 (chunk_size chunk + kv_size kv).

(** The nodes hold, one file each and in their order, the given cut of
    [allKVs] into non-empty files. *)
Definition hold_cut (conf : Config) (nodes : list Node) (chunks : list (list KV))
    (allKVs : list KV) : Prop :=
  Forall2 (fun n d => GetAll n = Ok d) nodes chunks /\
  concat chunks = allKVs /\
  Forall (fun chunk => chunk <> []) chunks /\
  Forall (fits conf) chunks /\
  cut_when_full conf chunks.

(** The value of the last write of [key] whose append to the log
    succeeded, when there is one. *)
Fixpoint last_acknowledged (writes : list (KV * option error)) (key : bytes) : option bytes :=
  match writes with
  | [] => None
  | (kv, io) :: rest =>
      match last_acknowledged rest key, io with
      | Some value, _ => Some value
      | None, None => if Equal (KV_Key kv) key then Some (KV_Value kv) else None
      | None, Some _ => None
      end
  end.

(** The pairs [GetAll] reads from a node; none when it fails. *)
Definition pairs_of (n : Node) : list KV :=
  match GetAll n with Ok kvs => kvs | Err _ => [] end.

(** The group ids of a tree that started on an empty directory: 1, 2, ...
    in the order of the list. *)
Definition ids_in_order (groups : list Group) : Prop :=
  map g_id groups = map Z.of_nat (seq 1 (length groups)).

Section WithMemTable.
Context {M : Type} `{MemTable M}.

(** [t'] is [t] with other values of the two counters that the compactor
    advances: the sequence numbers of segments and the addresses, of which
    none is handed out twice. *)
Definition counters_moved (t t' : @Tree M) : Prop :=
  t' = set_next_addr (set_sstSeq t (t_sstSeq t')) (t_next_addr t') /\
  (t_next_addr t <= t_next_addr t')%N.

(** The part of a tree that the write path owns. *)
Definition write_side (t : @Tree M) :=
  (t_memTable t, t_rOnlyMemTable t, t_walWriter t, t_memTableIndex t, t_memCompactC t).

(** The compactor went from [t] to [t'] without touching what the write
    path owns. *)
Definition write_side_kept (t t' : @Tree M) : Prop :=
  write_side t' = write_side t /\ t_conf t' = t_conf t /\
  (t_next_addr t <= t_next_addr t')%N.

(** A sequence of calls of [Put], each with the outcome of its append to
    the log. *)
Definition Puts (t : @Tree M) (writes : list (KV * option error)) : @Tree M :=
  fold_left (fun t w => (Put t (KV_Key w.1) (KV_Value w.1) w.2).1) writes t.

(** The state of the loop of [compactGroup] between two rounds, after the
    pairs [done]: the finished files and the open one are a cut of [done]. *)
Definition chunked (conf : Config) (c : @compaction M) (done : list KV) : Prop :=
  c_broken c = false /\ c_currentSize c = chunk_size (c_appended c) /\
  exists chunks,
    Forall2 (fun n d => GetAll n = Ok d) (c_newNodes c) chunks /\
    concat chunks ++ c_appended c = done /\
    Forall (fun chunk => chunk <> []) chunks /\
    Forall (fits conf) (chunks ++ [c_appended c]) /\
    cut_when_full conf (chunks ++ [c_appended c]) /\
    (c_appended c = [] -> chunks = []).

(** The address of the memtable a queued item holds. *)
Definition item_addr (item : @memTableCompactItem M) : N := mt_addr (item_memTable item).

(** The addresses of the active memtable and of the frozen ones. *)
Definition table_addrs (t : @Tree M) : list N :=
  mt_addr (t_memTable t) :: map item_addr (t_rOnlyMemTable t).

(** A tree of configuration [conf] with at most [MaxGroups] groups, whose
    ids are 1, 2, ... and whose id generator stands at their number. *)
Definition groups_numbered (conf : Config) (t : @Tree M) : Prop :=
  t_conf t = conf /\ len (t_groups t) <= MaxGroups conf /\
  ids_in_order (t_groups t) /\ t_groupSeq t = len (t_groups t).

End WithMemTable.

End MoreSpec.

(** ** Further runs *)

Module MoreRuns.
Import GoInt Bytes Types SST Grp Engine Concrete.

(** The first flush of the run on [tiny], before the compactor drops the
    flushed table from the list of frozen tables. *)
Definition run_2_flushed : @Tree Table :=
  default run_0 (flushMemTable one_block_io run_2 (item_memTable first_item)).


(** The writer of the file [g1_4.sst] cannot be opened. *)
Definition fourth_file_fails : SSTIO :=
  {| NewSSTWriter_err := fun file =>
       if String.eqb file (FileName.sstFile 1 4) then Some "no space left on device"%string
       else None;
     Finish := Finish one_block_io;
     NewSSTReader := NewSSTReader one_block_io |}.

End MoreRuns.

(** * Facts about the modelled library functions *)

Section MachineIntegers.
Import GoInt.

Lemma int_id x : - 2 ^ 63 <= x < 2 ^ 63 -> int x = x.
Proof.
  intros H. unfold int, wrap_signed.
  change (64 - 1) with 63. change (2 ^ 64) with (2 * 2 ^ 63).
  rewrite Z.mod_small by lia. lia.
Qed.

Lemma int32_id x : - 2 ^ 31 <= x < 2 ^ 31 -> int32 x = x.
Proof.
  intros H. unfold int32, wrap_signed.
  change (32 - 1) with 31. change (2 ^ 32) with (2 * 2 ^ 31).
  rewrite Z.mod_small by lia. lia.
Qed.

Lemma uint64_id x : 0 <= x < 2 ^ 64 -> uint64 x = x.
Proof. intros H. unfold uint64. now rewrite Z.mod_small. Qed.

End MachineIntegers.

Section DecimalStrings.
Import GoString.

Lemma str_app_cons c (s t : string) : String c s +:+ t = String c (s +:+ t).
Proof. reflexivity. Qed.

Lemma str_app_nil (t : string) : EmptyString +:+ t = t.
Proof. reflexivity. Qed.

Lemma str_app_assoc (s t u : string) : (s +:+ t) +:+ u = s +:+ (t +:+ u).
Proof.
  induction s as [|c s IH]; [reflexivity|].
  rewrite !str_app_cons. now rewrite IH.
Qed.

Lemma small_digit d : 0 <= d <= 9 ->
  d = 0 \/ d = 1 \/ d = 2 \/ d = 3 \/ d = 4 \/ d = 5 \/ d = 6 \/ d = 7 \/ d = 8 \/ d = 9.
Proof. lia. Qed.

Lemma digit_of_digit_char d : 0 <= d <= 9 -> digit_of (digit_char d) = Some d.
Proof.
  intros H. destruct (small_digit d H) as [->|[->|[->|[->|[->|[->|[->|[->|[->| ->]]]]]]]]];
    reflexivity.
Qed.

Lemma all_chars_app p s1 s2 :
  all_chars p (s1 +:+ s2) = all_chars p s1 && all_chars p s2.
Proof.
  induction s1 as [|c s1 IH]; [reflexivity|].
  rewrite str_app_cons. simpl. rewrite IH. now rewrite andb_assoc.
Qed.

Lemma all_chars_weaken (p q : ascii -> bool) s :
  (forall c, p c = true -> q c = true) -> all_chars p s = true -> all_chars q s = true.
Proof.
  intros Hpq. induction s as [|c s IH]; simpl; [reflexivity|].
  intros [Hc Hs]%andb_true_iff. rewrite (Hpq _ Hc). simpl. auto.
Qed.

Lemma fmt_digits_buf room : forall u buf,
  fmt_digits room u buf = fmt_digits room u EmptyString +:+ buf.
Proof.
  induction room as [|room IH]; intros u buf; simpl; [reflexivity|].
  destruct (10 <=? u).
  - rewrite IH. rewrite (IH _ (String _ EmptyString)).
    now rewrite str_app_assoc.
  - reflexivity.
Qed.

Lemma atoi_loop_app s1 : forall n s2,
  atoi_loop n (s1 +:+ s2) =
  match atoi_loop n s1 with Some m => atoi_loop m s2 | None => None end.
Proof.
  induction s1 as [|c s1 IH]; intros n s2; [reflexivity|].
  rewrite str_app_cons. simpl. destruct (digit_of c); [apply IH|reflexivity].
Qed.

Lemma atoi_loop_fmt_digits room : forall u,
  0 <= u < 10 ^ Z.of_nat room -> atoi_loop 0 (fmt_digits room u EmptyString) = Some u.
Proof.
  induction room as [|room IH]; intros u Hu.
  - simpl in Hu. assert (u = 0) by lia. subst. reflexivity.
  - simpl fmt_digits. destruct (10 <=? u) eqn:E.
    + apply Z.leb_le in E. rewrite fmt_digits_buf, atoi_loop_app.
      rewrite Nat2Z.inj_succ, Z.pow_succ_r in Hu by lia.
      rewrite IH by (split; [apply Z.div_pos; lia | apply Z.div_lt_upper_bound; lia]).
      simpl. rewrite digit_of_digit_char.
      * f_equal. lia.
      * pose proof (Z.mod_pos_bound u 10 ltac:(lia)).
        rewrite Z.mod_eq in H by lia. lia.
    + apply Z.leb_gt in E. simpl. rewrite digit_of_digit_char by lia. f_equal.
Qed.

Lemma fmt_digits_all_digits room : forall u buf,
  0 <= u -> all_chars is_digit buf = true ->
  all_chars is_digit (fmt_digits room u buf) = true.
Proof.
  induction room as [|room IH]; intros u buf Hu Hb; simpl; [exact Hb|].
  destruct (10 <=? u) eqn:E.
  - apply IH.
    + apply Z.div_pos; lia.
    + simpl. rewrite Hb, andb_true_r. unfold is_digit.
      rewrite digit_of_digit_char; [reflexivity|].
      pose proof (Z.mod_pos_bound u 10 ltac:(lia)).
      rewrite Z.mod_eq in H by lia. lia.
  - apply Z.leb_gt in E. simpl. rewrite Hb, andb_true_r. unfold is_digit.
    now rewrite digit_of_digit_char by lia.
Qed.

Lemma fmt_digits_length room : forall (k : nat) u buf,
  (1 <= k <= room)%nat -> 0 <= u < 10 ^ Z.of_nat k ->
  (1 + String.length buf <= String.length (fmt_digits room u buf) <= k + String.length buf)%nat.
Proof.
  induction room as [|room IH]; intros k u buf Hk Hu; [lia|].
  simpl fmt_digits. destruct (10 <=? u) eqn:E.
  - apply Z.leb_le in E.
    destruct k as [|[|k]]; [lia| simpl in Hu; lia |].
    rewrite Nat2Z.inj_succ, Z.pow_succ_r in Hu by lia.
    specialize (IH (S k) (u / 10) (String (digit_char (u - u / 10 * 10)) buf)).
    simpl String.length in IH.
    assert (0 <= u / 10 < 10 ^ Z.of_nat (S k))
      by (split; [apply Z.div_pos; lia | apply Z.div_lt_upper_bound; lia]).
    specialize (IH ltac:(lia) H). lia.
  - simpl. lia.
Qed.

End DecimalStrings.

Section SegmentFileNames.
Import GoString FileName.

Lemma digit_not_char x c :
  digit_of x = None -> is_digit c = true -> not_char x c = true.
Proof.
  unfold is_digit, not_char. intros Hx Hc.
  destruct (Ascii.eqb_spec x c) as [->|]; [|reflexivity].
  now rewrite Hx in Hc.
Qed.

(** A text without a dot, followed by [".sst"], loses exactly the suffix. *)
Lemma ReplaceAll_sst s :
  all_chars (not_char ".") s = true ->
  ReplaceAll (s +:+ ".sst") ".sst" EmptyString = s.
Proof.
  unfold ReplaceAll. induction s as [|c s IH]; intros H.
  - reflexivity.
  - simpl in H. apply andb_true_iff in H as [Hc Hs].
    rewrite str_app_cons. cbn [replace_from HasPrefix].
    unfold not_char in Hc. apply negb_true_iff in Hc. rewrite Hc.
    now rewrite IH.
Qed.

Lemma split_from_plain s : forall cur,
  all_chars (not_char "_") s = true ->
  split_from 0 "_" cur s = [cur +:+ s].
Proof.
  induction s as [|c s IH]; intros cur H.
  - simpl. f_equal. induction cur as [|a cur IHc]; [reflexivity|].
    rewrite str_app_cons. now rewrite <- IHc.
  - simpl in H. apply andb_true_iff in H as [Hc Hs].
    cbn [split_from HasPrefix]. unfold not_char in Hc. apply negb_true_iff in Hc. rewrite Hc.
    rewrite IH by exact Hs. now rewrite str_app_assoc.
Qed.

Lemma split_from_two s1 : forall cur s2,
  all_chars (not_char "_") s1 = true ->
  all_chars (not_char "_") s2 = true ->
  split_from 0 "_" cur (s1 +:+ "_" +:+ s2) = [cur +:+ s1; s2].
Proof.
  induction s1 as [|c s1 IH]; intros cur s2 H1 H2.
  - rewrite str_app_nil, str_app_cons, str_app_nil. cbn.
    rewrite split_from_plain by exact H2. rewrite str_app_nil. f_equal.
    induction cur as [|a cur IHc]; [reflexivity|].
    rewrite str_app_cons. now rewrite <- IHc.
  - simpl in H1. apply andb_true_iff in H1 as [Hc Hs].
    rewrite str_app_cons. cbn [split_from HasPrefix].
    unfold not_char in Hc. apply negb_true_iff in Hc. rewrite Hc.
    rewrite IH by assumption. now rewrite str_app_assoc.
Qed.

(** A text that starts with the letter [g] is no number: both paths of
    [Atoi] report a syntax error and return 0. *)
Lemma Atoi_g s : Atoi (String "g" s) = (0, Some ErrSyntax).
Proof.
  unfold Atoi. destruct (_ && _).
  - reflexivity.
  - reflexivity.
Qed.

Lemma fmt_d_nonneg n : 0 <= n -> fmt_d n = fmt_digits 20 n EmptyString.
Proof. intros H. unfold fmt_d. destruct (n <? 0) eqn:E; [lia|reflexivity]. Qed.

Lemma fmt_d_digits n : 0 <= n -> all_chars is_digit (fmt_d n) = true.
Proof.
  intros H. rewrite fmt_d_nonneg by exact H. now apply fmt_digits_all_digits.
Qed.

(** [Atoi] reads back what ["%d"] printed, on the fast path. *)
Lemma Atoi_fmt_d n : 0 <= n < 10 ^ 18 -> Atoi (fmt_d n) = (n, None).
Proof.
  intros H. pose proof (fmt_d_digits n ltac:(lia)) as Hd.
  rewrite fmt_d_nonneg in * by lia.
  assert (1 <= 18 <= 20)%nat as H18 by lia.
  pose proof (fmt_digits_length 20 18 n EmptyString H18 H) as Hl.
  assert (0 <= n < 10 ^ Z.of_nat 20) as H20 by (change (10 ^ Z.of_nat 20) with (100 * 10 ^ 18); lia).
  pose proof (atoi_loop_fmt_digits 20 n H20) as Ha.
  unfold Atoi. change (String.length EmptyString) with 0%nat in Hl.
  destruct (fmt_digits 20 n EmptyString) as [|c s] eqn:E;
    [cbn [String.length] in Hl; lia|].
  replace ((0 <? Z.of_nat (String.length (String c s))) &&
           (Z.of_nat (String.length (String c s)) <? 19)) with true
    by (symmetry; apply andb_true_iff; split; apply Z.ltb_lt; lia).
  simpl in Hd. apply andb_true_iff in Hd as [Hc _].
  assert (Ascii.eqb c "-" = false) as Hm.
  { destruct (Ascii.eqb_spec c "-") as [->|]; [discriminate Hc|reflexivity]. }
  assert (Ascii.eqb c "+" = false) as Hp.
  { destruct (Ascii.eqb_spec c "+") as [->|]; [discriminate Hc|reflexivity]. }
  rewrite Hm, Hp. simpl orb. cbv iota. rewrite Ha. reflexivity.
Qed.

Lemma digits_no_char x n :
  digit_of x = None -> 0 <= n -> all_chars (not_char x) (fmt_d n) = true.
Proof.
  intros Hx Hn. apply all_chars_weaken with (p := is_digit).
  - intros c. now apply digit_not_char.
  - now apply fmt_d_digits.
Qed.

(** What [getGroupSeqFromSSTFile] reads off a name made by [sstFile]. *)
Lemma parse_sstFile (g s : Z) :
  0 <= g -> 0 <= s <= GoInt.max_int32 ->
  getGroupSeqFromSSTFile (sstFile g s) = Some (0, s).
Proof.
  intros Hg Hs. unfold GoInt.max_int32 in Hs.
  unfold getGroupSeqFromSSTFile, sstFile.
  replace ("g" +:+ fmt_d g +:+ "_" +:+ fmt_d s +:+ ".sst")
    with (("g" +:+ fmt_d g +:+ "_" +:+ fmt_d s) +:+ ".sst")
    by (now rewrite !str_app_assoc).
  rewrite ReplaceAll_sst.
  - unfold Split.
    replace ("g" +:+ fmt_d g +:+ "_" +:+ fmt_d s)
      with (("g" +:+ fmt_d g) +:+ "_" +:+ fmt_d s)
      by (now rewrite !str_app_assoc).
    rewrite split_from_two.
    + cbn [lookup list_lookup]. rewrite str_app_nil.
      change ("g" +:+ fmt_d g) with (String "g" (fmt_d g)).
      rewrite Atoi_g, Atoi_fmt_d by lia. cbn [fst].
      rewrite int32_id by lia. reflexivity.
    + rewrite all_chars_app. rewrite digits_no_char by (reflexivity || lia).
      reflexivity.
    + apply digits_no_char; [reflexivity | lia].
  - rewrite !all_chars_app. rewrite !digits_no_char by (reflexivity || lia).
    reflexivity.
Qed.

(** C1 (as the code behaves).  The group field of a segment file name keeps
    its leading letter [g] when it is handed to [Atoi]; the conversion
    fails, the error is dropped, and every file name produced by [sstFile]
    is parsed as group 0 with the right sequence number.  The round trip
    therefore holds for group 0 only. *)
Theorem getGroupSeqFromSSTFile_sstFile (g s : Z) :
  0 <= g -> 0 <= s <= GoInt.max_int32 ->
  getGroupSeqFromSSTFile (sstFile g s) = Some (0, s) /\
  (getGroupSeqFromSSTFile (sstFile g s) = Some (g, s) <-> g = 0).
Proof.
  intros Hg Hs. rewrite parse_sstFile by assumption.
  split; [reflexivity|].
  split; [intros [= <-]; reflexivity | intros ->; reflexivity].
Qed.

Lemma getGroupSeqFromSSTFile_sstFile_witness :
  0 <= 1 /\ 0 <= 1 <= GoInt.max_int32 /\
  getGroupSeqFromSSTFile (sstFile 1 1) = Some (0, 1).
Proof.
  split; [lia|]. split; [unfold GoInt.max_int32; lia|].
  apply (getGroupSeqFromSSTFile_sstFile 1 1); unfold GoInt.max_int32; lia.
Defined.

(** The scan of [constructTree] over the names of two segments written
    for the groups 1 and 2: both land in group 0, and the group-id
    generator is seeded with 0. *)
Lemma recovered_groups_collapse :
  scan_sst_names [sstFile 1 1; sstFile 2 2] =
    Some {| groupFiles := {[ 0 := [sstFile 1 1; sstFile 2 2] ]};
            maxGroupID := 0; maxSSTSeq := 2 |}.
Proof. vm_compute. reflexivity. Qed.

End SegmentFileNames.

(** * The order on keys *)

Section KeyOrder.
Import Bytes.

Lemma compare_lex_refl a : compare_lex a a = Eq.
Proof.
  induction a as [|x a IH]; simpl; [reflexivity|].
  now rewrite Z.compare_refl.
Qed.

Lemma byte_val_inj x y : byte_val x = byte_val y -> x = y.
Proof.
  unfold byte_val. intros H. apply N2Z.inj in H.
  pose proof (Byte.of_to_N x) as Hx. pose proof (Byte.of_to_N y) as Hy.
  rewrite H in Hx. rewrite Hx in Hy. now injection Hy.
Qed.

Lemma compare_lex_eq a : forall b, compare_lex a b = Eq <-> a = b.
Proof.
  induction a as [|x a IH]; intros [|y b]; simpl; try (split; congruence).
  destruct (byte_val x ?= byte_val y) eqn:E.
  - apply Z.compare_eq in E. apply byte_val_inj in E. subst y.
    rewrite IH. split; congruence.
  - split; [discriminate|]. intros [= -> _]. now rewrite Z.compare_refl in E.
  - split; [discriminate|]. intros [= -> _]. now rewrite Z.compare_refl in E.
Qed.

Lemma compare_lex_antisym a : forall b, compare_lex b a = CompOpp (compare_lex a b).
Proof.
  induction a as [|x a IH]; intros [|y b]; simpl; try reflexivity.
  rewrite (Z.compare_antisym (byte_val x) (byte_val y)).
  destruct (byte_val x ?= byte_val y); simpl; auto.
Qed.

Lemma compare_lex_lt_trans a : forall b c,
  compare_lex a b = Lt -> compare_lex b c = Lt -> compare_lex a c = Lt.
Proof.
  induction a as [|x a IH]; intros [|y b] [|z c]; simpl; try congruence.
  destruct (byte_val x ?= byte_val y) eqn:Exy; try discriminate;
    destruct (byte_val y ?= byte_val z) eqn:Eyz; try discriminate; intros H1 H2.
  - apply Z.compare_eq in Exy, Eyz.
    replace (byte_val x ?= byte_val z) with Eq by (symmetry; apply Z.compare_eq_iff; lia).
    eauto.
  - apply Z.compare_eq in Exy. rewrite Exy, Eyz. reflexivity.
  - apply Z.compare_eq in Eyz. rewrite <- Eyz, Exy. reflexivity.
  - rewrite Z.compare_lt_iff in Exy, Eyz.
    replace (byte_val x ?= byte_val z) with Lt by (symmetry; apply Z.compare_lt_iff; lia).
    reflexivity.
Qed.

Lemma Compare_refl a : Compare a a = 0.
Proof. unfold Compare. now rewrite compare_lex_refl. Qed.

Lemma Compare_eq a b : Compare a b = 0 <-> a = b.
Proof.
  unfold Compare. rewrite <- compare_lex_eq.
  destruct (compare_lex a b); split; congruence || lia.
Qed.

Lemma Compare_antisym a b : Compare b a = - Compare a b.
Proof.
  unfold Compare. rewrite (compare_lex_antisym a b).
  destruct (compare_lex a b); reflexivity.
Qed.

Lemma Compare_range a b : Compare a b = -1 \/ Compare a b = 0 \/ Compare a b = 1.
Proof. unfold Compare. destruct (compare_lex a b); auto. Qed.

Lemma lt_trans a b c : lt a b -> lt b c -> lt a c.
Proof.
  unfold lt, Compare. intros H1 H2.
  destruct (compare_lex a b) eqn:E1; try lia.
  destruct (compare_lex b c) eqn:E2; try lia.
  now rewrite (compare_lex_lt_trans a b c E1 E2).
Qed.

Lemma le_lteq a b : le a b <-> lt a b \/ a = b.
Proof.
  unfold le, lt. rewrite <- Compare_eq.
  destruct (Compare_range a b) as [H|[H|H]]; rewrite H; lia.
Qed.

Lemma le_refl a : le a a.
Proof. unfold le. rewrite Compare_refl. lia. Qed.

Lemma le_trans a b c : le a b -> le b c -> le a c.
Proof.
  rewrite !le_lteq. intros [H1| ->] [H2| ->]; auto.
  left. eapply lt_trans; eauto.
Qed.

Lemma lt_le_trans a b c : lt a b -> le b c -> lt a c.
Proof.
  rewrite le_lteq. intros H1 [H2| ->]; auto. eapply lt_trans; eauto.
Qed.

Lemma le_lt_trans a b c : le a b -> lt b c -> lt a c.
Proof.
  rewrite le_lteq. intros [H1| ->] H2; auto. eapply lt_trans; eauto.
Qed.

Lemma lt_irrefl a : lt a a -> False.
Proof. unfold lt. rewrite Compare_refl. lia. Qed.

Lemma not_lt_le a b : ~ lt a b <-> le b a.
Proof.
  unfold lt, le. rewrite (Compare_antisym a b).
  destruct (Compare_range a b) as [H|[H|H]]; rewrite H; lia.
Qed.

Lemma le_antisym a b : le a b -> le b a -> a = b.
Proof.
  unfold le. rewrite (Compare_antisym a b). intros H1 H2.
  apply Compare_eq. lia.
Qed.

Lemma le_total a b : le a b \/ le b a.
Proof.
  unfold le. rewrite (Compare_antisym a b).
  destruct (Compare_range a b) as [H|[H|H]]; rewrite H; lia.
Qed.

Lemma nil_lt a : a <> [] -> lt [] a.
Proof. destruct a; [congruence|]. intros _. unfold lt, Compare. simpl. lia. Qed.

Lemma Equal_true a b : Equal a b = true <-> a = b.
Proof. unfold Equal. rewrite Z.eqb_eq. apply Compare_eq. Qed.

End KeyOrder.

(** * The separator between two blocks *)

Section Separator.
Import GoInt Bytes util.

(** For a non-empty [a] the separator is [a], which lies in [a <= x < b]. *)
Lemma GetSeparatorBetween_nonempty a b :
  a <> [] -> lt a b ->
  GetSeparatorBetween a b = a /\
  le a (GetSeparatorBetween a b) /\ lt (GetSeparatorBetween a b) b.
Proof.
  intros Ha Hab. unfold GetSeparatorBetween, len.
  destruct a as [|x a]; [congruence|]. simpl length.
  destruct (Z.of_nat (S (length a)) =? 0) eqn:E; [apply Z.eqb_eq in E; lia|].
  split; [reflexivity|]. split; [apply le_refl | exact Hab].
Qed.

(** C9 (as the code behaves).  With an empty [a] the function hands back
    [b] itself: the result equals the upper bound, so it is not below it. *)
Theorem GetSeparatorBetween_empty (b : bytes) :
  b <> [] ->
  lt [] b /\ GetSeparatorBetween [] b = b /\ Compare (GetSeparatorBetween [] b) b = 0.
Proof.
  intros Hb. split; [now apply nil_lt|].
  split; [reflexivity|]. apply Compare_refl.
Qed.

Lemma GetSeparatorBetween_empty_witness :
  lt [] (of_string "b") /\
  GetSeparatorBetween [] (of_string "b") = of_string "b" /\
  Compare (GetSeparatorBetween [] (of_string "b")) (of_string "b") = 0.
Proof. apply (GetSeparatorBetween_empty (of_string "b")). discriminate. Defined.

End Separator.

(** * Groups: the aggregate range and the removal of a node *)

Section GroupRange.
Import GoInt Bytes Types SST Grp GroupSpec.

Lemma widen_fold nodes : forall s0 e0,
  let r := fold_left widen nodes (s0, e0) in
  (r.1 = s0 \/ In r.1 (map Start nodes)) /\
  le r.1 s0 /\ (forall n, In n nodes -> le r.1 (Start n)) /\
  (r.2 = e0 \/ In r.2 (map End_ nodes)) /\
  le e0 r.2 /\ (forall n, In n nodes -> le (End_ n) r.2).
Proof.
  induction nodes as [|x nodes IH]; intros s0 e0; cbn zeta.
  - simpl. repeat split; auto using le_refl; intros n [].
  - cbn [fold_left]. unfold widen at 2 4 6 8 10 12. cbn [fst snd].
    set (s1 := if Compare (Start x) s0 <? 0 then Start x else s0).
    set (e1 := if 0 <? Compare (End_ x) e0 then End_ x else e0).
    destruct (IH s1 e1) as (Hs & Hs0 & Hsall & He & He0 & Heall).
    assert (le s1 s0 /\ le s1 (Start x) /\ (s1 = s0 \/ s1 = Start x)) as (A1 & A2 & A3).
    { subst s1. destruct (Compare (Start x) s0 <? 0) eqn:E.
      - apply Z.ltb_lt in E. repeat split; auto using le_refl.
        unfold le. lia.
      - apply Z.ltb_ge in E. repeat split; auto using le_refl.
        unfold le. rewrite Compare_antisym. lia. }
    assert (le e0 e1 /\ le (End_ x) e1 /\ (e1 = e0 \/ e1 = End_ x)) as (B1 & B2 & B3).
    { subst e1. destruct (0 <? Compare (End_ x) e0) eqn:E.
      - apply Z.ltb_lt in E. repeat split; auto using le_refl.
        unfold le. rewrite Compare_antisym. lia.
      - apply Z.ltb_ge in E. repeat split; auto using le_refl. }
    repeat split.
    + destruct Hs as [Hs|Hs].
      * rewrite Hs. destruct A3 as [->| ->]; [now left | right; now left].
      * right; now right.
    + eapply le_trans; eauto.
    + intros n [<-|Hn]; [eapply le_trans; eauto|auto].
    + destruct He as [He|He].
      * rewrite He. destruct B3 as [->| ->]; [now left | right; now left].
      * right; now right.
    + eapply le_trans; eauto.
    + intros n [<-|Hn]; [eapply le_trans; eauto|auto].
Qed.

(** [updateKeyRange] leaves the aggregate range of the nodes. *)
Lemma key_range_is_range nodes :
  is_range nodes (key_range nodes).1 (key_range nodes).2.
Proof.
  destruct nodes as [|x nodes]; [now split|].
  unfold is_range, key_range.
  pose proof (widen_fold (x :: nodes) (Start x) (End_ x)) as H. cbn zeta in H.
  set (r := fold_left widen (x :: nodes) (Start x, End_ x)) in *.
  destruct H as (Hs & _ & Hsall & He & _ & Heall).
  exists r.1, r.2. cbn [fst snd]. repeat split; auto.
  - destruct Hs as [->|Hs]; [now left | exact Hs].
  - destruct He as [->|He]; [now left | exact He].
Qed.

End GroupRange.

Section RemoveNodeFacts.
Import GoInt Bytes Types SST Grp GroupSpec.

Lemma RemoveNode_loop_absent g node rest : forall i,
  Forall (fun n => same_node n node = false) rest ->
  RemoveNode_loop g node i rest = (g, false).
Proof.
  induction rest as [|n rest IH]; intros i H; [reflexivity|].
  inversion H as [|? ? Hn Hrest]; subst. simpl. rewrite Hn. now apply IH.
Qed.

Lemma RemoveNode_loop_present g node before : forall visited i m after,
  g_nodes g = visited ++ before ++ m :: after ->
  i = length visited ->
  Forall (fun n => same_node n node = false) before ->
  same_node m node = true ->
  RemoveNode_loop g node i (before ++ m :: after) =
    (without g node (visited ++ before ++ after), true).
Proof.
  induction before as [|n before IH]; intros visited i m after Hg Hi Hb Hm.
  - simpl. rewrite Hm. unfold updateKeyRange, without. cbn [g_nodes g_id g_conf g_size].
    rewrite Hg. simpl app. subst i.
    rewrite take_app_length.
    replace (drop (S (length visited)) (visited ++ m :: after)) with after.
    + reflexivity.
    + change (m :: after) with ([m] ++ after). rewrite app_assoc.
      replace (S (length visited)) with (length (visited ++ [m]))
        by (rewrite length_app; simpl; lia).
      now rewrite drop_app_length.
  - inversion Hb as [|? ? Hn Hrest]; subst. simpl. rewrite Hn.
    specialize (IH (visited ++ [n]) (S (length visited)) m after).
    rewrite <- !app_assoc in IH. simpl in IH.
    rewrite IH; auto. rewrite length_app. simpl. lia.
Qed.

(** C10.  [RemoveNode] compares addresses.  When no node of the group is
    the argument it answers false and the group is left as it was.
    Otherwise it answers true and drops the first node that is the
    argument: the other nodes keep their order, the size of the argument is
    subtracted from the size of the group, and the range is recomputed from
    the remaining nodes (nil and nil when none remains). *)
Theorem RemoveNode_spec (g : Group) (node : Node) :
  (Forall (fun n => same_node n node = false) (g_nodes g) ->
   RemoveNode g node = (g, false)) /\
  (forall before m after,
     g_nodes g = before ++ m :: after ->
     Forall (fun n => same_node n node = false) before ->
     same_node m node = true ->
     let g' := (RemoveNode g node).1 in
     (RemoveNode g node).2 = true /\
     g_nodes g' = before ++ after /\
     g_size g' = uint64 (g_size g - n_size node) /\
     is_range (before ++ after) (g_startKey g') (g_endKey g') /\
     g_id g' = g_id g /\ g_conf g' = g_conf g).
Proof.
  split.
  - intros H. now apply RemoveNode_loop_absent.
  - intros before m after Hg Hb Hm. cbn zeta. unfold RemoveNode.
    rewrite Hg.
    rewrite (RemoveNode_loop_present g node before [] 0%nat m after Hg eq_refl Hb Hm).
    cbn [fst snd app without g_nodes g_size g_startKey g_endKey g_id g_conf].
    repeat split; try reflexivity. apply key_range_is_range.
Qed.

End RemoveNodeFacts.

(** * Segment handles: the point lookup *)

Section NodeLookup.
Import GoInt Bytes Types SST NodeSpec.

Lemma at_index_Some {A} (l : list A) i x :
  at_index l i = Some x <-> 0 <= i /\ l !! Z.to_nat i = Some x.
Proof.
  unfold at_index. destruct (i <? 0) eqn:E.
  - apply Z.ltb_lt in E. split; [discriminate | lia].
  - apply Z.ltb_ge in E. tauto.
Qed.

Lemma at_index_in_range {A} (l : list A) i :
  0 <= i < len l -> exists x, at_index l i = Some x.
Proof.
  unfold len. intros Hi.
  destruct (lookup_lt_is_Some_2 l (Z.to_nat i)) as [x Hx]; [lia|].
  exists x. apply at_index_Some. split; [lia | exact Hx].
Qed.

Lemma midpoint start end_ :
  0 <= start -> start < end_ -> end_ <= max_int ->
  let mid := GoInt.int (start + Z.shiftr (GoInt.int (end_ - start)) 1) in
  start <= mid < end_ /\ GoInt.int (mid + 1) = mid + 1.
Proof.
  unfold max_int. intros H0 Hlt Hmax. cbn zeta.
  rewrite (int_id (end_ - start)) by lia.
  rewrite Z.shiftr_div_pow2 by lia. change (2 ^ 1) with 2.
  assert (0 <= (end_ - start) / 2 < end_ - start).
  { split; [apply Z.div_pos; lia | apply Z.div_lt; lia]. }
  rewrite int_id by lia. split; [lia|]. apply int_id. lia.
Qed.

Section Search.
Variable n : Node.
Variable key : bytes.
Hypothesis Hlen : len (n_index n) <= max_int.
Hypothesis Hasc : index_ascending n.

(** Entries at or to the left of an entry that does not cover the key do
    not cover it either. *)
Lemma covers_monotone i j a b :
  0 <= i <= j -> at_index (n_index n) i = Some a -> at_index (n_index n) j = Some b ->
  covers key b = false -> covers key a = false.
Proof.
  intros Hij Ha Hb Hc. apply at_index_Some in Ha as [_ Ha], Hb as [_ Hb].
  assert (le (Index_Key a) (Index_Key b)) as Hle
    by (eapply (Hasc (Z.to_nat i) (Z.to_nat j)); eauto; lia).
  unfold covers in *. apply Z.leb_gt in Hc. apply Z.leb_gt.
  apply (le_lt_trans _ _ _ Hle). exact Hc.
Qed.

(** The binary search returns the leftmost entry of [start..end] that
    covers the key, and the last entry with [false] when none does. *)
Lemma binarySearchIndex_rec_spec steps : forall start end_,
  0 <= start <= end_ -> end_ < len (n_index n) ->
  end_ - start < Z.of_nat steps ->
  exists i e,
    start <= i <= end_ /\ at_index (n_index n) i = Some e /\
    binarySearchIndex_rec steps n key start end_ = Some (e, covers key e) /\
    (forall j e', start <= j < i -> at_index (n_index n) j = Some e' -> covers key e' = false) /\
    (covers key e = false -> i = end_).
Proof.
  induction steps as [|steps IH]; intros start end_ Hse Hend Hsteps; [lia|].
  cbn [binarySearchIndex_rec].
  destruct (start =? end_) eqn:E.
  - apply Z.eqb_eq in E. subst end_.
    destruct (at_index_in_range (n_index n) start ltac:(lia)) as [e He].
    exists start, e. rewrite He. cbn. repeat split; try lia; auto.
  - apply Z.eqb_neq in E.
    destruct (midpoint start end_ ltac:(lia) ltac:(lia) ltac:(lia)) as [Hmid Hsucc].
    set (mid := GoInt.int (start + Z.shiftr (GoInt.int (end_ - start)) 1)) in *.
    destruct (at_index_in_range (n_index n) mid ltac:(lia)) as [em Hem].
    rewrite Hem. cbn [mbind option_bind].
    destruct (Compare (Index_Key em) key <? 0) eqn:Ecmp.
    + rewrite Hsucc.
      destruct (IH (mid + 1) end_ ltac:(lia) Hend ltac:(lia))
        as (i & e & Hi & He & Hres & Hleft & Hnone).
      exists i, e. repeat split; try lia; auto.
      intros j e' Hj He'.
      destruct (Z_lt_le_dec j (mid + 1)) as [Hjm|Hjm]; [|apply (Hleft j); [lia|exact He']].
      apply (covers_monotone j mid e' em); [lia|exact He'|exact Hem|].
      unfold covers. apply Z.leb_gt. now apply Z.ltb_lt in Ecmp.
    + destruct (IH start mid ltac:(lia) ltac:(lia) ltac:(lia))
        as (i & e & Hi & He & Hres & Hleft & Hnone).
      exists i, e. repeat split; try lia; auto.
      intros Hc. specialize (Hnone Hc). subst i.
      rewrite Hem in He. injection He as <-.
      unfold covers in Hc. apply Z.leb_gt in Hc. apply Z.ltb_ge in Ecmp. lia.
Qed.

End Search.

Lemma find_first {A} (p : A -> bool) (l : list A) : forall i x,
  l !! i = Some x -> p x = true ->
  (forall j y, (j < i)%nat -> l !! j = Some y -> p y = false) ->
  find p l = Some x.
Proof.
  induction l as [|a l IH]; intros [|i] x Hx Hp Hleft; try discriminate.
  - injection Hx as ->. simpl. now rewrite Hp.
  - simpl. rewrite (Hleft 0%nat a) by (lia || reflexivity).
    apply (IH i); auto. intros j y Hj Hy. apply (Hleft (S j)); [lia|exact Hy].
Qed.

Lemma find_none {A} (p : A -> bool) (l : list A) :
  (forall j y, l !! j = Some y -> p y = false) -> find p l = None.
Proof.
  induction l as [|a l IH]; intros H; [reflexivity|].
  simpl. rewrite (H 0%nat a) by reflexivity.
  apply IH. intros j y Hy. apply (H (S j)). exact Hy.
Qed.

Lemma scan_block_find kvs key :
  scan_block kvs key =
  match find (has_key key) kvs with Some kv => hit (KV_Value kv) | None => miss end.
Proof.
  induction kvs as [|kv kvs IH]; [reflexivity|].
  simpl. unfold has_key at 1. destruct (Equal (KV_Key kv) key); [reflexivity|exact IH].
Qed.

(** C5.  A handle built by [NewNode] over an index with ascending keys
    answers a lookup for [key] as follows: a miss when [key] lies outside
    [startKey..endKey]; otherwise the first index entry whose key is
    [>= key] is the candidate (a miss when there is none); a miss when the
    filter bitmap recorded for the candidate block rejects the key; a read
    or decode error is handed on; otherwise the value of the pair of the
    decoded block whose key equals [key], and a miss when the block has no
    such pair. *)
Theorem Node_Get_spec addr conf file reader groupID seq size blockToFilter index
    (n : Node) (key : bytes) :
  NewNode addr conf file reader groupID seq size blockToFilter index = Some n ->
  len index <= max_int ->
  index_ascending n ->
  Node_Get n key =
    Some (if (Compare key (n_startKey n) <? 0) || (0 <? Compare key (n_endKey n))
          then miss
          else match find (covers key) (n_index n) with
               | None => miss
               | Some e => probe_block n key e
               end).
Proof.
  intros Hnew Hlen Hasc. unfold NewNode in Hnew.
  destruct (at_index index 0) as [first|] eqn:Hfirst; [|discriminate].
  destruct (at_index index (len index - 1)) as [final|] eqn:Hfinal; [|discriminate].
  cbn in Hnew. injection Hnew as <-.
  unfold Node_Get. cbn [n_startKey n_endKey n_index n_conf n_blockToFilter n_sstReader].
  destruct ((Compare key (Index_Key first) <? 0) || (0 <? Compare key (Index_Key final)))
    eqn:Erange; [reflexivity|].
  assert (0 < len index) as Hpos.
  { apply at_index_Some in Hfirst as [_ H]. apply lookup_lt_Some in H. unfold len. lia. }
  unfold binarySearchIndex. cbn [n_index].
  match type of Hasc with index_ascending ?node => set (n := node) in * end.
  pose proof (binarySearchIndex_rec_spec n key Hlen Hasc (S (length index)) 0 (len index - 1))
    as Hsearch.
  cbn [n_index n] in Hsearch.
  destruct Hsearch as (i & e & Hi & He & Hres & Hleft & Hnone); try (unfold len in *; lia).
  rewrite Hres. cbn [mbind option_bind].
  destruct (covers key e) eqn:Hc.
  - apply at_index_Some in He as [Hi0 He].
    rewrite (find_first (covers key) index (Z.to_nat i) e He Hc).
    + cbn [negb]. unfold probe_block.
      cbn [n_conf n_blockToFilter n_sstReader].
      destruct (Exist _ _ _); [|reflexivity]. cbn [negb].
      destruct (ReadBlock _ _ _); [|reflexivity].
      destruct (ReadBlockData _ _); [|reflexivity].
      now rewrite scan_block_find.
    + intros j y Hj Hy. apply (Hleft (Z.of_nat j)); [lia|].
      apply at_index_Some. split; [lia|]. now rewrite Nat2Z.id.
  - cbn [negb]. rewrite find_none; [reflexivity|].
    intros j y Hy. specialize (Hnone eq_refl). subst i.
    pose proof (lookup_lt_Some _ _ _ Hy) as Hj.
    refine (covers_monotone n key Hasc (Z.of_nat j) (len index - 1) y e _ _ He Hc).
    + unfold len. lia.
    + apply at_index_Some. split; [lia|]. now rewrite Nat2Z.id.
Qed.

End NodeLookup.

(** * Reads: the order of the probes *)

Section ProbeOrder.
Import GoInt Bytes Types SST Grp Engine EngineSpec.

(** A loop [for i := k - 1; i >= 0; i--] over a slice visits the first [k]
    elements from the last to the first. *)
Lemma rev_take_S {A} (l : list A) i x :
  l !! i = Some x -> rev (take (S i) l) = x :: rev (take i l).
Proof.
  intros Hx. rewrite (take_S_r l i x Hx). rewrite rev_app_distr. reflexivity.
Qed.

Lemma Group_Get_loop_probes nodes key : forall k,
  (k <= length nodes)%nat ->
  Group_Get_loop nodes key k =
  first_decisive (map (fun n => Node_Get n key) (rev (take k nodes))).
Proof.
  induction k as [|i IH]; intros Hk; [reflexivity|].
  destruct (lookup_lt_is_Some_2 nodes i ltac:(lia)) as [node Hnode].
  rewrite (rev_take_S nodes i node Hnode). cbn [Group_Get_loop map first_decisive].
  rewrite Hnode. cbn [mbind option_bind].
  destruct (Node_Get node key) as [[[value ok] [err|]]|]; cbn [mbind option_bind]; try reflexivity.
  destruct ok; [reflexivity|]. apply IH. lia.
Qed.

(** X1.  [Group.Get] probes the nodes of the group from the last of [g.nodes]
    to the first, once the key is inside the aggregate range. *)
Lemma Group_Get_probes g key :
  Group_Get g key =
  if keyInRange g key
  then first_decisive (map (fun n => Node_Get n key) (rev (g_nodes g)))
  else Some miss.
Proof.
  unfold Group_Get. destruct (keyInRange g key); [|reflexivity]. cbn [negb].
  rewrite Group_Get_loop_probes by lia. now rewrite firstn_all.
Qed.

Section WithMemTable.
Context {M : Type} `{MemTable M}.

Lemma rOnly_loop_probes items key : forall k,
  (k <= length items)%nat ->
  forall rest,
  match rOnly_loop items key k with
  | Some (Some value) => Some (hit value)
  | Some None => first_decisive rest
  | None => None
  end =
  first_decisive
    (map (fun item => mem_probe key (item_memTable item)) (rev (take k items)) ++ rest).
Proof.
  induction k as [|i IH]; intros Hk rest; [reflexivity|].
  destruct (lookup_lt_is_Some_2 items i ltac:(lia)) as [item Hitem].
  rewrite (rev_take_S items i item Hitem). cbn [rOnly_loop map app first_decisive].
  rewrite Hitem. cbn [mbind option_bind]. unfold mem_probe at 1.
  destruct (mt_Get (mt_state (item_memTable item)) key) as [value ok].
  destruct ok; [reflexivity|]. cbn [miss]. apply IH. lia.
Qed.

Lemma groups_loop_probes groups key : forall k,
  (k <= length groups)%nat ->
  groups_loop groups key k =
  first_decisive (map (fun g => Group_Get g key) (rev (take k groups))).
Proof.
  induction k as [|i IH]; intros Hk; [reflexivity|].
  destruct (lookup_lt_is_Some_2 groups i ltac:(lia)) as [group Hgroup].
  rewrite (rev_take_S groups i group Hgroup). cbn [groups_loop map first_decisive].
  rewrite Hgroup. cbn [mbind option_bind].
  destruct (Group_Get group key) as [[[value ok] [err|]]|]; cbn [mbind option_bind]; try reflexivity.
  destruct ok; [reflexivity|]. apply IH. lia.
Qed.

(** C2 (amended).  [Tree.Get] probes the active memtable, then the
    read-only memtables from the newest to the oldest, then the groups from
    the last of [t.groups] to the first, each through [Group.Get].  The
    first probe that does not miss decides: a hit is returned as
    [(value, true, nil)], an error of a group as [(nil, false, err)]; when
    every probe misses the answer is [(nil, false, nil)]. *)
Theorem Tree_Get_probes (t : Tree) (key : bytes) :
  Tree_Get t key = first_decisive (probes t key).
Proof.
  unfold Tree_Get, probes. cbn [first_decisive]. unfold mem_probe at 1.
  destruct (mt_Get (mt_state (t_memTable t)) key) as [value ok].
  destruct ok; [reflexivity|]. cbn [miss].
  pose proof (rOnly_loop_probes (t_rOnlyMemTable t) key (length (t_rOnlyMemTable t))
                ltac:(lia) (map (fun g => Group_Get g key) (rev (t_groups t)))) as Hr.
  rewrite firstn_all in Hr. rewrite <- Hr.
  destruct (rOnly_loop _ _ _) as [[v|]|]; cbn [mbind option_bind]; try reflexivity.
  rewrite groups_loop_probes by lia. now rewrite firstn_all.
Qed.

End WithMemTable.

End ProbeOrder.

(** * Writes: the rotation of the active memtable *)

Section Writes.
Import GoInt GoString Bytes Types SST Grp Engine EngineSpec.
Context {M : Type} `{MemTable M}.

(** Without overflow the test of [Put] compares [size * 5 / 4], in integer
    arithmetic, with [GroupSSTSize]. *)
Lemma below_threshold_spec conf size :
  0 <= size -> size * 5 <= max_int ->
  below_threshold conf size = (size * 5 / 4 <=? GroupSSTSize conf).
Proof.
  unfold max_int. intros H0 H5. unfold below_threshold.
  rewrite int_id by lia. rewrite Z.quot_div_nonneg by lia.
  rewrite uint64_id; [reflexivity|].
  split; [apply Z.div_pos; lia|].
  apply Z.div_lt_upper_bound; lia.
Qed.

(** C3.  After a successful append to the log, [Put] inserts the pair into
    the active memtable and rotates exactly when the size of the table,
    times 5/4 in integer arithmetic, exceeds [GroupSSTSize].  A rotation
    appends the frozen table with the path of its log to the read-only
    queue and hands the same item to the compactor, adds one to
    [memTableIndex], and installs the memtable of the constructor with a
    new log writer on [{memTableIndex}.wal].  Without rotation the active
    memtable stays in place and gains the pair; the queue, the channel and
    [memTableIndex] are unchanged. *)
Theorem Put_rotation (t : Tree) (key value : bytes) :
  let inserted := mt_Put key value (mt_state (t_memTable t)) in
  let frozen :=
    {| item_walFile := walFile t;
       item_memTable := {| mt_addr := mt_addr (t_memTable t); mt_state := inserted |} |} in
  let t' := (Put t key value None).1 in
  0 <= mt_Size inserted -> mt_Size inserted * 5 <= max_int ->
  0 <= t_memTableIndex t < max_int ->
  (Put t key value None).2 = None /\
  if GroupSSTSize (t_conf t) <? mt_Size inserted * 5 / 4
  then
    t_rOnlyMemTable t' = t_rOnlyMemTable t ++ [frozen] /\
    t_memCompactC t' = t_memCompactC t ++ [frozen] /\
    t_memTableIndex t' = t_memTableIndex t + 1 /\
    mt_state (t_memTable t') = MemTableConstructor /\
    mt_addr (t_memTable t') = t_next_addr t /\
    t_walWriter t' =
      NewWALWriter (path_Join [Dir (t_conf t); "walfile"%string;
                               fmt_d (t_memTableIndex t + 1) +:+ ".wal"]) /\
    t_groups t' = t_groups t
  else
    t_memTable t' = item_memTable frozen /\
    t_rOnlyMemTable t' = t_rOnlyMemTable t /\
    t_memCompactC t' = t_memCompactC t /\
    t_memTableIndex t' = t_memTableIndex t /\
    wal_file (t_walWriter t') = wal_file (t_walWriter t) /\
    t_groups t' = t_groups t.
Proof.
  cbn zeta. intros Hsize Hsize5 Hidx. unfold max_int in Hidx.
  unfold Put, WALWriter_Write.
  cbn [set_walWriter set_memTable t_memTable t_conf mt_state mt_addr].
  rewrite below_threshold_spec by assumption.
  destruct (GroupSSTSize (t_conf t) <? _) eqn:E.
  - apply Z.ltb_lt in E.
    replace (_ <=? GroupSSTSize (t_conf t)) with false by (symmetry; apply Z.leb_gt; lia).
    cbn [fst snd]. split; [reflexivity|].
    unfold refreshMemTableLocked, newMemTable, walFile.
    cbn. rewrite int_id by lia. repeat split; reflexivity.
  - apply Z.ltb_ge in E.
    replace (_ <=? GroupSSTSize (t_conf t)) with true by (symmetry; apply Z.leb_le; lia).
    cbn. repeat split; reflexivity.
Qed.

(** C4.  When the append to the log fails, [Put] returns the error of the
    append and leaves the engine as it was: nothing is inserted, nothing is
    rotated, the counter and the queue keep their values. *)
Theorem Put_wal_failure (t : Tree) (key value : bytes) (err : error) :
  let t' := (Put t key value (Some err)).1 in
  (Put t key value (Some err)).2 = Some err /\
  t_memTable t' = t_memTable t /\
  t_rOnlyMemTable t' = t_rOnlyMemTable t /\
  t_memCompactC t' = t_memCompactC t /\
  t_memTableIndex t' = t_memTableIndex t /\
  t_walWriter t' = t_walWriter t /\
  t' = t.
Proof.
  cbn zeta. unfold Put, WALWriter_Write. cbn [fst snd].
  repeat split; reflexivity.
Qed.

End Writes.

(** * Routing of a flushed segment to a group *)

Section Routing.
Import GoInt GoString Bytes Types SST Grp GroupSpec Engine EngineSpec.

(** On a group whose range was left by [updateKeyRange], the test of the
    loop is the routing rule. *)
Lemma accepts_routes_to conf g startKey endKey :
  group_wf g ->
  accepts conf g startKey endKey = true <-> routes_to conf g startKey endKey.
Proof.
  unfold group_wf, is_range, accepts, routes_to. intros Hwf.
  rewrite andb_true_iff, Z.ltb_lt.
  destruct (g_nodes g) as [|n nodes] eqn:Hn.
  - destruct Hwf as [-> ->]. split; intros [H1 _]; split; auto.
  - destruct Hwf as (s & e & -> & -> & _).
    rewrite negb_true_iff, orb_false_iff, Z.ltb_ge, Z.ltb_ge.
    unfold lt. rewrite (Compare_antisym e startKey).
    split.
    + intros [H1 [H2 H3]]. split; [exact H1|]. right. exists s, e.
      repeat split; auto. lia.
    + intros [H1 [H2|(s' & e' & [= <-] & [= <-] & H2)]]; [discriminate|].
      split; [exact H1|]. lia.
Qed.

Lemma first_accepting_Some conf startKey endKey groups : forall base i,
  first_accepting conf startKey endKey base groups = Some i <->
  exists g, (base <= i)%nat /\ groups !! (i - base)%nat = Some g /\
            accepts conf g startKey endKey = true /\
            forall j g', (j < i - base)%nat -> groups !! j = Some g' ->
                         accepts conf g' startKey endKey = false.
Proof.
  induction groups as [|g groups IH]; intros base i; cbn [first_accepting].
  - split; [discriminate|]. intros (g & _ & Hg & _). discriminate.
  - destruct (accepts conf g startKey endKey) eqn:E.
    + split.
      * intros [= <-]. exists g. rewrite Nat.sub_diag. repeat split; auto. intros j g' Hj. lia.
      * intros (g0 & Hb & Hg0 & Ha & Hleft).
        destruct (i - base)%nat as [|k] eqn:Ek; [f_equal; lia|].
        rewrite (Hleft 0%nat g) in E by (lia || reflexivity). discriminate.
    + rewrite IH. split.
      * intros (g0 & Hb & Hg0 & Ha & Hleft). exists g0.
        replace (i - base)%nat with (S (i - S base)) by lia.
        repeat split; auto; [lia|].
        intros [|j] g' Hj Hg'; [injection Hg' as <-; exact E|].
        apply (Hleft j); [lia|exact Hg'].
      * intros (g0 & Hb & Hg0 & Ha & Hleft).
        destruct (i - base)%nat as [|k] eqn:Ek.
        { injection Hg0 as <-. rewrite Ha in E. discriminate. }
        exists g0. replace (i - S base)%nat with k by lia.
        repeat split; auto; [lia|].
        intros j g' Hj Hg'. apply (Hleft (S j)); [lia|exact Hg'].
Qed.

Lemma first_accepting_None conf startKey endKey groups : forall base,
  first_accepting conf startKey endKey base groups = None <->
  Forall (fun g => accepts conf g startKey endKey = false) groups.
Proof.
  induction groups as [|g groups IH]; intros base; cbn [first_accepting].
  - split; auto.
  - destruct (accepts conf g startKey endKey) eqn:E.
    + split; [discriminate|]. intros Hall. inversion Hall; congruence.
    + rewrite IH. split; [intros; constructor; auto|]. intros Hall. now inversion Hall.
Qed.

Section WithMemTable.
Context {M : Type} `{MemTable M}.

(** C7.  [findOrCreateGroup] returns the first group of [t.groups] that
    has fewer than [GroupSize] segments and is empty or overlaps
    [startKey..endKey].  When no group qualifies and there are fewer than
    [MaxGroups] groups, and [make] does not panic on [GroupSize], it
    advances the group-id generator by one, appends one group and returns
    it: the group carries the new value of the generator as its id, has no
    segment, no range and size 0, and shares the configuration of the
    tree; nothing else in the tree changes.  The id is the old value of
    the generator plus one and differs from the id of every other group,
    provided the generator was an upper bound of the ids in use and an
    [int32] below the largest.  When no group qualifies and there is no room
    for another group, it returns the last group of the list. *)
Theorem findOrCreateGroup_spec (t : @Tree M) (startKey endKey : bytes) :
  Forall group_wf (t_groups t) ->
  0 < MaxGroups (t_conf t) ->
  (forall i g,
     t_groups t !! i = Some g ->
     routes_to (t_conf t) g startKey endKey ->
     (forall j g', (j < i)%nat -> t_groups t !! j = Some g' ->
                   ~ routes_to (t_conf t) g' startKey endKey) ->
     findOrCreateGroup t startKey endKey = (t, i)) /\
  (Forall (fun g => ~ routes_to (t_conf t) g startKey endKey) (t_groups t) ->
   if len (t_groups t) <? MaxGroups (t_conf t)
   then
     make_ok (GroupSize (t_conf t)) = true ->
     exists t' g,
       findOrCreateGroup t startKey endKey = (t', length (t_groups t)) /\
       t_groups t' = t_groups t ++ [g] /\
       t_groups t' !! length (t_groups t) = Some g /\
       g_id g = GoInt.int32 (t_groupSeq t + 1) /\
       t_groupSeq t' = g_id g /\
       g_nodes g = [] /\ g_startKey g = None /\ g_endKey g = None /\ g_size g = 0 /\
       g_conf g = t_conf t /\
       (t_conf t' = t_conf t /\ t_memTable t' = t_memTable t /\
        t_rOnlyMemTable t' = t_rOnlyMemTable t /\ t_walWriter t' = t_walWriter t /\
        t_memCompactC t' = t_memCompactC t /\ t_groupCompactC t' = t_groupCompactC t /\
        t_memTableIndex t' = t_memTableIndex t /\ t_sstSeq t' = t_sstSeq t /\
        t_next_addr t' = t_next_addr t) /\
       (Forall (fun g0 => g_id g0 <= t_groupSeq t) (t_groups t) ->
        - 2 ^ 31 <= t_groupSeq t < max_int32 ->
        g_id g = t_groupSeq t + 1 /\
        Forall (fun g0 => g_id g0 <> g_id g) (t_groups t))
   else
     findOrCreateGroup t startKey endKey = (t, (length (t_groups t) - 1)%nat) /\
     t_groups t !! (length (t_groups t) - 1)%nat = last (t_groups t) /\
     is_Some (last (t_groups t))).
Proof.
  intros Hwf Hmax. split.
  - intros i g Hg Hroute Hleft. unfold findOrCreateGroup.
    replace (first_accepting (t_conf t) startKey endKey 0 (t_groups t)) with (Some i);
      [reflexivity|].
    symmetry. apply first_accepting_Some. exists g. rewrite Nat.sub_0_r.
    repeat split; auto; [lia| |].
    + apply accepts_routes_to; auto.
      rewrite Forall_forall in Hwf. apply Hwf.
      eapply list_elem_of_lookup_2; eauto.
    + intros j g' Hj Hg'. apply not_true_is_false. intros Ha.
      apply (Hleft j g' Hj Hg'). apply accepts_routes_to; auto.
      rewrite Forall_forall in Hwf. apply Hwf.
      eapply list_elem_of_lookup_2; eauto.
  - intros Hnone. unfold findOrCreateGroup.
    replace (first_accepting (t_conf t) startKey endKey 0 (t_groups t)) with (@None nat).
    2:{ symmetry. apply first_accepting_None.
        rewrite Forall_forall in *. intros g Hg.
        apply not_true_is_false. intros Ha. apply (Hnone g Hg).
        apply accepts_routes_to; auto. }
    destruct (len (t_groups t) <? MaxGroups (t_conf t)) eqn:E.
    + intros _. unfold create_group.
      cbn [t_groups t_conf t_groupSeq set_groupSeq set_groups].
      exists (set_groups (set_groupSeq t (GoInt.int32 (t_groupSeq t + 1)))
                (t_groups t ++ [NewGroup (GoInt.int32 (t_groupSeq t + 1)) (t_conf t)])),
             (NewGroup (GoInt.int32 (t_groupSeq t + 1)) (t_conf t)).
      split; [reflexivity|]. cbn [t_groups set_groups set_groupSeq].
      split; [reflexivity|].
      split.
      { rewrite lookup_app_r by lia. now rewrite Nat.sub_diag. }
      split; [reflexivity|]. split; [reflexivity|].
      split; [reflexivity|]. split; [reflexivity|]. split; [reflexivity|].
      split; [reflexivity|]. split; [reflexivity|].
      split; [repeat split|].
      cbn [NewGroup g_id].
      intros Hids Hseq. unfold max_int32 in Hseq.
      rewrite int32_id by lia. split; [reflexivity|].
      rewrite Forall_forall in *. intros g Hg. specialize (Hids g Hg). lia.
    + apply Z.ltb_ge in E. unfold len in *.
      replace (0 <? Z.of_nat (length (t_groups t))) with true
        by (symmetry; apply Z.ltb_lt; lia).
      split; [reflexivity|].
      destruct (t_groups t) as [|g0 gs] eqn:Hgs using rev_ind; [simpl in E; lia|].
      rewrite length_app. cbn [length]. rewrite last_snoc.
      split; [|eauto].
      replace (length gs + 1 - 1)%nat with (length gs + 0)%nat by lia.
      rewrite lookup_app_r by lia.
      now replace (length gs + 0 - length gs)%nat with 0%nat by lia.
Qed.

End WithMemTable.

End Routing.

(** * Groups keep their shape *)

Section GroupShape.
Import GoInt GoString Bytes Types SST Grp GroupSpec Engine EngineSpec.

Lemma move_left_perm {A} (less : A -> A -> bool) x l :
  Permutation (move_left less x l) (x :: l).
Proof.
  induction l as [|y l IH]; cbn [move_left]; [reflexivity|].
  destruct (less x y); [|reflexivity].
  rewrite IH. apply perm_swap.
Qed.

Lemma sort_Slice_perm {A} (less : A -> A -> bool) l :
  Permutation (sort_Slice less l) l.
Proof.
  unfold sort_Slice.
  assert (forall acc, Permutation (fold_left (fun s x => move_left less x s) l acc)
                                  (rev l ++ acc)) as Hfold.
  { induction l as [|x l IH]; intros acc; cbn [fold_left rev]; [reflexivity|].
    rewrite IH, move_left_perm. rewrite <- app_assoc. reflexivity. }
  rewrite <- Permutation_rev. rewrite Hfold, app_nil_r.
  symmetry. apply Permutation_rev.
Qed.

Lemma sort_Slice_length {A} (less : A -> A -> bool) l :
  length (sort_Slice less l) = length l.
Proof. apply Permutation_length, sort_Slice_perm. Qed.

(** [AddNode] adds one to the number of nodes. *)
Lemma NodeCount_AddNode g node : NodeCount (AddNode g node) = NodeCount g + 1.
Proof.
  unfold NodeCount, AddNode, sortNodes, updateKeyRange, len. cbn [g_nodes].
  rewrite sort_Slice_length, length_app. cbn [length]. lia.
Qed.

Lemma g_conf_AddNode g node : g_conf (AddNode g node) = g_conf g.
Proof. reflexivity. Qed.

(** The aggregate range does not depend on the order of the nodes. *)
Lemma is_range_perm nodes nodes' s e :
  Permutation nodes nodes' -> is_range nodes s e -> is_range nodes' s e.
Proof.
  intros Hp. unfold is_range.
  destruct nodes as [|n ns]; destruct nodes' as [|n' ns'].
  - auto.
  - apply Permutation_nil in Hp. discriminate.
  - symmetry in Hp. apply Permutation_nil in Hp. discriminate.
  - intros (s0 & e0 & -> & -> & Hs & Hsall & He & Heall).
    exists s0, e0. repeat split; auto.
    + eapply Permutation_in; [apply Permutation_map, Hp|exact Hs].
    + intros x Hx. apply Hsall. eapply Permutation_in; [symmetry; exact Hp|exact Hx].
    + eapply Permutation_in; [apply Permutation_map, Hp|exact He].
    + intros x Hx. apply Heall. eapply Permutation_in; [symmetry; exact Hp|exact Hx].
Qed.

Lemma NewGroup_wf id conf : group_wf (NewGroup id conf).
Proof. now split. Qed.

Lemma AddNode_wf g node : group_wf (AddNode g node).
Proof.
  unfold group_wf, AddNode, sortNodes, updateKeyRange.
  cbn [g_nodes g_startKey g_endKey].
  eapply is_range_perm; [symmetry; apply sort_Slice_perm|].
  apply key_range_is_range.
Qed.

Lemma RemoveNode_loop_wf g node rest : forall i,
  group_wf g -> group_wf (RemoveNode_loop g node i rest).1.
Proof.
  induction rest as [|n rest IH]; intros i Hwf; cbn [RemoveNode_loop]; [exact Hwf|].
  destruct (same_node n node); [|apply IH; exact Hwf].
  cbn [fst]. unfold group_wf, updateKeyRange. cbn [g_nodes g_startKey g_endKey].
  apply key_range_is_range.
Qed.

Lemma RemoveNode_wf g node : group_wf g -> group_wf (RemoveNode g node).1.
Proof. apply RemoveNode_loop_wf. Qed.

End GroupShape.

(** * The cap on the segments of a group *)

Section GroupCap.
Import GoInt GoString Bytes Types SST Grp GroupSpec Engine EngineSpec.
Context {M : Type} `{MemTable M}.

Lemma first_accepting_bound conf startKey endKey groups : forall base i,
  first_accepting conf startKey endKey base groups = Some i ->
  exists g, groups !! (i - base)%nat = Some g /\ NodeCount g < GroupSize conf.
Proof.
  intros base i Hi. apply first_accepting_Some in Hi as (g & _ & Hg & Ha & _).
  exists g. split; [exact Hg|].
  unfold accepts in Ha. apply andb_true_iff in Ha as [Ha _]. now apply Z.ltb_lt in Ha.
Qed.

Lemma first_accepting_Exists conf startKey endKey groups :
  Exists (fun g => accepts conf g startKey endKey = true) groups ->
  first_accepting conf startKey endKey 0 groups <> None.
Proof.
  intros Hex Hnone. apply first_accepting_None in Hnone.
  rewrite Exists_exists in Hex. destruct Hex as (g & Hg & Ha).
  rewrite Forall_forall in Hnone. rewrite (Hnone g Hg) in Ha. discriminate.
Qed.

(** Routing followed by [AddNode] keeps every group within the cap when
    the range has room. *)
Lemma route_and_add_within_cap (t : @Tree M) startKey endKey node :
  0 < GroupSize (t_conf t) ->
  within_cap t ->
  has_room t startKey endKey ->
  within_cap (add_node_at (findOrCreateGroup t startKey endKey).1
                          (findOrCreateGroup t startKey endKey).2 node).
Proof.
  intros Hsize Hcap Hroom. unfold findOrCreateGroup.
  destruct (first_accepting (t_conf t) startKey endKey 0 (t_groups t)) as [i|] eqn:Hfirst.
  - cbn [fst snd].
    destruct (first_accepting_bound _ _ _ _ _ _ Hfirst) as (g & Hg & Hcount).
    rewrite Nat.sub_0_r in Hg. unfold add_node_at. rewrite Hg.
    unfold within_cap in *. cbn [set_groups t_groups t_conf].
    apply Forall_insert; [exact Hcap|].
    rewrite NodeCount_AddNode. lia.
  - destruct Hroom as [Hex|Hlt]; [now apply first_accepting_Exists in Hex|].
    replace (len (t_groups t) <? MaxGroups (t_conf t)) with true
      by (symmetry; now apply Z.ltb_lt).
    unfold create_group. cbn [fst snd set_groups set_groupSeq t_groups t_conf].
    unfold add_node_at. cbn [set_groups t_groups t_conf].
    rewrite lookup_app_r by lia. rewrite Nat.sub_diag. cbn [lookup list_lookup].
    unfold within_cap in *. cbn [set_groups t_groups t_conf].
    replace (length (t_groups t)) with (length (t_groups t) + 0)%nat at 1 by lia.
    rewrite insert_app_r. cbn.
    apply Forall_app. split; [exact Hcap|].
    constructor; [|constructor].
    rewrite NodeCount_AddNode. unfold NodeCount, len. cbn. lia.
Qed.

Lemma findOrCreateGroup_conf (t : @Tree M) startKey endKey :
  t_conf (findOrCreateGroup t startKey endKey).1 = t_conf t.
Proof.
  unfold findOrCreateGroup.
  destruct (first_accepting _ _ _ _ _); [reflexivity|].
  destruct (_ <? _); [reflexivity|]. destruct (_ <? _); reflexivity.
Qed.

Lemma add_node_at_conf (t : @Tree M) i node : t_conf (add_node_at t i node) = t_conf t.
Proof. unfold add_node_at. destruct (_ !! _); reflexivity. Qed.

Lemma createNodeFromSST_groups io (t : @Tree M) groupID seq kvs size filter index t' node :
  createNodeFromSST io t groupID seq kvs size filter index = Some (t', node) ->
  t_groups t' = t_groups t /\ t_conf t' = t_conf t.
Proof.
  unfold createNodeFromSST. destruct (NewSSTReader _ _ _).
  - destruct (NewNode _ _ _ _ _ _ _ _ _); cbn; [|discriminate].
    intros [= <- _]. split; reflexivity.
  - intros [= <- _]. split; reflexivity.
Qed.

Lemma within_cap_same (t t' : @Tree M) :
  t_groups t' = t_groups t -> t_conf t' = t_conf t -> within_cap t -> within_cap t'.
Proof. unfold within_cap. intros -> ->. auto. Qed.

(** A group that [findOrCreateGroup] creates, or finds, is within the cap
    before the segment is added. *)
Lemma findOrCreateGroup_within_cap (t : @Tree M) startKey endKey :
  0 < GroupSize (t_conf t) ->
  within_cap t -> within_cap (findOrCreateGroup t startKey endKey).1.
Proof.
  intros Hsize Hcap. unfold findOrCreateGroup.
  assert (within_cap (create_group t).1) as Hcreate.
  { unfold create_group, within_cap in *. cbn.
    apply Forall_app. split; [exact Hcap|]. constructor; [|constructor].
    unfold NodeCount, len. cbn. lia. }
  destruct (first_accepting _ _ _ _ _); [exact Hcap|].
  destruct (_ <? _); [exact Hcreate|]. destruct (_ <? _); [exact Hcap|exact Hcreate].
Qed.

(** C8 (amended).  A flush whose range has room, that is, for which some
    group passes the test of [findOrCreateGroup] or fewer than [MaxGroups]
    groups exist, leaves every group with at most [GroupSize] segments when
    every group was within that cap before. *)
Theorem flushMemTable_within_cap (io : SSTIO) (t t' : @Tree M) (memTable : MemTableObj) :
  0 < GroupSize (t_conf t) ->
  within_cap t ->
  flush_has_room t memTable ->
  flushMemTable io t memTable = Some t' ->
  within_cap t'.
Proof.
  intros Hsize Hcap Hroom. unfold flushMemTable. unfold flush_has_room in Hroom.
  destruct (mt_All (mt_state memTable)) as [|first kvs] eqn:Hall; [now intros [= <-]|].
  destruct (last (first :: kvs)) as [final|] eqn:Hlast; [|now intros [= <-]].
  specialize (Hroom first final eq_refl eq_refl).
  pose proof (route_and_add_within_cap t (KV_Key first) (KV_Key final)) as Hadd.
  pose proof (findOrCreateGroup_within_cap t (KV_Key first) (KV_Key final) Hsize Hcap) as Hfind.
  pose proof (findOrCreateGroup_conf t (KV_Key first) (KV_Key final)) as Hconf.
  destruct (findOrCreateGroup t (KV_Key first) (KV_Key final)) as [t1 i].
  cbn [fst snd] in *.
  destruct (t_groups t1 !! i) as [group|] eqn:Hgroup; cbn [mbind option_bind]; [|discriminate].
  destruct (NewSSTWriter_err io _).
  { intros [= <-]. eapply within_cap_same; [| |exact Hfind]; reflexivity. }
  destruct (Finish io _ _) as [[size filter] index].
  destruct (createNodeFromSST io _ _ _ _ _ _ _) as [[t3 newNode]|] eqn:Hcreate;
    cbn [mbind option_bind]; [|discriminate].
  apply createNodeFromSST_groups in Hcreate as [Hg3 Hc3].
  cbn [set_sstSeq t_groups t_conf] in Hg3, Hc3.
  destruct newNode as [node|]; intros [= <-].
  - unfold tryTriggerGroupCompact.
    assert (within_cap (add_node_at t3 i node)) as Hcap3.
    { specialize (Hadd node Hsize Hcap Hroom).
      unfold add_node_at in *. rewrite Hg3. rewrite Hgroup in *.
      unfold within_cap in *. cbn [set_groups t_groups t_conf] in *.
      rewrite Hc3. exact Hadd. }
    destruct (shall_compact _ _); [|exact Hcap3].
    eapply within_cap_same; [| |exact Hcap3]; reflexivity.
  - eapply within_cap_same; [exact Hg3|exact Hc3|exact Hfind].
Qed.

End GroupCap.

(** * The engine at work: runs on concrete segments *)

Section Runs.
Import GoInt GoString Bytes Types SST Grp GroupSpec NodeSpec Engine EngineSpec Concrete.

Lemma older_built :
  NewNode 1 roomy (FileName.sstFile 1 1) (one_block_reader older_kvs) 1 1
          (table_Size older_kvs) ∅ (one_block_index older_kvs) = Some older.
Proof. reflexivity. Qed.

Lemma older_ascending : index_ascending older.
Proof.
  intros i j a b Hij Ha Hb.
  destruct i as [|[|i]]; destruct j as [|[|j]];
    try lia; vm_compute in Ha, Hb; try discriminate;
    injection Ha as <-; injection Hb as <-; vm_compute; discriminate.
Qed.

Lemma Node_Get_spec_witness :
  len (one_block_index older_kvs) <= max_int /\
  index_ascending older /\
  Node_Get older (of_string "c") = Some (hit (of_string "old")).
Proof.
  split; [vm_compute; discriminate|]. split; [exact older_ascending|].
  rewrite (Node_Get_spec 1 roomy (FileName.sstFile 1 1) (one_block_reader older_kvs) 1 1
             (table_Size older_kvs) ∅ (one_block_index older_kvs) older (of_string "c")
             older_built ltac:(vm_compute; discriminate) older_ascending).
  reflexivity.
Defined.

(** C6 (as the code behaves).  [AddNode] keeps the nodes sorted by start
    key, and [GetAllKVs] writes them into the temporary table in that
    order.  A segment that was added later and starts earlier is therefore
    written first, and the value of the segment added before it survives:
    here [c] keeps the value [old] of the first flush. *)
Theorem GetAllKVs_keeps_earlier_value :
  g_nodes two_flushes = [newer; older] /\
  GetAll older = Ok [kv "b" "x"; kv "c" "old"] /\
  GetAll newer = Ok [kv "a" "y"; kv "c" "new"] /\
  GetAllKVs two_flushes = Ok [kv "a" "y"; kv "b" "x"; kv "c" "old"].
Proof. repeat split; reflexivity. Qed.

(** The same order decides a read: the newest value of [c] is shadowed. *)
Lemma Tree_Get_stale_value :
  Tree_Get (tree_of roomy [two_flushes]) (of_string "c") = Some (hit (of_string "old")).
Proof. reflexivity. Qed.

(** C2 does not hold as stated: here the newest group covers the key and
    cannot be read, and an older group holds the key.  [Get] returns the
    error, not the first hit. *)
Lemma Tree_Get_error_before_hit :
  first_hit (probes faulty_tree (of_string "k")) = Some (of_string "v") /\
  Tree_Get faulty_tree (of_string "k") = Some (failed "read error") /\
  ~ returns_first_hit faulty_tree (of_string "k").
Proof.
  split; [reflexivity|]. split; [reflexivity|].
  unfold returns_first_hit. vm_compute. discriminate.
Qed.

Lemma two_flushes_wf : Forall group_wf (t_groups (tree_of roomy [two_flushes])).
Proof. constructor; [apply AddNode_wf|constructor]. Qed.

Lemma two_flushes_routes :
  routes_to roomy two_flushes (of_string "b") (of_string "d").
Proof.
  split; [vm_compute; reflexivity|]. right.
  exists (of_string "a"), (of_string "c"). repeat split.
  intros [Hlt|Hlt]; vm_compute in Hlt; discriminate.
Qed.

Lemma two_flushes_apart :
  Forall (fun g => ~ routes_to roomy g (of_string "x") (of_string "z")) [two_flushes].
Proof.
  constructor; [|constructor].
  intros [_ [Hnil|(gStart & gEnd & Hs & He & Hapart)]].
  - vm_compute in Hnil. discriminate.
  - vm_compute in Hs, He. injection Hs as <-. injection He as <-.
    apply Hapart. right. vm_compute. reflexivity.
Qed.

Lemma crowded_is_full :
  Forall (fun g => ~ routes_to tiny g (of_string "x") (of_string "z")) [crowded].
Proof.
  constructor; [|constructor]. intros [Hcount _]. vm_compute in Hcount. discriminate.
Qed.

Lemma findOrCreateGroup_spec_witness :
  Forall group_wf (t_groups (tree_of roomy [two_flushes])) /\
  0 < MaxGroups roomy /\
  make_ok (GroupSize roomy) = true /\
  findOrCreateGroup (tree_of roomy [two_flushes]) (of_string "b") (of_string "d") =
    (tree_of roomy [two_flushes], 0%nat) /\
  (exists t' g,
     findOrCreateGroup (tree_of roomy [two_flushes]) (of_string "x") (of_string "z")
       = (t', 1%nat) /\
     t_groups t' = [two_flushes; g] /\
     g_id g = 10 /\ t_groupSeq t' = 10 /\ g_nodes g = [] /\ g_startKey g = None /\
     Forall (fun g0 => g_id g0 <> g_id g) [two_flushes]) /\
  findOrCreateGroup (tree_of tiny [crowded]) (of_string "x") (of_string "z") =
    (tree_of tiny [crowded], 0%nat).
Proof.
  assert (make_ok (GroupSize roomy) = true) as Hmake by reflexivity.
  split; [exact two_flushes_wf|]. split; [reflexivity|]. split; [exact Hmake|].
  split; [|split].
  - refine (proj1 (findOrCreateGroup_spec (tree_of roomy [two_flushes])
                     (of_string "b") (of_string "d") two_flushes_wf eq_refl)
                  0%nat two_flushes eq_refl two_flushes_routes _).
    intros j g' Hj. lia.
  - pose proof (proj2 (findOrCreateGroup_spec (tree_of roomy [two_flushes])
                         (of_string "x") (of_string "z") two_flushes_wf eq_refl)
                      two_flushes_apart) as Hcreate.
    cbn [tree_of t_groups t_conf] in Hcreate.
    change (len [two_flushes] <? MaxGroups roomy) with true in Hcreate.
    destruct (Hcreate Hmake)
      as (t' & g & Hrun & Hgroups & _ & Hid & Hseq & Hnodes & Hstart & _ & _ & _ & _ & Hfresh).
    cbn [tree_of t_groupSeq] in Hid, Hseq, Hfresh.
    destruct Hfresh as [Hnext Hfresh].
    { constructor; [vm_compute; discriminate|constructor]. }
    { unfold max_int32. lia. }
    exists t', g. split; [exact Hrun|]. split; [exact Hgroups|].
    split; [exact Hnext|]. split; [now rewrite Hseq|].
    split; [exact Hnodes|]. split; [exact Hstart|exact Hfresh].
  - assert (Forall group_wf (t_groups (tree_of tiny [crowded]))) as Hwf
      by (constructor; [apply AddNode_wf|constructor]).
    pose proof (proj2 (findOrCreateGroup_spec (tree_of tiny [crowded])
                         (of_string "x") (of_string "z") Hwf eq_refl)
                      crowded_is_full) as Hlast.
    cbn [tree_of t_groups t_conf] in Hlast.
    change (len [crowded] <? MaxGroups tiny) with false in Hlast.
    exact (proj1 Hlast).
Defined.

Lemma RemoveNode_spec_witness :
  RemoveNode two_flushes stranger = (two_flushes, false) /\
  (RemoveNode two_flushes older).2 = true /\
  g_nodes (RemoveNode two_flushes older).1 = [newer] /\
  g_size (RemoveNode two_flushes older).1 = uint64 (g_size two_flushes - n_size older).
Proof.
  destruct (RemoveNode_spec two_flushes stranger) as [Habsent _].
  destruct (RemoveNode_spec two_flushes older) as [_ Hpresent].
  split.
  - apply Habsent. repeat constructor.
  - specialize (Hpresent [newer] older [] eq_refl).
    destruct Hpresent as (Hok & Hnodes & Hsize & _); [repeat constructor|reflexivity|].
    split; [exact Hok|]. split; [exact Hnodes|exact Hsize].
Defined.

Lemma Put_rotation_witness :
  0 <= table_Size [kv "a" "x"] /\
  table_Size [kv "a" "x"] * 5 <= max_int /\
  0 <= t_memTableIndex run_0 < max_int /\
  GroupSSTSize tiny < table_Size [kv "a" "x"] * 5 / 4 /\
  t_rOnlyMemTable run_1 = [first_item] /\
  t_memCompactC run_1 = [first_item] /\
  t_memTableIndex run_1 = 1 /\
  t_walWriter run_1 = NewWALWriter "db/walfile/1.wal".
Proof.
  assert (0 <= table_Size [kv "a" "x"]) as H0 by (vm_compute; discriminate).
  assert (table_Size [kv "a" "x"] * 5 <= max_int) as H5 by (vm_compute; discriminate).
  assert (0 <= t_memTableIndex run_0 < max_int) as Hidx by (split; vm_compute; congruence).
  pose proof (Put_rotation run_0 (of_string "a") (of_string "x") H0 H5 Hidx) as [_ Hrot].
  split; [exact H0|]. split; [exact H5|]. split; [exact Hidx|].
  split; [vm_compute; reflexivity|].
  change (GroupSSTSize (t_conf run_0) <?
          mt_Size (mt_Put (of_string "a") (of_string "x") (mt_state (t_memTable run_0))) * 5 / 4)
    with true in Hrot.
  destruct Hrot as (Hq & Hc & Hi & _ & _ & Hw & _).
  split; [exact Hq|]. split; [exact Hc|]. split; [exact Hi|exact Hw].
Defined.

Lemma small_table_has_room :
  flush_has_room (tree_of roomy [two_flushes]) small_table.
Proof.
  intros first final [= <-] [= <-]. left. constructor. reflexivity.
Qed.

Lemma two_flushes_within_cap : within_cap (tree_of roomy [two_flushes]).
Proof. constructor; [vm_compute; discriminate|constructor]. Qed.

Lemma flushMemTable_within_cap_witness :
  within_cap (tree_of roomy [two_flushes]) /\
  flush_has_room (tree_of roomy [two_flushes]) small_table /\
  within_cap (default run_0 (flushMemTable one_block_io (tree_of roomy [two_flushes]) small_table)).
Proof.
  split; [exact two_flushes_within_cap|]. split; [exact small_table_has_room|].
  refine (flushMemTable_within_cap one_block_io (tree_of roomy [two_flushes]) _ small_table
            eq_refl two_flushes_within_cap small_table_has_room _).
  reflexivity.
Defined.

(** C8 does not hold as stated.  With room for one group of one segment,
    the second flush finds no group that accepts it and no room for a new
    group, so it is added to the last group.  The compactions that follow
    rewrite the two pairs into two segments again, because each pair alone
    fills a segment.  Nothing is pending any more and the group holds two
    segments. *)
Lemma group_over_cap_when_steady :
  reachable one_block_io tiny run_6 /\
  steady run_6 /\
  Exists (fun g => GroupSize tiny < NodeCount g) (t_groups run_6) /\
  ~ within_cap run_6.
Proof.
  split; [|split; [|split]].
  - assert (reachable one_block_io tiny run_2) as H2.
    { apply reachable_step with (t := run_1); [|apply (step_Put _ run_1)].
      apply reachable_step with (t := run_0); [|apply (step_Put _ run_0)].
      apply reachable_init. }
    assert (reachable one_block_io tiny run_3) as H3.
    { apply reachable_step with (t := run_2); [exact H2|].
      apply step_compactMemTable with (before := []) (item := first_item)
                                      (after := [second_item]); vm_compute; reflexivity. }
    assert (reachable one_block_io tiny run_4) as H4.
    { apply reachable_step with (t := run_3); [exact H3|].
      apply step_compactMemTable with (before := []) (item := second_item) (after := []);
        vm_compute; reflexivity. }
    assert (reachable one_block_io tiny run_5) as H5.
    { apply reachable_step with (t := run_4); [exact H4|].
      apply step_compactGroup with (before := []) (groupID := 1) (after := [1]);
        vm_compute; reflexivity. }
    apply reachable_step with (t := run_5); [exact H5|].
    apply step_compactGroup with (before := []) (groupID := 1) (after := []);
      vm_compute; reflexivity.
  - split; vm_compute; reflexivity.
  - vm_compute. constructor. reflexivity.
  - intros Hcap. unfold within_cap in Hcap.
    assert (exists g, t_groups run_6 = [g] /\ NodeCount g = 2) as (g & Hg & Hn)
      by (eexists; split; vm_compute; reflexivity).
    rewrite Hg in Hcap. inversion Hcap as [|? ? Hle _]; subst.
    rewrite Hn in Hle. vm_compute in Hle. apply Hle. reflexivity.
Qed.

End Runs.

(** * The merge of a group, as the code performs it *)

Section Merge.
Import GoInt GoString Bytes Types SST Grp GroupSpec NodeSpec Engine EngineSpec Concrete.

Lemma compare_lex_Gt a b : compare_lex a b = Gt -> lt b a.
Proof.
  intros H. unfold lt, Compare. rewrite (compare_lex_antisym a b), H. simpl. lia.
Qed.

Lemma compare_lex_Lt a b : compare_lex a b = Lt -> lt a b.
Proof. intros H. unfold lt, Compare. rewrite H. lia. Qed.

Lemma Equal_refl a : Equal a a = true.
Proof. now apply Equal_true. Qed.

Lemma table_Get_Put_same key value m :
  table_Get (table_Put key value m) key = (value, true).
Proof.
  induction m as [|e m IH]; cbn [table_Put table_Get KV_Key KV_Value].
  - now rewrite Equal_refl.
  - destruct (compare_lex key (KV_Key e)) eqn:E; cbn [table_Get KV_Key KV_Value].
    + now rewrite Equal_refl.
    + now rewrite Equal_refl.
    + destruct (Equal (KV_Key e) key) eqn:Ee; [|exact IH].
      apply Equal_true in Ee. subst key. now rewrite compare_lex_refl in E.
Qed.

Lemma table_Get_Put_other key value m key' :
  key <> key' -> table_Get (table_Put key value m) key' = table_Get m key'.
Proof.
  intros Hne.
  assert (Equal key key' = false) as Hk.
  { destruct (Equal key key') eqn:E; [apply Equal_true in E; contradiction|reflexivity]. }
  induction m as [|e m IH]; cbn [table_Put table_Get KV_Key KV_Value].
  - now rewrite Hk.
  - destruct (compare_lex key (KV_Key e)) eqn:E; cbn [table_Get KV_Key KV_Value].
    + rewrite Hk. apply compare_lex_eq in E. subst key. now rewrite Hk.
    + now rewrite Hk.
    + destruct (Equal (KV_Key e) key'); [reflexivity|exact IH].
Qed.

Lemma table_Put_HdRel a key value m :
  lt (KV_Key a) key ->
  HdRel (fun a b => lt (KV_Key a) (KV_Key b)) a m ->
  HdRel (fun a b => lt (KV_Key a) (KV_Key b)) a (table_Put key value m).
Proof.
  intros Hak Hhd. destruct m as [|e m]; cbn [table_Put].
  - now constructor.
  - destruct (compare_lex key (KV_Key e)); constructor; cbn [KV_Key]; auto.
    now inversion Hhd.
Qed.

Lemma table_Put_ascending key value m :
  ascending_keys m -> ascending_keys (table_Put key value m).
Proof.
  unfold ascending_keys. induction m as [|e m IH]; intros Hs; cbn [table_Put].
  - repeat constructor.
  - inversion Hs as [|? ? Hsm Hhd]; subst.
    destruct (compare_lex key (KV_Key e)) eqn:E.
    + apply compare_lex_eq in E. subst key. constructor; [exact Hsm|].
      destruct m; constructor. inversion Hhd; subst. assumption.
    + constructor; [exact Hs|]. constructor. now apply compare_lex_Lt.
    + constructor; [now apply IH|].
      apply table_Put_HdRel; [now apply compare_lex_Gt|exact Hhd].
Qed.

Lemma put_all_ascending kvs : forall m : Table,
  ascending_keys m -> ascending_keys (put_all m kvs).
Proof.
  induction kvs as [|e kvs IH]; intros m Hm; [exact Hm|].
  apply IH. now apply table_Put_ascending.
Qed.

Lemma put_all_Get kvs key : forall m : Table,
  table_Get (put_all m kvs) key = last_write kvs key (table_Get m key).
Proof.
  induction kvs as [|e kvs IH]; intros m; [reflexivity|].
  unfold put_all, last_write in *. cbn [fold_left]. rewrite IH. f_equal.
  destruct (Equal (KV_Key e) key) eqn:E.
  - apply Equal_true in E. subst key. apply table_Get_Put_same.
  - apply table_Get_Put_other. intros Heq. apply Equal_true in Heq. congruence.
Qed.

Lemma GetAllKVs_loop_Ok nodes : forall datas (m : Table),
  Forall2 (fun n d => GetAll n = Ok d) nodes datas ->
  GetAllKVs_loop nodes m = Ok (put_all m (concat datas)).
Proof.
  induction nodes as [|n nodes IH]; intros datas m Hall.
  - inversion Hall; subst. reflexivity.
  - inversion Hall as [|? d ? ds Hn Hrest]; subst.
    cbn [GetAllKVs_loop concat]. rewrite Hn. rewrite (IH ds) by exact Hrest.
    unfold put_all. now rewrite fold_left_app.
Qed.

Lemma rebuild_pairs (kvs : list KV) :
  map (fun kv => {| KV_Key := KV_Key kv; KV_Value := KV_Value kv |}) kvs = kvs.
Proof.
  induction kvs as [|[k v] kvs IH]; [reflexivity|]. cbn. now rewrite IH.
Qed.

(** X2.  With the sorted table as the temporary memtable, [GetAllKVs] returns
    the pairs of all nodes in strictly ascending key order, and for every
    key the value of the last pair with that key in the order of
    [g.nodes], which is the order of the start keys. *)
Lemma GetAllKVs_order_of_nodes (g : Group) (datas : list (list KV)) :
  Forall2 (fun n d => GetAll n = Ok d) (g_nodes g) datas ->
  exists merged,
    GetAllKVs g = Ok merged /\
    ascending_keys merged /\
    forall key, table_Get merged key = last_write (concat datas) key ([], false).
Proof.
  intros Hall. exists (put_all ([] : Table) (concat datas)).
  unfold GetAllKVs. cbn [MemTableConstructor Table_MemTable].
  rewrite (GetAllKVs_loop_Ok (g_nodes g) datas [] Hall).
  cbn [mt_All Table_MemTable]. rewrite rebuild_pairs.
  split; [reflexivity|]. split.
  - apply put_all_ascending. constructor.
  - intros key. apply put_all_Get.
Qed.

(** Four acknowledged writes and two flushes later nothing is pending, and
    [Get] answers the first value written for [c], not the last. *)
Lemma stale_read_after_flush :
  reachable one_block_io medium walk_6 /\
  steady walk_6 /\
  map (fun g => map n_seq (g_nodes g)) (t_groups walk_6) = [[2; 1]] /\
  Tree_Get walk_6 (of_string "c") = Some (hit (of_string "old")).
Proof.
  split; [|split; [|split]].
  - assert (reachable one_block_io medium walk_4) as H4.
    { apply reachable_step with (t := walk_3); [|apply (step_Put _ walk_3)].
      apply reachable_step with (t := walk_2); [|apply (step_Put _ walk_2)].
      apply reachable_step with (t := walk_1); [|apply (step_Put _ walk_1)].
      apply reachable_step with (t := walk_0); [|apply (step_Put _ walk_0)].
      apply reachable_init. }
    assert (reachable one_block_io medium walk_5) as H5.
    { apply reachable_step with (t := walk_4); [exact H4|].
      apply step_compactMemTable with (before := []) (item := older_item)
                                      (after := [newer_item]); vm_compute; reflexivity. }
    apply reachable_step with (t := walk_5); [exact H5|].
    apply step_compactMemTable with (before := []) (item := newer_item) (after := []);
      vm_compute; reflexivity.
  - split; vm_compute; reflexivity.
  - vm_compute. reflexivity.
  - vm_compute. reflexivity.
Qed.

End Merge.

(** * What every run of the engine maintains *)

Section Maintained.
Import GoInt GoString Bytes Types SST Grp GroupSpec NodeSpec Engine EngineSpec.

Context {M : Type} `{MemTable M}.

Lemma Put_groups (t : @Tree M) key value io : t_groups (Put t key value io).1 = t_groups t.
Proof.
  unfold Put, WALWriter_Write. destruct io; [reflexivity|].
  destruct (below_threshold _ _); reflexivity.
Qed.

Lemma findOrCreateGroup_wf (t : @Tree M) startKey endKey :
  Forall group_wf (t_groups t) ->
  Forall group_wf (t_groups (findOrCreateGroup t startKey endKey).1).
Proof.
  intros Hwf. unfold findOrCreateGroup.
  assert (Forall group_wf (t_groups (create_group t).1)) as Hcreate.
  { unfold create_group. cbn. apply Forall_app. split; [exact Hwf|].
    constructor; [apply NewGroup_wf|constructor]. }
  destruct (first_accepting _ _ _ _ _); [exact Hwf|].
  destruct (_ <? _); [exact Hcreate|]. destruct (_ <? _); [exact Hwf|exact Hcreate].
Qed.

Lemma add_node_at_wf (t : @Tree M) i node :
  Forall group_wf (t_groups t) -> Forall group_wf (t_groups (add_node_at t i node)).
Proof.
  intros Hwf. unfold add_node_at. destruct (t_groups t !! i) eqn:E; [|exact Hwf].
  cbn. apply Forall_insert; [exact Hwf|apply AddNode_wf].
Qed.

Lemma tryTriggerGroupCompact_groups (t : @Tree M) groupID :
  t_groups (tryTriggerGroupCompact t groupID) = t_groups t.
Proof. unfold tryTriggerGroupCompact. destruct (shall_compact _ _); reflexivity. Qed.

Lemma flushMemTable_wf io (t t' : @Tree M) memTable :
  Forall group_wf (t_groups t) ->
  flushMemTable io t memTable = Some t' ->
  Forall group_wf (t_groups t').
Proof.
  intros Hwf. unfold flushMemTable.
  destruct (mt_All (mt_state memTable)) as [|first kvs]; [now intros [= <-]|].
  destruct (last (first :: kvs)) as [final|]; [|now intros [= <-]].
  pose proof (findOrCreateGroup_wf t (KV_Key first) (KV_Key final) Hwf) as Hfind.
  destruct (findOrCreateGroup t (KV_Key first) (KV_Key final)) as [t1 i].
  cbn [fst] in Hfind.
  destruct (t_groups t1 !! i) as [group|]; cbn [mbind option_bind]; [|discriminate].
  destruct (NewSSTWriter_err io _); [now intros [= <-]|].
  destruct (Finish io _ _) as [[size filter] index].
  destruct (createNodeFromSST io _ _ _ _ _ _ _) as [[t3 newNode]|] eqn:Hcreate;
    cbn [mbind option_bind]; [|discriminate].
  apply createNodeFromSST_groups in Hcreate as [Hg3 _]. cbn in Hg3.
  destruct newNode as [node|]; intros [= <-].
  - rewrite tryTriggerGroupCompact_groups. apply add_node_at_wf. now rewrite Hg3.
  - now rewrite Hg3.
Qed.

Lemma finish_file_groups io groupID (c c' : @compaction M) :
  finish_file io groupID c = Some c' -> t_groups (c_tree c') = t_groups (c_tree c).
Proof.
  unfold finish_file. destruct (Finish io _ _) as [[size filter] index].
  destruct (createNodeFromSST io _ _ _ _ _ _ _) as [[t1 newNode]|] eqn:Hcreate;
    cbn [mbind option_bind]; [|discriminate].
  apply createNodeFromSST_groups in Hcreate as [Hg _].
  intros [= <-]. exact Hg.
Qed.

Lemma compact_round_groups io conf groupID (c c' : @compaction M) kv is_last :
  compact_round io conf groupID c kv is_last = Some c' ->
  t_groups (c_tree c') = t_groups (c_tree c).
Proof.
  unfold compact_round.
  destruct (_ && _).
  - destruct (finish_file io groupID c) as [c0|] eqn:Hfin; cbn [mbind option_bind];
      [|discriminate].
    apply finish_file_groups in Hfin.
    destruct (NewSSTWriter_err io _); cbn [mbind option_bind c_broken c_tree].
    + intros [= <-]. exact Hfin.
    + destruct is_last.
      * intros Hc. apply finish_file_groups in Hc. rewrite Hc. exact Hfin.
      * intros [= <-]. exact Hfin.
  - cbn [mbind option_bind]. destruct (c_broken c); [now intros [= <-]|].
    destruct is_last.
    + intros Hc. apply finish_file_groups in Hc. exact Hc.
    + now intros [= <-].
Qed.

Lemma compact_loop_groups io conf groupID allKVs : forall (c c' : @compaction M),
  compact_loop io conf groupID c allKVs = Some c' ->
  t_groups (c_tree c') = t_groups (c_tree c).
Proof.
  induction allKVs as [|kv rest IH]; intros c c'; cbn [compact_loop].
  - now intros [= <-].
  - destruct (compact_round io conf groupID c kv _) as [c1|] eqn:Hround;
      cbn [mbind option_bind]; [|discriminate].
    apply compact_round_groups in Hround.
    destruct (c_broken c1).
    + intros [= <-]. exact Hround.
    + intros Hloop. apply IH in Hloop. congruence.
Qed.

Lemma replaceGroupNodes_wf (t : @Tree M) i oldNodes newNodes :
  Forall group_wf (t_groups t) ->
  Forall group_wf (t_groups (replaceGroupNodes t i oldNodes newNodes)).
Proof.
  intros Hwf. unfold replaceGroupNodes.
  destruct (t_groups t !! i) as [group|] eqn:Hgroup; [|exact Hwf].
  cbn. apply Forall_insert; [exact Hwf|].
  assert (group_wf group) as Hg.
  { rewrite Forall_forall in Hwf. apply Hwf. eapply list_elem_of_lookup_2; eauto. }
  assert (forall g, group_wf g ->
            group_wf (fold_left (fun g oldNode => (RemoveNode g oldNode).1) oldNodes g)) as Hrem.
  { induction oldNodes as [|n ns IH]; intros g Hgw; [exact Hgw|].
    cbn [fold_left]. apply IH. now apply RemoveNode_wf. }
  assert (forall g, group_wf g -> group_wf (fold_left AddNode newNodes g)) as Hadd.
  { induction newNodes as [|n ns IH]; intros g Hgw; [exact Hgw|].
    cbn [fold_left]. apply IH. apply AddNode_wf. }
  apply Hadd, Hrem, Hg.
Qed.

Lemma compactGroup_wf io (t t' : @Tree M) groupID :
  Forall group_wf (t_groups t) ->
  compactGroup io t groupID = Some t' ->
  Forall group_wf (t_groups t').
Proof.
  intros Hwf. unfold compactGroup.
  destruct (group_with_id _ _ _) as [i|]; [|now intros [= <-]].
  destruct (t_groups t !! i) as [targetGroup|]; cbn [mbind option_bind]; [|discriminate].
  destruct (_ <=? 1); [now intros [= <-]|].
  destruct (GetAllKVs targetGroup) as [[|kv allKVs]|]; try (now intros [= <-]).
  destruct (NewSSTWriter_err io _); [now intros [= <-]|].
  destruct (compact_loop io _ _ _ _) as [c|] eqn:Hloop; cbn [mbind option_bind];
    [|discriminate].
  apply compact_loop_groups in Hloop. cbn in Hloop.
  intros [= <-]. apply replaceGroupNodes_wf. now rewrite Hloop.
Qed.

(** X3.  In every state the engine reaches, the range of every group is the
    aggregate range of its nodes: nil exactly for the groups without
    nodes. *)
Lemma reachable_groups_wf io conf (t : @Tree M) :
  reachable io conf t -> Forall group_wf (t_groups t).
Proof.
  induction 1 as [|t t' Hreach IH Hstep].
  - constructor.
  - destruct Hstep as [t key value wal_io | t before item after t' Hc Hrun
                      | t before groupID after t' Hc Hrun].
    + now rewrite Put_groups.
    + unfold compactMemTable in Hrun.
      destruct (flushMemTable io _ _) as [t1|] eqn:Hflush; cbn [mbind option_bind] in Hrun;
        [|discriminate].
      injection Hrun as <-. cbn.
      eapply flushMemTable_wf; [|exact Hflush]. exact IH.
    + eapply compactGroup_wf; [|exact Hrun]. exact IH.
Qed.

End Maintained.

(** * Names of logs and segments: what recovery reads off them *)

Section LogNames.
Import GoInt GoString FileName WalName.

Lemma atoi_loop_ge s : forall n m, 0 <= n -> atoi_loop n s = Some m -> n <= m.
Proof.
  induction s as [|c s IH]; intros n m Hn; cbn [atoi_loop].
  - intros [= <-]. lia.
  - unfold digit_of. destruct (9 <? (byte_of c - 48) mod 256) eqn:E; [discriminate|].
    pose proof (Z.mod_pos_bound (byte_of c - 48) 256 ltac:(lia)).
    intros Hm. apply IH in Hm; lia.
Qed.

(** [ParseUint] agrees with the plain digit loop as long as the value fits
    in a [uint64]. *)
Lemma parseUint_loop_atoi s : forall n m,
  0 <= n -> atoi_loop n s = Some m -> m <= maxUint64 ->
  parseUint_loop n s = (m, None).
Proof.
  induction s as [|c s IH]; intros n m Hn; cbn [atoi_loop parseUint_loop].
  - now intros [= <-].
  - destruct (digit_of c) as [d|] eqn:Hd; [|discriminate].
    assert (0 <= d) as Hd0.
    { unfold digit_of in Hd. destruct (9 <? _); [discriminate|]. injection Hd as <-.
      apply Z.mod_pos_bound. lia. }
    intros Hm Hmax.
    assert (0 <= n * 10 + d) as Hn1 by lia.
    pose proof (atoi_loop_ge s (n * 10 + d) m Hn1 Hm) as Hge.
    unfold maxUint64 in *.
    replace (_ <=? n) with false
      by (symmetry; apply Z.leb_gt; apply Z.lt_succ_r; apply Z.div_le_lower_bound; lia).
    replace (_ <? n * 10 + d) with false by (symmetry; apply Z.ltb_ge; lia).
    apply IH; auto; lia.
Qed.

Lemma fmt_digits_nonempty room u buf :
  (0 < room)%nat -> fmt_digits room u buf <> EmptyString.
Proof.
  destruct room as [|room]; [lia|]. intros _. cbn [fmt_digits].
  destruct (10 <=? u); [|discriminate].
  rewrite fmt_digits_buf. destruct (fmt_digits room (u / 10) EmptyString); discriminate.
Qed.

(** The digits of a number below 2^64, read by [Atoi] without a sign. *)
Lemma Atoi_digits u :
  0 <= u < 2 ^ 63 ->
  Atoi (fmt_digits 20 u EmptyString) = (u, None).
Proof.
  intros Hu.
  assert (0 <= u < 10 ^ Z.of_nat 20) as H20
    by (change (10 ^ Z.of_nat 20) with (100000000000000000000); lia).
  pose proof (atoi_loop_fmt_digits 20 u H20) as Ha.
  pose proof (fmt_digits_all_digits 20 u EmptyString ltac:(lia) eq_refl) as Hd.
  pose proof (fmt_digits_nonempty 20 u EmptyString ltac:(lia)) as Hne.
  unfold Atoi.
  destruct (fmt_digits 20 u EmptyString) as [|c s] eqn:E; [congruence|].
  cbn [all_chars] in Hd. apply andb_true_iff in Hd as [Hc _].
  assert (Ascii.eqb c "-" = false) as Hm.
  { destruct (Ascii.eqb_spec c "-") as [->|]; [discriminate Hc|reflexivity]. }
  assert (Ascii.eqb c "+" = false) as Hp.
  { destruct (Ascii.eqb_spec c "+") as [->|]; [discriminate Hc|reflexivity]. }
  destruct (_ && _).
  - rewrite Hm, Hp. cbn [orb]. cbv iota. rewrite Ha. reflexivity.
  - unfold ParseInt. rewrite Hm, Hp. cbn [orb]. cbv iota. unfold ParseUint.
    rewrite (parseUint_loop_atoi _ 0 u ltac:(lia) Ha) by (unfold maxUint64; lia).
    cbn [negb andb].
    replace (2 ^ 63 <=? u) with false by (symmetry; apply Z.leb_gt; lia).
    cbn [andb]. f_equal. apply int_id. lia.
Qed.

(** The digits of the magnitude of a negative number, read with the sign. *)
Lemma Atoi_minus_digits u :
  0 < u <= 2 ^ 63 ->
  Atoi (String "-" (fmt_digits 20 u EmptyString)) = (- u, None).
Proof.
  intros Hu.
  assert (0 <= u < 10 ^ Z.of_nat 20) as H20
    by (change (10 ^ Z.of_nat 20) with (100000000000000000000); lia).
  pose proof (atoi_loop_fmt_digits 20 u H20) as Ha.
  pose proof (fmt_digits_nonempty 20 u EmptyString ltac:(lia)) as Hne.
  unfold Atoi.
  destruct (_ && _).
  - change (Ascii.eqb "-" "-") with true. cbn [orb]. cbv iota.
    destruct (fmt_digits 20 u EmptyString) as [|c s] eqn:E; [congruence|].
    rewrite Ha. reflexivity.
  - unfold ParseInt. change (Ascii.eqb "-" "-") with true.
    change (Ascii.eqb "-" "+") with false. cbn [orb]. cbv iota. unfold ParseUint.
    destruct (fmt_digits 20 u EmptyString) as [|c s] eqn:E; [congruence|].
    rewrite (parseUint_loop_atoi _ 0 u ltac:(lia) Ha) by (unfold maxUint64; lia).
    cbn [negb andb].
    replace (2 ^ 63 <? u) with false by (symmetry; apply Z.ltb_ge; lia).
    f_equal. apply int_id. lia.
Qed.

(** [Atoi] reads back what ["%d"] prints, for every [int]. *)
Lemma Atoi_fmt_d_int i : - 2 ^ 63 <= i < 2 ^ 63 -> Atoi (fmt_d i) = (i, None).
Proof.
  intros Hi. unfold fmt_d. destruct (i <? 0) eqn:E.
  - apply Z.ltb_lt in E. rewrite Atoi_minus_digits by lia. f_equal. lia.
  - apply Z.ltb_ge in E. apply Atoi_digits. lia.
Qed.

Lemma fmt_d_no_dot i : all_chars (not_char ".") (fmt_d i) = true.
Proof.
  unfold fmt_d. destruct (i <? 0) eqn:E.
  - apply Z.ltb_lt in E. cbn [all_chars].
    apply all_chars_weaken with (p := is_digit).
    + intros c. now apply digit_not_char.
    + apply fmt_digits_all_digits; [lia|reflexivity].
  - apply Z.ltb_ge in E.
    apply all_chars_weaken with (p := is_digit).
    + intros c. now apply digit_not_char.
    + apply fmt_digits_all_digits; [lia|reflexivity].
Qed.

(** A text without a dot, followed by [".wal"], loses exactly the suffix. *)
Lemma ReplaceAll_wal s :
  all_chars (not_char ".") s = true ->
  ReplaceAll (s +:+ ".wal") ".wal" EmptyString = s.
Proof.
  unfold ReplaceAll. induction s as [|c s IH]; intros H.
  - reflexivity.
  - simpl in H. apply andb_true_iff in H as [Hc Hs].
    rewrite str_app_cons. cbn [replace_from HasPrefix].
    unfold not_char in Hc. apply negb_true_iff in Hc. rewrite Hc.
    now rewrite IH.
Qed.

(** X4.  The index of a memtable is read back from the name of its log, for
    every [int]; two indexes therefore never share a log name. *)
Theorem walFileToMemTableIndex_walName (i j : Z) :
  - 2 ^ 63 <= i < 2 ^ 63 -> - 2 ^ 63 <= j < 2 ^ 63 ->
  walFileToMemTableIndex (walName i) = i /\
  (walName i = walName j -> i = j).
Proof.
  intros Hi Hj.
  assert (forall k, - 2 ^ 63 <= k < 2 ^ 63 -> walFileToMemTableIndex (walName k) = k) as Hk.
  { intros k Hr. unfold walFileToMemTableIndex, walName.
    rewrite ReplaceAll_wal by apply fmt_d_no_dot. now rewrite Atoi_fmt_d_int. }
  split; [now apply Hk|].
  intros Heq. rewrite <- (Hk i Hi), <- (Hk j Hj). now rewrite Heq.
Qed.

Lemma walFileToMemTableIndex_walName_witness :
  walFileToMemTableIndex (walName 9223372036854775807) = 9223372036854775807 /\
  walFileToMemTableIndex (walName (-12)) = -12.
Proof.
  split.
  - apply (walFileToMemTableIndex_walName 9223372036854775807 0); lia.
  - apply (walFileToMemTableIndex_walName (-12) 0); lia.
Defined.

(** Removing occurrences of a text adds no character. *)
Lemma replace_from_all_chars p old s : forall skip,
  all_chars p s = true -> all_chars p (replace_from skip old EmptyString s) = true.
Proof.
  induction s as [|c s IH]; intros skip H; [reflexivity|].
  cbn [all_chars] in H. apply andb_true_iff in H as [Hc Hs].
  cbn [replace_from]. destruct skip as [|k]; [|now apply IH].
  destruct (HasPrefix (String c s) old).
  - rewrite str_app_nil. now apply IH.
  - cbn [all_chars]. rewrite Hc. now apply IH.
Qed.

(** X5.  A file name without an underscore makes [getGroupSeqFromSSTFile]
    panic: [splitted[1]] is out of range.  Such a name is not skipped. *)
Theorem getGroupSeqFromSSTFile_no_underscore (file : string) :
  all_chars (not_char "_") file = true ->
  getGroupSeqFromSSTFile file = None.
Proof.
  intros H. unfold getGroupSeqFromSSTFile, ReplaceAll, Split.
  rewrite split_from_plain by (apply replace_from_all_chars; exact H).
  reflexivity.
Qed.

Lemma getGroupSeqFromSSTFile_no_underscore_witness :
  getGroupSeqFromSSTFile "backup.sst" = None.
Proof. apply getGroupSeqFromSSTFile_no_underscore. reflexivity. Defined.

(** X6.  The scan of [constructTree] over any number of files written by
    [sstFile]: all of them are filed under group 0, the largest group id
    seen is 0, and the largest sequence number is found. *)
Theorem scan_sst_names_one_group (files : list (Z * Z)) :
  Forall (fun f => 0 <= f.1 /\ 0 <= f.2 <= max_int32) files ->
  let names := map (fun f => sstFile f.1 f.2) files in
  scan_sst_names names =
    Some {| groupFiles := match names with [] => ∅ | _ => {[ 0 := names ]} end;
            maxGroupID := 0;
            maxSSTSeq := fold_left Z.max (map snd files) 0 |}.
Proof.
  intros Hall. cbn zeta. unfold scan_sst_names.
  assert (forall seen top,
    fold_left scan_sst_name (map (fun f => sstFile f.1 f.2) files)
      (Some {| groupFiles := match seen with [] => ∅ | _ => {[ 0 := seen ]} end;
               maxGroupID := 0; maxSSTSeq := top |}) =
    Some {| groupFiles :=
              match seen ++ map (fun f => sstFile f.1 f.2) files with
              | [] => ∅ | _ => {[ 0 := seen ++ map (fun f => sstFile f.1 f.2) files ]} end;
            maxGroupID := 0;
            maxSSTSeq := fold_left Z.max (map snd files) top |}) as Hgen.
  { induction Hall as [|[g s] files [Hg Hs] Hrest IH]; intros seen top.
    - cbn [map fold_left]. now rewrite app_nil_r.
    - cbn [map fold_left fst snd] in *.
      unfold scan_sst_name at 2. cbn [mbind option_bind].
      rewrite (parse_sstFile g s Hg Hs). cbn [mbind option_bind groupFiles maxGroupID maxSSTSeq].
      replace (if top <? s then s else top) with (Z.max top s)
        by (destruct (top <? s) eqn:E; [apply Z.ltb_lt in E|apply Z.ltb_ge in E]; lia).
      specialize (IH (seen ++ [sstFile g s]) (Z.max top s)).
      rewrite <- app_assoc in IH. cbn [app] in IH.
      destruct seen as [|x seen].
      + rewrite lookup_empty. cbn [default app] in *. rewrite insert_empty. exact IH.
      + rewrite lookup_singleton_eq. cbn [default] in *. rewrite insert_singleton_eq.
        exact IH. }
  exact (Hgen [] 0).
Qed.

Lemma scan_sst_names_one_group_witness :
  scan_sst_names [sstFile 1 4; sstFile 2 7; sstFile 3 5] =
    Some {| groupFiles := {[ 0 := [sstFile 1 4; sstFile 2 7; sstFile 3 5] ]};
            maxGroupID := 0; maxSSTSeq := 7 |}.
Proof.
  apply (scan_sst_names_one_group [(1, 4); (2, 7); (3, 5)]).
  repeat constructor; cbn; unfold max_int32; lia.
Defined.

End LogNames.

(** * The shared prefix of two keys *)

Section SharedPrefix.
Import GoInt Bytes util.

Lemma SharedPrefixLen_nat a : forall b,
  exists n : nat,
    SharedPrefixLen a b = Z.of_nat n /\
    (n <= length a)%nat /\ (n <= length b)%nat /\
    take n a = take n b /\
    match a !! n, b !! n with
    | Some x, Some y => x <> y
    | _, _ => True
    end.
Proof.
  induction a as [|x a IH]; intros [|y b]; cbn [SharedPrefixLen].
  - exists 0%nat. cbn. repeat split; lia.
  - exists 0%nat. cbn. repeat split; lia.
  - exists 0%nat. cbn. repeat split; lia.
  - destruct (byte_val x =? byte_val y) eqn:E.
    + apply Z.eqb_eq, byte_val_inj in E. subst y.
      destruct (IH b) as (n & Hn & Ha & Hb & Htake & Hnext).
      exists (S n). cbn [length take lookup list_lookup]. rewrite Hn, Htake.
      repeat split; try lia. exact Hnext.
    + exists 0%nat. cbn. repeat split; try lia.
      intros ->. now rewrite Z.eqb_refl in E.
Qed.

(** X7.  [SharedPrefixLen a b] is the length of the longest common prefix: it
    does not exceed either length, the two keys agree on that many bytes,
    and they differ at the next position when both have one. *)
Theorem SharedPrefixLen_spec (a b : bytes) :
  let n := Z.to_nat (SharedPrefixLen a b) in
  0 <= SharedPrefixLen a b /\
  SharedPrefixLen a b <= len a /\ SharedPrefixLen a b <= len b /\
  take n a = take n b /\
  match a !! n, b !! n with
  | Some x, Some y => x <> y
  | _, _ => True
  end.
Proof.
  cbn zeta. destruct (SharedPrefixLen_nat a b) as (n & Hn & Ha & Hb & Htake & Hnext).
  rewrite Hn, Nat2Z.id. unfold len. repeat split; try lia; assumption.
Qed.

End SharedPrefix.

(** * Groups: adding a node, and reading all pairs *)

Section AddingNodes.
Import GoInt Bytes Types SST Grp GroupSpec Engine EngineSpec MoreSpec Concrete.

Lemma move_left_Forall {A} (P : A -> Prop) (less : A -> A -> bool) x l :
  P x -> Forall P l -> Forall P (move_left less x l).
Proof.
  intros Hx. induction 1 as [|y l Hy Hl IH]; cbn [move_left].
  - repeat constructor; assumption.
  - destruct (less x y); repeat constructor; assumption.
Qed.

Lemma move_left_descending x acc :
  StronglySorted (fun a b => le (Start b) (Start a)) acc ->
  StronglySorted (fun a b => le (Start b) (Start a)) (move_left by_start x acc).
Proof.
  induction 1 as [|y rest Hrest IH Hy]; cbn [move_left].
  - repeat constructor.
  - unfold by_start at 1. destruct (Compare (Start x) (Start y) <? 0) eqn:E.
    + apply Z.ltb_lt in E. constructor; [exact IH|].
      apply move_left_Forall; [unfold le; lia|exact Hy].
    + apply Z.ltb_ge in E.
      assert (le (Start y) (Start x)) as Hyx
        by (unfold le; rewrite Compare_antisym; lia).
      constructor; [constructor; assumption|].
      constructor; [exact Hyx|].
      eapply Forall_impl; [exact Hy|]. intros z Hz. cbn in Hz.
      eapply le_trans; eauto.
Qed.

Lemma StronglySorted_snoc {A} (R : A -> A -> Prop) l a :
  StronglySorted R l -> Forall (fun x => R x a) l -> StronglySorted R (l ++ [a]).
Proof.
  induction 1 as [|y l Hl IH Hy]; intros Hall; cbn [app].
  - repeat constructor.
  - inversion Hall as [|? ? Hya Hla]; subst. constructor; [now apply IH|].
    apply Forall_app. split; [exact Hy|]. repeat constructor. exact Hya.
Qed.

Lemma StronglySorted_rev {A} (R : A -> A -> Prop) l :
  StronglySorted R l -> StronglySorted (fun a b => R b a) (rev l).
Proof.
  induction 1 as [|y l Hl IH Hy]; cbn [rev]; [constructor|].
  apply StronglySorted_snoc; [exact IH|].
  apply Forall_forall. intros z Hz. apply list_elem_of_In, in_rev, list_elem_of_In in Hz.
  rewrite Forall_forall in Hy. now apply Hy.
Qed.

Lemma sort_Slice_by_start nodes : sorted_by_start (sort_Slice by_start nodes).
Proof.
  unfold sorted_by_start, sort_Slice.
  apply (StronglySorted_rev (fun a b => le (Start b) (Start a))).
  assert (forall acc,
    StronglySorted (fun a b => le (Start b) (Start a)) acc ->
    StronglySorted (fun a b => le (Start b) (Start a))
      (fold_left (fun sorted_rev x => move_left by_start x sorted_rev) nodes acc)) as Hfold.
  { induction nodes as [|x nodes IH]; intros acc Hacc; [exact Hacc|].
    cbn [fold_left]. apply IH. now apply move_left_descending. }
  apply Hfold. constructor.
Qed.

(** X8.  [AddNode] keeps every node and adds the new one, leaves the nodes in
    ascending order of their start keys, adds the size of the node to the
    size of the group in [uint64] arithmetic, and leaves the aggregate
    range of all nodes; the id and the configuration stay. *)
Theorem AddNode_spec (g : Group) (node : Node) :
  let g' := AddNode g node in
  Permutation (g_nodes g') (g_nodes g ++ [node]) /\
  sorted_by_start (g_nodes g') /\
  g_size g' = uint64 (g_size g + n_size node) /\
  is_range (g_nodes g') (g_startKey g') (g_endKey g') /\
  g_id g' = g_id g /\ g_conf g' = g_conf g.
Proof.
  cbn zeta. repeat split.
  - unfold AddNode, sortNodes, updateKeyRange. cbn [g_nodes]. apply sort_Slice_perm.
  - unfold AddNode, sortNodes, updateKeyRange. cbn [g_nodes]. apply sort_Slice_by_start.
  - apply AddNode_wf.
Qed.

(** X9.  A key inside the range of a group stays inside when a node is added:
    the range of a group only grows. *)
Theorem AddNode_keeps_keys_in_range (g : Group) (node : Node) (key : bytes) :
  group_wf g ->
  keyInRange g key = true ->
  keyInRange (AddNode g node) key = true.
Proof.
  intros Hwf Hin. pose proof (AddNode_wf g node) as Hwf'.
  assert (Permutation (g_nodes (AddNode g node)) (g_nodes g ++ [node])) as Hperm
    by (unfold AddNode, sortNodes, updateKeyRange; cbn [g_nodes]; apply sort_Slice_perm).
  unfold group_wf, is_range in Hwf, Hwf'. unfold keyInRange in *.
  destruct (g_nodes g) as [|n ns] eqn:Hn.
  { destruct Hwf as [Hs _]. rewrite Hs in Hin. discriminate. }
  destruct Hwf as (s & e & Hs & He & Hsin & _ & Hein & _).
  rewrite Hs, He in Hin. apply andb_true_iff in Hin as [Hlo Hhi].
  apply Z.leb_le in Hlo, Hhi.
  destruct (g_nodes (AddNode g node)) as [|n' ns'] eqn:Hn'.
  { apply Permutation_nil in Hperm. discriminate. }
  destruct Hwf' as (s' & e' & -> & -> & _ & Hsall & _ & Heall).
  apply in_map_iff in Hsin as (ns0 & <- & Hns0), Hein as (ne0 & <- & Hne0).
  assert (In ns0 (n' :: ns')) as Hs0
    by (eapply Permutation_in; [symmetry; exact Hperm|apply in_or_app; now left]).
  assert (In ne0 (n' :: ns')) as He0
    by (eapply Permutation_in; [symmetry; exact Hperm|apply in_or_app; now left]).
  specialize (Hsall ns0 Hs0). specialize (Heall ne0 He0).
  assert (le s' key) as H1.
  { eapply le_trans; [exact Hsall|]. unfold le. rewrite Compare_antisym. lia. }
  assert (le key e') as H2 by (eapply le_trans; [|exact Heall]; exact Hhi).
  apply andb_true_iff. split; apply Z.leb_le.
  - unfold le in H1. rewrite Compare_antisym. lia.
  - exact H2.
Qed.

Lemma AddNode_keeps_keys_in_range_witness :
  group_wf two_flushes /\
  keyInRange two_flushes (of_string "b") = true /\
  keyInRange (AddNode two_flushes stranger) (of_string "b") = true.
Proof.
  assert (group_wf two_flushes) as Hwf by apply AddNode_wf.
  assert (keyInRange two_flushes (of_string "b") = true) as Hin by reflexivity.
  split; [exact Hwf|]. split; [exact Hin|].
  exact (AddNode_keeps_keys_in_range two_flushes stranger (of_string "b") Hwf Hin).
Defined.

End AddingNodes.

Section ReadingAll.
Import GoInt Bytes Types SST Grp GroupSpec Engine EngineSpec MoreSpec Concrete.

Lemma GetAllKVs_order_of_nodes_witness :
  Forall2 (fun n d => GetAll n = Ok d) (g_nodes two_flushes) [newer_kvs; older_kvs] /\
  exists merged,
    GetAllKVs two_flushes = Ok merged /\
    ascending_keys merged /\
    forall key, table_Get merged key = last_write (newer_kvs ++ older_kvs ++ []) key ([], false).
Proof.
  assert (Forall2 (fun n d => GetAll n = Ok d) (g_nodes two_flushes) [newer_kvs; older_kvs])
    as Hall by (repeat constructor).
  split; [exact Hall|].
  exact (GetAllKVs_order_of_nodes two_flushes [newer_kvs; older_kvs] Hall).
Defined.

Context {M : Type} `{MemTable M}.

Lemma GetAllKVs_loop_Err before : forall (m : M) bad after datas err,
  Forall2 (fun n d => GetAll n = Ok d) before datas ->
  GetAll bad = Err err ->
  GetAllKVs_loop (before ++ bad :: after) m = Err err.
Proof.
  induction before as [|n before IH]; intros m bad after datas err Hall Hbad.
  - cbn [app GetAllKVs_loop]. now rewrite Hbad.
  - inversion Hall as [|? d ? ds Hn Hrest]; subst.
    cbn [app GetAllKVs_loop]. rewrite Hn. eapply IH; eauto.
Qed.

(** X10.  When a node of the group cannot be read, [GetAllKVs] returns the error
    of the first such node in the order of [g.nodes], and no pairs. *)
Theorem GetAllKVs_first_error (g : Group) before bad after datas err :
  g_nodes g = before ++ bad :: after ->
  Forall2 (fun n d => GetAll n = Ok d) before datas ->
  GetAll bad = Err err ->
  GetAllKVs (M := M) g = Err err.
Proof.
  intros Hg Hall Hbad. unfold GetAllKVs. rewrite Hg.
  now rewrite (GetAllKVs_loop_Err before MemTableConstructor bad after datas err Hall Hbad).
Qed.

End ReadingAll.

Section ReadingAllRun.
Import GoInt Bytes Types SST Grp GroupSpec Engine EngineSpec MoreSpec Concrete.

Lemma GetAllKVs_first_error_witness :
  GetAll unreadable = Err "read error" /\
  GetAllKVs (M := Table) (AddNode (AddNode (NewGroup 1 roomy) readable) unreadable)
    = Err "read error".
Proof.
  split; [reflexivity|].
  apply (GetAllKVs_first_error (M := Table)
           (AddNode (AddNode (NewGroup 1 roomy) readable) unreadable)
           [readable] unreadable [] [[kv "k" "v"]] "read error");
    [reflexivity | repeat constructor | reflexivity].
Defined.

End ReadingAllRun.

(** * A write followed by a read *)

Section WriteThenRead.
Import GoInt Bytes Types SST Grp GroupSpec Engine EngineSpec MoreSpec.
Context {M : Type} `{MemTable M}.

Lemma rOnly_loop_app (items extra : list (@memTableCompactItem M)) key : forall k,
  (k <= length items)%nat ->
  rOnly_loop (items ++ extra) key k = rOnly_loop items key k.
Proof.
  induction k as [|i IH]; intros Hk; [reflexivity|].
  cbn [rOnly_loop]. rewrite lookup_app_l by lia.
  destruct (items !! i) as [item|]; cbn [mbind option_bind]; [|reflexivity].
  destruct (mt_Get _ key) as [value ok]. destruct ok; [reflexivity|]. apply IH. lia.
Qed.

Lemma rOnly_loop_last (items : list (@memTableCompactItem M)) item key :
  rOnly_loop (items ++ [item]) key (length (items ++ [item])) =
  let '(value, ok) := mt_Get (mt_state (item_memTable item)) key in
  if ok then Some (Some value) else rOnly_loop items key (length items).
Proof.
  rewrite length_app. cbn [length]. rewrite Nat.add_1_r. cbn [rOnly_loop].
  rewrite lookup_app_r by lia. rewrite Nat.sub_diag. cbn [lookup list_lookup mbind option_bind].
  destruct (mt_Get _ key) as [value ok]. destruct ok; [reflexivity|].
  apply rOnly_loop_app. lia.
Qed.

(** After a [Put] whose append to the log succeeded, [Get] of the same key
    returns the value just written, whether or not the memtable was
    rotated and whatever the segments hold. *)
Lemma Put_Get_same (t : @Tree M) (key value : bytes) :
  memtable_laws M ->
  Tree_Get (Put t key value None).1 key = Some (hit value).
Proof.
  intros [Hsame Hother Hnew]. unfold Put, WALWriter_Write.
  cbn [set_walWriter set_memTable t_memTable t_conf mt_state mt_addr].
  destruct (below_threshold _ _); cbn [fst].
  - unfold Tree_Get. cbn [t_memTable mt_state set_memTable]. now rewrite Hsame.
  - unfold Tree_Get, refreshMemTableLocked, newMemTable.
    cbn [t_memTable mt_state set_memTable set_next_addr set_walWriter set_memTableIndex
         set_memCompactC set_rOnlyMemTable t_rOnlyMemTable t_groups].
    specialize (Hnew key).
    destruct (mt_Get (MemTableConstructor : M) key) as [v0 ok0]. cbn [snd] in Hnew. subst ok0.
    rewrite rOnly_loop_last. cbn [item_memTable mt_state]. rewrite Hsame.
    reflexivity.
Qed.

(** A [Put] does not change what [Get] returns for any other key, with or
    without rotation, and whether or not the append to the log succeeded. *)
Lemma Put_Get_other (t : @Tree M) (key value key' : bytes) (io : option error) :
  memtable_laws M ->
  key <> key' ->
  Tree_Get (Put t key value io).1 key' = Tree_Get t key'.
Proof.
  intros [Hsame Hother Hnew] Hne. unfold Put, WALWriter_Write.
  destruct io as [err|]; [reflexivity|].
  cbn [set_walWriter set_memTable t_memTable t_conf mt_state mt_addr].
  destruct (below_threshold _ _); cbn [fst].
  - unfold Tree_Get. cbn [t_memTable mt_state set_memTable t_rOnlyMemTable t_groups].
    now rewrite (Hother key value _ key' Hne).
  - unfold Tree_Get, refreshMemTableLocked, newMemTable.
    cbn [t_memTable mt_state set_memTable set_next_addr set_walWriter set_memTableIndex
         set_memCompactC set_rOnlyMemTable t_rOnlyMemTable t_groups].
    specialize (Hnew key').
    destruct (mt_Get (MemTableConstructor : M) key') as [v0 ok0]. cbn [snd] in Hnew. subst ok0.
    rewrite rOnly_loop_last. cbn [item_memTable mt_state].
    rewrite (Hother key value _ key' Hne).
    destruct (mt_Get (mt_state (t_memTable t)) key') as [v ok].
    destruct ok; reflexivity.
Qed.

(** X11.  Read your writes: after any sequence of calls of [Put], with or
    without rotations of the memtable in between, [Get] returns for every
    key the value of the last [Put] of that key that was acknowledged; a
    [Put] whose append to the log failed does not count; and for a key
    that was not written the answer is the one from before. *)
Theorem Get_after_Puts (t : @Tree M) (writes : list (KV * option error)) (key : bytes) :
  memtable_laws M ->
  Tree_Get (Puts t writes) key =
  match last_acknowledged writes key with
  | Some value => Some (hit value)
  | None => Tree_Get t key
  end.
Proof.
  intros Hlaws. revert t. induction writes as [|[kv io] writes IH]; intros t; [reflexivity|].
  unfold Puts in *. cbn [fold_left last_acknowledged fst snd]. rewrite IH.
  destruct (last_acknowledged writes key) as [value|]; [reflexivity|].
  destruct io as [err|]; [reflexivity|].
  destruct (Equal (KV_Key kv) key) eqn:E.
  - apply Equal_true in E. subst key. now apply Put_Get_same.
  - apply Put_Get_other; [exact Hlaws|]. intros Heq. apply Equal_true in Heq. congruence.
Qed.

End WriteThenRead.

Section WriteThenReadRun.
Import GoInt Bytes Types SST Grp GroupSpec Engine EngineSpec MoreSpec Concrete.

(** The sorted table satisfies the three facts. *)
Lemma Table_laws : memtable_laws Table.
Proof.
  split.
  - intros key value m. apply table_Get_Put_same.
  - intros key value m key' Hne. now apply table_Get_Put_other.
  - intros key. reflexivity.
Qed.

Lemma Get_after_Puts_witness :
  memtable_laws Table /\
  Tree_Get (Puts walk_0 [(kv "b" "x", None); (kv "c" "old", None);
                         (kv "c" "lost", Some "disk full"%string); (kv "a" "y", None)])
           (of_string "c")
    = Some (hit (of_string "old")).
Proof.
  split; [exact Table_laws|].
  exact (Get_after_Puts walk_0 [(kv "b" "x", None); (kv "c" "old", None);
                                (kv "c" "lost", Some "disk full"%string); (kv "a" "y", None)]
           (of_string "c") Table_laws).
Defined.

End WriteThenReadRun.

(** * What the compactor leaves alone *)

Section Frames.
Import GoInt Bytes Types SST Grp GroupSpec Engine EngineSpec MoreSpec.
Context {M : Type} `{MemTable M}.

Lemma counters_moved_refl (t : @Tree M) : counters_moved t t.
Proof. split; [now destruct t|reflexivity]. Qed.

Lemma counters_moved_trans (a b c : @Tree M) :
  counters_moved a b -> counters_moved b c -> counters_moved a c.
Proof.
  unfold counters_moved. destruct a, b, c. cbn. intros [Hab Lab] [Hbc Lbc].
  split; [|lia]. injection Hab. injection Hbc. intros. subst. reflexivity.
Qed.

Lemma counters_moved_sstSeq (t : @Tree M) s : counters_moved t (set_sstSeq t s).
Proof. split; [now destruct t|reflexivity]. Qed.

Lemma counters_moved_fields (t t' : @Tree M) :
  counters_moved t t' ->
  write_side_kept t t' /\ t_groups t' = t_groups t /\ t_groupSeq t' = t_groupSeq t /\
  t_groupCompactC t' = t_groupCompactC t.
Proof.
  intros [Heq Hle]. unfold write_side_kept, write_side.
  destruct t, t'. cbn in *. injection Heq. intros. subst. repeat split. exact Hle.
Qed.

Lemma write_side_kept_refl (t : @Tree M) : write_side_kept t t.
Proof. repeat split. reflexivity. Qed.

Lemma write_side_kept_trans (a b c : @Tree M) :
  write_side_kept a b -> write_side_kept b c -> write_side_kept a c.
Proof.
  intros (Hw1 & Hc1 & Hl1) (Hw2 & Hc2 & Hl2). split; [congruence|]. split; [congruence|lia].
Qed.

Lemma createNodeFromSST_moved io (t : @Tree M) groupID seq kvs size filter index t' node :
  createNodeFromSST io t groupID seq kvs size filter index = Some (t', node) ->
  counters_moved t t'.
Proof.
  unfold createNodeFromSST. destruct (NewSSTReader _ _ _).
  - destruct (NewNode _ _ _ _ _ _ _ _ _); cbn; [|discriminate].
    intros [= <- _]. split; [now destruct t|cbn; lia].
  - intros [= <- _]. apply counters_moved_refl.
Qed.

Lemma finish_file_moved io groupID (c c' : @compaction M) :
  finish_file io groupID c = Some c' -> counters_moved (c_tree c) (c_tree c').
Proof.
  unfold finish_file. destruct (Finish io _ _) as [[size filter] index].
  destruct (createNodeFromSST io _ _ _ _ _ _ _) as [[t1 newNode]|] eqn:Hcreate;
    cbn [mbind option_bind]; [|discriminate].
  apply createNodeFromSST_moved in Hcreate. now intros [= <-].
Qed.

Lemma compact_round_moved io conf groupID (c c' : @compaction M) kv is_last :
  compact_round io conf groupID c kv is_last = Some c' ->
  counters_moved (c_tree c) (c_tree c').
Proof.
  unfold compact_round.
  destruct (_ && _).
  - destruct (finish_file io groupID c) as [c0|] eqn:Hfin; cbn [mbind option_bind];
      [|discriminate].
    apply finish_file_moved in Hfin.
    assert (counters_moved (c_tree c) (set_sstSeq (c_tree c0) (int32 (t_sstSeq (c_tree c0) + 1))))
      as Hseq by (eapply counters_moved_trans; [exact Hfin|apply counters_moved_sstSeq]).
    destruct (NewSSTWriter_err io _); cbn [mbind option_bind c_broken c_tree].
    + now intros [= <-].
    + destruct is_last.
      * intros Hc. apply finish_file_moved in Hc. cbn [c_tree] in Hc.
        eapply counters_moved_trans; eauto.
      * now intros [= <-].
  - cbn [mbind option_bind]. destruct (c_broken c); [intros [= <-]; apply counters_moved_refl|].
    destruct is_last.
    + intros Hc. now apply finish_file_moved in Hc.
    + intros [= <-]. apply counters_moved_refl.
Qed.

Lemma compact_loop_moved io conf groupID allKVs : forall (c c' : @compaction M),
  compact_loop io conf groupID c allKVs = Some c' ->
  counters_moved (c_tree c) (c_tree c').
Proof.
  induction allKVs as [|kv rest IH]; intros c c'; cbn [compact_loop].
  - intros [= <-]. apply counters_moved_refl.
  - destruct (compact_round io conf groupID c kv _) as [c1|] eqn:Hround;
      cbn [mbind option_bind]; [|discriminate].
    apply compact_round_moved in Hround.
    destruct (c_broken c1).
    + now intros [= <-].
    + intros Hloop. apply IH in Hloop. eapply counters_moved_trans; eauto.
Qed.

Lemma RemoveNode_loop_id g node rest : forall i,
  g_id (RemoveNode_loop g node i rest).1 = g_id g.
Proof.
  induction rest as [|n rest IH]; intros i; cbn [RemoveNode_loop]; [reflexivity|].
  destruct (same_node n node); [reflexivity|apply IH].
Qed.

Lemma fold_RemoveNode_id oldNodes : forall g,
  g_id (fold_left (fun g oldNode => (RemoveNode g oldNode).1) oldNodes g) = g_id g.
Proof.
  induction oldNodes as [|n ns IH]; intros g; [reflexivity|]. cbn [fold_left].
  rewrite IH. apply RemoveNode_loop_id.
Qed.

Lemma fold_AddNode_id newNodes : forall g, g_id (fold_left AddNode newNodes g) = g_id g.
Proof.
  induction newNodes as [|n ns IH]; intros g; [reflexivity|]. cbn [fold_left].
  now rewrite IH.
Qed.

Lemma group_with_id_Some groups groupID : forall base i,
  group_with_id groups groupID base = Some i ->
  (base <= i)%nat /\ exists g, groups !! (i - base)%nat = Some g /\ g_id g = groupID.
Proof.
  induction groups as [|g groups IH]; intros base i; cbn [group_with_id]; [discriminate|].
  destruct (g_id g =? groupID) eqn:E.
  - intros [= <-]. split; [lia|]. rewrite Nat.sub_diag. exists g. split; [reflexivity|lia].
  - intros Hrest. apply IH in Hrest as (Hle & g' & Hg' & Hid). split; [lia|].
    exists g'. split; [|exact Hid].
    replace (i - base)%nat with (S (i - S base)) by lia. exact Hg'.
Qed.

Lemma group_with_id_None groups groupID : forall base,
  group_with_id groups groupID base = None -> Forall (fun g => g_id g <> groupID) groups.
Proof.
  induction groups as [|g groups IH]; intros base; cbn [group_with_id]; [constructor|].
  destruct (g_id g =? groupID) eqn:E; [discriminate|].
  intros Hrest. constructor; [lia|eauto].
Qed.

(** The compactor of a group: the counters move, and at most the first
    group with the id is replaced by a group of the same id. *)
Lemma compactGroup_shape io (t t' : @Tree M) groupID :
  compactGroup io t groupID = Some t' ->
  exists tc, counters_moved t tc /\
    (t' = tc \/
     exists i group g',
       group_with_id (t_groups t) groupID 0 = Some i /\ t_groups t !! i = Some group /\
       g_id g' = g_id group /\ t' = set_groups tc (<[i := g']> (t_groups t))).
Proof.
  unfold compactGroup.
  destruct (group_with_id _ _ _) as [i|] eqn:Hi;
    [|intros [= <-]; exists t; split; [apply counters_moved_refl|now left]].
  destruct (t_groups t !! i) as [targetGroup|] eqn:Hgroup; cbn [mbind option_bind];
    [|discriminate].
  destruct (_ <=? 1); [intros [= <-]; exists t; split; [apply counters_moved_refl|now left]|].
  destruct (GetAllKVs targetGroup) as [[|kv allKVs]|];
    try (intros [= <-]; exists t; split; [apply counters_moved_refl|now left]).
  destruct (NewSSTWriter_err io _).
  { intros [= <-]. eexists. split; [apply counters_moved_sstSeq|now left]. }
  destruct (compact_loop io _ _ _ _) as [c|] eqn:Hloop; cbn [mbind option_bind];
    [|discriminate].
  apply compact_loop_moved in Hloop. cbn [c_tree] in Hloop.
  assert (counters_moved t (c_tree c)) as Hmoved
    by (eapply counters_moved_trans; [apply counters_moved_sstSeq|exact Hloop]).
  destruct (counters_moved_fields _ _ Hmoved) as (_ & Hgroups & _).
  intros [= <-]. exists (c_tree c). split; [exact Hmoved|]. right.
  unfold replaceGroupNodes. rewrite Hgroups, Hgroup.
  eexists i, targetGroup, _. split; [reflexivity|]. split; [exact Hgroup|].
  split; [|reflexivity]. rewrite fold_AddNode_id. apply fold_RemoveNode_id.
Qed.

Lemma compactGroup_kept io (t t' : @Tree M) groupID :
  compactGroup io t groupID = Some t' ->
  write_side_kept t t' /\
  t_groupSeq t' = t_groupSeq t /\
  t_groupCompactC t' = t_groupCompactC t /\
  map g_id (t_groups t') = map g_id (t_groups t) /\
  (forall j g, t_groups t !! j = Some g -> g_id g <> groupID -> t_groups t' !! j = Some g).
Proof.
  intros Hrun. apply compactGroup_shape in Hrun as (tc & Hmoved & Hcase).
  destruct (counters_moved_fields _ _ Hmoved) as (Hkept & Hgroups & Hseq & Hchan).
  destruct Hcase as [->|(i & group & g' & Hi & Hgroup & Hid & ->)].
  - split; [exact Hkept|]. split; [exact Hseq|]. split; [exact Hchan|].
    split; [now rewrite Hgroups|]. intros j g Hj _. now rewrite Hgroups.
  - split; [exact Hkept|]. split; [exact Hseq|]. split; [exact Hchan|].
    cbn [t_groups set_groups]. split.
    + rewrite list_fmap_insert. apply list_insert_id.
      rewrite list_lookup_fmap, Hgroup. cbn. now rewrite Hid.
    + intros j g Hj Hne. rewrite list_lookup_insert_ne; [exact Hj|].
      intros <-. apply group_with_id_Some in Hi as (_ & g0 & Hg0 & Hid0).
      rewrite Nat.sub_0_r in Hg0. congruence.
Qed.

(** X12.  A compaction of a group leaves the memtables, the log, both queues
    and the configuration as they are, creates and removes no group and
    changes no id, and touches no group with another id.  When no group
    has the id, or every group with the id has at most one segment, the
    tree is returned unchanged. *)
Theorem compactGroup_frame (io : SSTIO) (t t' : @Tree M) (groupID : Z) :
  compactGroup io t groupID = Some t' ->
  write_side t' = write_side t /\
  t_conf t' = t_conf t /\
  t_groupSeq t' = t_groupSeq t /\
  t_groupCompactC t' = t_groupCompactC t /\
  map g_id (t_groups t') = map g_id (t_groups t) /\
  (forall j g, t_groups t !! j = Some g -> g_id g <> groupID -> t_groups t' !! j = Some g) /\
  (Forall (fun g => g_id g = groupID -> len (g_nodes g) <= 1) (t_groups t) -> t' = t).
Proof.
  intros Hrun.
  destruct (compactGroup_kept _ _ _ _ Hrun) as ((Hw & Hc & _) & Hseq & Hchan & Hids & Hother).
  repeat (split; [assumption|]).
  intros Hfew. revert Hrun. unfold compactGroup.
  destruct (group_with_id _ _ _) as [i|] eqn:Hi; [|now intros [= <-]].
  apply group_with_id_Some in Hi as (_ & g & Hg & Hid). rewrite Nat.sub_0_r in Hg.
  rewrite Hg. cbn [mbind option_bind].
  rewrite Forall_forall in Hfew.
  assert (len (g_nodes g) <= 1) as Hle
    by (apply Hfew; [eapply list_elem_of_lookup_2; eauto|exact Hid]).
  apply Z.leb_le in Hle. rewrite Hle. now intros [= <-].
Qed.

(** ** The flush *)

Lemma findOrCreateGroup_kept (t : @Tree M) startKey endKey :
  let t1 := (findOrCreateGroup t startKey endKey).1 in
  write_side_kept t t1 /\ t_groupCompactC t1 = t_groupCompactC t /\
  exists added, t_groups t1 = t_groups t ++ added.
Proof.
  unfold findOrCreateGroup.
  assert (let t1 := (create_group t).1 in
          write_side_kept t t1 /\ t_groupCompactC t1 = t_groupCompactC t /\
          exists added, t_groups t1 = t_groups t ++ added) as Hcreate.
  { cbn. split; [repeat split; cbn; lia|]. split; [reflexivity|]. eexists. reflexivity. }
  assert (write_side_kept t t /\ t_groupCompactC t = t_groupCompactC t /\
          exists added, t_groups t = t_groups t ++ added) as Hsame.
  { split; [apply write_side_kept_refl|]. split; [reflexivity|]. exists []. now rewrite app_nil_r. }
  destruct (first_accepting _ _ _ _ _); [exact Hsame|].
  destruct (_ <? _); [exact Hcreate|]. destruct (_ <? _); [exact Hsame|exact Hcreate].
Qed.

Lemma AddNode_nodes g node : g_nodes g ⊆ g_nodes (AddNode g node).
Proof.
  intros n Hn. cbn [AddNode sortNodes updateKeyRange g_nodes].
  rewrite (sort_Slice_perm _ (g_nodes g ++ [node])). apply elem_of_app. now left.
Qed.

Lemma flushMemTable_shape io (t t' : @Tree M) memTable :
  flushMemTable io t memTable = Some t' ->
  write_side_kept t t' /\
  (exists ids, t_groupCompactC t' = t_groupCompactC t ++ ids /\ (length ids <= 1)%nat /\
               Forall (fun id => Exists (fun g => g_id g = id /\ ShouldCompact g = true)
                                        (t_groups t')) ids) /\
  (forall j g, t_groups t !! j = Some g ->
     exists g', t_groups t' !! j = Some g' /\ g_id g' = g_id g /\ g_nodes g ⊆ g_nodes g').
Proof.
  assert (forall (chan : list Z) (groups : list Group),
            exists ids, chan = chan ++ ids /\ (length ids <= 1)%nat /\
              Forall (fun id => Exists (fun g => g_id g = id /\ ShouldCompact g = true)
                                       groups) ids) as Hnone.
  { intros chan groups. exists []. rewrite app_nil_r. repeat split; [cbn; lia|constructor]. }
  unfold flushMemTable.
  destruct (mt_All (mt_state memTable)) as [|first kvs].
  { intros [= <-]. split; [apply write_side_kept_refl|]. split; [apply Hnone|]. eauto. }
  destruct (last (first :: kvs)) as [final|].
  2:{ intros [= <-]. split; [apply write_side_kept_refl|]. split; [apply Hnone|]. eauto. }
  pose proof (findOrCreateGroup_kept t (KV_Key first) (KV_Key final)) as Hfind.
  destruct (findOrCreateGroup t (KV_Key first) (KV_Key final)) as [t1 i].
  cbn [fst] in Hfind. destruct Hfind as (Hk1 & Hc1 & added & Hg1).
  assert (forall j g, t_groups t !! j = Some g -> t_groups t1 !! j = Some g) as Hprefix.
  { intros j g Hj. rewrite Hg1. now apply lookup_app_l_Some. }
  destruct (t_groups t1 !! i) as [group|] eqn:Hgroup; cbn [mbind option_bind]; [|discriminate].
  destruct (NewSSTWriter_err io _).
  { intros [= <-]. split; [exact Hk1|]. cbn [t_groupCompactC set_sstSeq t_groups].
    split; [rewrite Hc1; apply Hnone|]. intros j g Hj. exists g. eauto. }
  destruct (Finish io _ _) as [[size filter] index].
  destruct (createNodeFromSST io _ _ _ _ _ _ _) as [[t3 newNode]|] eqn:Hcreate;
    cbn [mbind option_bind]; [|discriminate].
  apply createNodeFromSST_moved in Hcreate.
  assert (counters_moved t1 t3) as Hmoved
    by (eapply counters_moved_trans; [apply counters_moved_sstSeq|exact Hcreate]).
  destruct (counters_moved_fields _ _ Hmoved) as (Hk3 & Hg3 & _ & Hc3).
  assert (write_side_kept t t3) as Hkept by (eapply write_side_kept_trans; eauto).
  destruct newNode as [node|]; intros [= <-].
  - unfold add_node_at. rewrite Hg3, Hgroup.
    split; [|split].
    + unfold tryTriggerGroupCompact. destruct (shall_compact _ _); exact Hkept.
    + unfold tryTriggerGroupCompact.
      destruct (shall_compact _ _) eqn:Hshall.
      * cbn [t_groupCompactC set_groupCompactC set_groups t_groups].
        rewrite Hc3, Hc1. exists [g_id group]. split; [reflexivity|]. split; [cbn; lia|].
        constructor; [|constructor]. revert Hshall.
        cbn [t_groups set_groups].
        generalize (<[i:=AddNode group node]> (t_groups t1)). intros groups.
        induction groups as [|g groups IH]; cbn [shall_compact]; [discriminate|].
        destruct ((g_id g =? g_id group) && ShouldCompact g) eqn:E.
        -- intros _. apply andb_true_iff in E as [Eid Eshould]. left. split; [lia|exact Eshould].
        -- intros Hrest. right. now apply IH.
      * cbn [t_groupCompactC set_groups t_groups]. rewrite Hc3, Hc1. apply Hnone.
    + intros j g Hj. apply Hprefix in Hj.
      assert (t_groups (tryTriggerGroupCompact (set_groups t3 (<[i:=AddNode group node]> (t_groups t1)))
                                               (g_id group))
              = <[i:=AddNode group node]> (t_groups t1)) as ->
        by (unfold tryTriggerGroupCompact; destruct (shall_compact _ _); reflexivity).
      destruct (decide (i = j)) as [->|Hne].
      * exists (AddNode group node). rewrite list_lookup_insert_eq by (eapply lookup_lt_Some; eauto).
        split; [reflexivity|]. assert (g = group) as -> by congruence.
        split; [reflexivity|apply AddNode_nodes].
      * exists g. rewrite list_lookup_insert_ne by exact Hne. eauto.
  - split; [exact Hkept|]. split.
    + rewrite Hc3, Hc1. apply Hnone.
    + intros j g Hj. rewrite Hg3. exists g. eauto.
Qed.

(** X13.  A flush leaves the memtables, the log, the queue of frozen tables and
    the configuration as they are; it asks for the compaction of at most
    one group, one that holds enough segments; every group that was there
    is still at its position, with its id and with all its segments; and a
    memtable without pairs changes nothing at all. *)
Theorem flushMemTable_frame (io : SSTIO) (t t' : @Tree M) (memTable : MemTableObj) :
  flushMemTable io t memTable = Some t' ->
  write_side t' = write_side t /\
  t_conf t' = t_conf t /\
  (exists ids, t_groupCompactC t' = t_groupCompactC t ++ ids /\ (length ids <= 1)%nat /\
               Forall (fun id => Exists (fun g => g_id g = id /\ ShouldCompact g = true)
                                        (t_groups t')) ids) /\
  (forall j g, t_groups t !! j = Some g ->
     exists g', t_groups t' !! j = Some g' /\ g_id g' = g_id g /\ g_nodes g ⊆ g_nodes g') /\
  (mt_All (mt_state memTable) = [] -> t' = t).
Proof.
  intros Hrun. destruct (flushMemTable_shape _ _ _ _ Hrun) as ((Hw & Hc & _) & Hchan & Hgroups).
  repeat (split; [assumption|]).
  intros Hempty. revert Hrun. unfold flushMemTable. rewrite Hempty. now intros [= <-].
Qed.

End Frames.

(** * What holds in every state the engine reaches *)

Section Invariants.
Import GoInt Bytes Types SST Grp GroupSpec Engine EngineSpec MoreSpec.
Context {M : Type} `{MemTable M}.

(** ** The log of the active memtable *)

Lemma put_all_snoc (m : M) kvs key value :
  put_all m (kvs ++ [{| KV_Key := key; KV_Value := value |}]) = mt_Put key value (put_all m kvs).
Proof. unfold put_all. now rewrite fold_left_app. Qed.

Lemma walFile_kept (t t' : @Tree M) :
  t_conf t' = t_conf t -> t_memTableIndex t' = t_memTableIndex t -> walFile t' = walFile t.
Proof. unfold walFile. now intros -> ->. Qed.

Lemma write_side_kept_fields (t t' : @Tree M) :
  write_side_kept t t' ->
  t_memTable t' = t_memTable t /\ t_rOnlyMemTable t' = t_rOnlyMemTable t /\
  t_walWriter t' = t_walWriter t /\ t_memTableIndex t' = t_memTableIndex t /\
  t_memCompactC t' = t_memCompactC t /\ t_conf t' = t_conf t /\
  (t_next_addr t <= t_next_addr t')%N.
Proof.
  unfold write_side_kept, write_side. intros (Hw & Hc & Hl).
  injection Hw. intros. repeat split; assumption.
Qed.

(** What a step of the compactor does to the fields of the write path. *)
Lemma compactMemTable_kept io (t t' : @Tree M) item :
  compactMemTable io t item = Some t' ->
  t_memTable t' = t_memTable t /\
  t_rOnlyMemTable t' = drop_item (t_rOnlyMemTable t) (item_memTable item) /\
  t_walWriter t' = t_walWriter t /\ t_memTableIndex t' = t_memTableIndex t /\
  t_memCompactC t' = t_memCompactC t /\ t_conf t' = t_conf t /\
  (t_next_addr t <= t_next_addr t')%N.
Proof.
  unfold compactMemTable.
  destruct (flushMemTable io t _) as [t1|] eqn:Hflush; cbn [mbind option_bind]; [|discriminate].
  apply flushMemTable_shape in Hflush as (Hkept & _).
  apply write_side_kept_fields in Hkept as (Hm & Hr & Hw & Hi & Hc & Hconf & Hle).
  intros [= <-]. cbn. rewrite Hr. repeat split; assumption.
Qed.

(** X14.  The log that is open for writing holds, in order, exactly the writes
    that were applied to the active memtable: replaying it into a new
    memtable, as the recovery does, gives the active memtable.  The log is
    the file [walFile] names, and it is not closed. *)
Theorem reachable_log_replays (io : SSTIO) (conf : Config) (t : @Tree M) :
  reachable io conf t ->
  mt_state (t_memTable t) = put_all MemTableConstructor (wal_written (t_walWriter t)) /\
  wal_file (t_walWriter t) = walFile t /\
  wal_closed (t_walWriter t) = false.
Proof.
  induction 1 as [|t t' Hreach (IHm & IHf & IHc) Hstep].
  - repeat split.
  - destruct Hstep as [t key value wal_io | t before item after t' Hc Hrun
                      | t before groupID after t' Hc Hrun].
    + unfold Put, WALWriter_Write. destruct wal_io as [err|]; [repeat split; assumption|].
      cbn [set_walWriter set_memTable t_memTable t_conf mt_state mt_addr].
      destruct (below_threshold _ _); cbn [fst].
      * cbn [t_memTable t_walWriter set_memTable set_walWriter mt_state wal_written
             wal_file wal_closed].
        rewrite put_all_snoc, IHm. repeat split; assumption.
      * repeat split.
    + apply compactMemTable_kept in Hrun as (Hm & _ & Hw & Hi & _ & Hconf & _).
      cbn in Hm, Hw, Hi, Hconf. rewrite Hm, Hw, (walFile_kept t t') by assumption.
      repeat split; assumption.
    + apply compactGroup_kept in Hrun as (Hkept & _).
      apply write_side_kept_fields in Hkept as (Hm & _ & Hw & Hi & _ & Hconf & _).
      cbn in Hm, Hw, Hi, Hconf. rewrite Hm, Hw, (walFile_kept t t') by assumption.
      repeat split; assumption.
Qed.

(** ** The frozen memtables *)

Lemma drop_item_split (before after : list (@memTableCompactItem M)) item :
  Forall (fun other => item_addr other <> item_addr item) before ->
  drop_item (before ++ item :: after) (item_memTable item) = before ++ after.
Proof.
  induction before as [|other before IH]; intros Hall; cbn [drop_item app].
  - now rewrite N.eqb_refl.
  - inversion Hall as [|? ? Hne Hrest]; subst.
    destruct (N.eqb _ _) eqn:E; [apply N.eqb_eq in E; contradiction|].
    now rewrite IH.
Qed.

Lemma reachable_tables (io : SSTIO) (conf : Config) (t : @Tree M) :
  reachable io conf t ->
  Permutation (t_rOnlyMemTable t) (t_memCompactC t) /\
  NoDup (table_addrs t) /\
  Forall (fun a => (a < t_next_addr t)%N) (table_addrs t).
Proof.
  unfold table_addrs.
  induction 1 as [|t t' Hreach (IHp & IHn & IHa) Hstep].
  - cbn. split; [constructor|]. split; [repeat constructor; set_solver|].
    repeat constructor.
  - destruct Hstep as [t key value wal_io | t before item after t' Hc Hrun
                      | t before groupID after t' Hc Hrun].
    + unfold Put, WALWriter_Write. destruct wal_io as [err|]; [repeat split; assumption|].
      cbn [set_walWriter set_memTable t_memTable t_conf mt_state mt_addr].
      destruct (below_threshold _ _); cbn [fst].
      * cbn. repeat split; assumption.
      * cbn. rewrite map_app. cbn [map]. unfold item_addr at 2 4. cbn [item_memTable mt_addr].
        assert (Permutation (map item_addr (t_rOnlyMemTable t) ++ [mt_addr (t_memTable t)])
                            (mt_addr (t_memTable t) :: map item_addr (t_rOnlyMemTable t)))
          as Hperm by (symmetry; apply Permutation_cons_append).
        split; [now apply Permutation_app_tail|]. split.
        -- constructor.
           ++ rewrite Hperm. intros Hin. rewrite Forall_forall in IHa.
              apply IHa in Hin. lia.
           ++ now rewrite Hperm.
        -- constructor; [lia|]. rewrite Hperm.
           eapply Forall_impl; [exact IHa|]. cbn. intros a Ha. lia.
    + apply compactMemTable_kept in Hrun as (Hm & Hr & _ & _ & Hchan & _ & Hle).
      cbn in Hm, Hr, Hchan, Hle. rewrite Hm, Hr, Hchan.
      rewrite Hc in IHp.
      assert (item ∈ t_rOnlyMemTable t) as Hin by (rewrite IHp; set_solver).
      apply list_elem_of_split in Hin as (l1 & l2 & Hsplit).
      rewrite Hsplit in IHp, IHn, IHa |- *.
      rewrite map_app in IHn, IHa. cbn [map] in IHn, IHa.
      assert (Permutation (mt_addr (t_memTable t) :: map item_addr l1 ++ item_addr item :: map item_addr l2)
                          (item_addr item :: mt_addr (t_memTable t) :: map item_addr (l1 ++ l2)))
        as Hperm.
      { rewrite map_app. rewrite <- Permutation_middle. apply perm_swap. }
      rewrite Hperm in IHn, IHa.
      apply NoDup_cons in IHn as [Hnotin IHn].
      apply Forall_cons in IHa as [_ IHa].
      rewrite drop_item_split.
      * split; [eapply Permutation_app_inv; exact IHp|]. split; [exact IHn|].
        eapply Forall_impl; [exact IHa|]. cbn. intros a Ha. lia.
      * apply Forall_forall. intros other Hother Heq. apply Hnotin.
        right. rewrite map_app. apply elem_of_app. left.
        rewrite <- Heq. now apply list_elem_of_fmap_2.
    + apply compactGroup_kept in Hrun as (Hkept & _).
      apply write_side_kept_fields in Hkept as (Hm & Hr & _ & _ & Hchan & _ & Hle).
      cbn in Hm, Hr, Hchan, Hle. rewrite Hm, Hr, Hchan.
      split; [exact IHp|]. split; [exact IHn|].
      eapply Forall_impl; [exact IHa|]. cbn. intros a Ha. lia.
Qed.

(** X15.  The frozen memtables that [Get] still reads are exactly the ones
    queued for a flush, each once: a flush takes its own table, and only
    that one, out of the list.  No two of the tables share an address.  So
    once no flush is pending, no frozen memtable is left. *)
Theorem reachable_frozen_tables (io : SSTIO) (conf : Config) (t : @Tree M) :
  reachable io conf t ->
  Permutation (t_rOnlyMemTable t) (t_memCompactC t) /\
  NoDup (mt_addr (t_memTable t) :: map item_addr (t_rOnlyMemTable t)) /\
  (t_memCompactC t = [] -> t_rOnlyMemTable t = []).
Proof.
  intros Hreach. destruct (reachable_tables io conf t Hreach) as (Hperm & Hnodup & _).
  split; [exact Hperm|]. split; [exact Hnodup|].
  intros Hnone. rewrite Hnone in Hperm. now apply Permutation_nil_r.
Qed.

(** ** The groups *)

Lemma ids_in_order_snoc groups g :
  ids_in_order groups -> g_id g = len groups + 1 -> ids_in_order (groups ++ [g]).
Proof.
  unfold ids_in_order, len. intros Hids Hg.
  rewrite map_app, length_app. cbn [length map]. rewrite Nat.add_1_r, seq_S, map_app, Hids.
  cbn [map]. f_equal. f_equal. lia.
Qed.

Lemma ids_in_order_same groups groups' :
  map g_id groups' = map g_id groups -> ids_in_order groups -> ids_in_order groups'.
Proof.
  unfold ids_in_order. intros Hmap Hids.
  assert (length groups' = length groups) as Hlen
    by (rewrite <- (length_map g_id groups'), Hmap; apply length_map).
  now rewrite Hmap, Hlen.
Qed.

Lemma groups_numbered_same conf (t t' : @Tree M) :
  t_conf t' = t_conf t -> t_groupSeq t' = t_groupSeq t ->
  map g_id (t_groups t') = map g_id (t_groups t) ->
  groups_numbered conf t -> groups_numbered conf t'.
Proof.
  unfold groups_numbered, len. intros Hc Hs Hmap (Hconf & Hcount & Hids & Hseq).
  assert (length (t_groups t') = length (t_groups t)) as Hlen
    by (rewrite <- (length_map g_id (t_groups t')), Hmap; apply length_map).
  rewrite Hc, Hs, Hlen. repeat split; try assumption.
  eapply ids_in_order_same; eauto.
Qed.

Lemma findOrCreateGroup_numbered conf (t : @Tree M) startKey endKey :
  0 < MaxGroups conf <= max_int32 ->
  groups_numbered conf t -> groups_numbered conf (findOrCreateGroup t startKey endKey).1.
Proof.
  intros Hmax Hnum. unfold findOrCreateGroup.
  destruct (first_accepting _ _ _ _ _); [exact Hnum|].
  destruct Hnum as (Hconf & Hcount & Hids & Hseq).
  destruct (len (t_groups t) <? MaxGroups (t_conf t)) eqn:Hroom.
  - apply Z.ltb_lt in Hroom. rewrite Hconf in Hroom.
    unfold groups_numbered, create_group. cbn. rewrite Hseq.
    assert (0 <= len (t_groups t)) as Hnn by (unfold len; lia).
    unfold max_int32 in Hmax. rewrite int32_id by lia.
    split; [exact Hconf|]. split; [unfold len in *; rewrite length_app; cbn [length]; lia|].
    split; [apply ids_in_order_snoc; [exact Hids|reflexivity]|].
    unfold len. rewrite length_app. cbn [length]. lia.
  - apply Z.ltb_ge in Hroom. rewrite Hconf in Hroom.
    destruct (0 <? len (t_groups t)) eqn:Hsome; [repeat split; assumption|].
    apply Z.ltb_ge in Hsome. lia.
Qed.

Lemma flushMemTable_numbered io conf (t t' : @Tree M) memTable :
  0 < MaxGroups conf <= max_int32 ->
  groups_numbered conf t ->
  flushMemTable io t memTable = Some t' ->
  groups_numbered conf t'.
Proof.
  intros Hmax Hnum. unfold flushMemTable.
  destruct (mt_All (mt_state memTable)) as [|first kvs]; [now intros [= <-]|].
  destruct (last (first :: kvs)) as [final|]; [|now intros [= <-]].
  pose proof (findOrCreateGroup_numbered conf t (KV_Key first) (KV_Key final) Hmax Hnum) as Hfind.
  destruct (findOrCreateGroup t (KV_Key first) (KV_Key final)) as [t1 i].
  cbn [fst] in Hfind.
  destruct (t_groups t1 !! i) as [group|] eqn:Hgroup; cbn [mbind option_bind]; [|discriminate].
  destruct (NewSSTWriter_err io _).
  { intros [= <-]. eapply groups_numbered_same; [| | |exact Hfind]; reflexivity. }
  destruct (Finish io _ _) as [[size filter] index].
  destruct (createNodeFromSST io _ _ _ _ _ _ _) as [[t3 newNode]|] eqn:Hcreate;
    cbn [mbind option_bind]; [|discriminate].
  apply createNodeFromSST_moved in Hcreate.
  destruct (counters_moved_fields _ _ Hcreate) as ((_ & Hc3 & _) & Hg3 & Hs3 & _).
  cbn in Hc3, Hg3, Hs3.
  destruct newNode as [node|]; intros [= <-].
  - eapply groups_numbered_same; [| | |exact Hfind].
    + unfold tryTriggerGroupCompact, add_node_at.
      destruct (shall_compact _ _); destruct (t_groups t3 !! i); exact Hc3.
    + unfold tryTriggerGroupCompact, add_node_at.
      destruct (shall_compact _ _); destruct (t_groups t3 !! i); exact Hs3.
    + rewrite tryTriggerGroupCompact_groups. unfold add_node_at. rewrite Hg3, Hgroup.
      cbn [t_groups set_groups]. rewrite list_fmap_insert. apply list_insert_id.
      now rewrite list_lookup_fmap, Hgroup.
  - eapply groups_numbered_same; [| | |exact Hfind]; [exact Hc3|exact Hs3|now rewrite Hg3].
Qed.

(** X16.  An engine that started on an empty directory never holds more than
    [MaxGroups] groups; the ids of its groups are 1, 2, ... in the order
    of the list, so no two groups share an id; and the id generator stands
    at the number of groups. *)
Theorem reachable_groups_numbered (io : SSTIO) (conf : Config) (t : @Tree M) :
  0 < MaxGroups conf <= max_int32 ->
  reachable io conf t ->
  t_conf t = conf /\
  len (t_groups t) <= MaxGroups conf /\
  ids_in_order (t_groups t) /\
  t_groupSeq t = len (t_groups t).
Proof.
  intros Hmax. change (reachable io conf t -> groups_numbered conf t).
  induction 1 as [|t t' Hreach IH Hstep].
  - unfold groups_numbered. split; [reflexivity|].
    split; [change (0 <= MaxGroups conf); lia|]. split; reflexivity.
  - destruct Hstep as [t key value wal_io | t before item after t' Hc Hrun
                      | t before groupID after t' Hc Hrun].
    + eapply groups_numbered_same; [| | |exact IH].
      * unfold Put, WALWriter_Write. destruct wal_io; [reflexivity|].
        destruct (below_threshold _ _); reflexivity.
      * unfold Put, WALWriter_Write. destruct wal_io; [reflexivity|].
        destruct (below_threshold _ _); reflexivity.
      * now rewrite Put_groups.
    + unfold compactMemTable in Hrun.
      destruct (flushMemTable io _ _) as [t1|] eqn:Hflush; cbn [mbind option_bind] in Hrun;
        [|discriminate].
      injection Hrun as <-.
      eapply flushMemTable_numbered in Hflush; [|exact Hmax|].
      * eapply groups_numbered_same; [| | |exact Hflush]; reflexivity.
      * eapply groups_numbered_same; [| | |exact IH]; reflexivity.
    + apply compactGroup_kept in Hrun as ((_ & Hconf & _) & Hseq & _ & Hids & _).
      eapply groups_numbered_same; [exact Hconf|exact Hseq|exact Hids|].
      eapply groups_numbered_same; [| | |exact IH]; reflexivity.
Qed.

End Invariants.

(** * What a flush and a compaction write *)

Section NewSegments.
Import GoInt Bytes Types SST Grp GroupSpec Engine EngineSpec MoreSpec.
Context {M : Type} `{MemTable M}.

(** With a segment writer and reader that do not fail, [createNodeFromSST]
    returns a node over the pairs that were written. *)
Lemma createNodeFromSST_node io (t : @Tree M) groupID seq kvs :
  faithful_reader io -> kvs <> [] ->
  let file := FileName.sstFile groupID seq in
  let '(size, blockToFilter, index) := Finish io file kvs in
  exists node,
    createNodeFromSST io t groupID seq kvs size blockToFilter index
      = Some (set_next_addr t (N.succ (t_next_addr t)), Some node) /\
    GetAll node = Ok kvs /\ n_addr node = t_next_addr t /\ n_conf node = t_conf t /\
    n_file node = file /\ n_groupID node = groupID /\ n_seq node = seq /\ n_size node = size.
Proof.
  intros [Hreader Hindex] Hkvs file.
  specialize (Hindex file kvs Hkvs).
  destruct (Finish io file kvs) as [[size blockToFilter] index]. cbn [snd] in Hindex.
  destruct (Hreader file kvs) as (reader & Hopen & Hdata).
  unfold createNodeFromSST. fold file. rewrite Hopen. unfold NewNode.
  destruct (at_index_in_range index 0) as [first Hfirst].
  { unfold len. destruct index; [contradiction|]. cbn [length]. lia. }
  destruct (at_index_in_range index (len index - 1)) as [final Hfinal].
  { unfold len. destruct index; [contradiction|]. cbn [length]. lia. }
  rewrite Hfirst, Hfinal. cbn [mbind option_bind].
  eexists. split; [reflexivity|]. unfold GetAll. cbn. repeat split. exact Hdata.
Qed.

Lemma findOrCreateGroup_position (t : @Tree M) startKey endKey :
  is_Some (t_groups (findOrCreateGroup t startKey endKey).1
             !! (findOrCreateGroup t startKey endKey).2).
Proof.
  unfold findOrCreateGroup.
  assert (is_Some (t_groups (create_group t).1 !! (create_group t).2)) as Hcreate.
  { unfold create_group. cbn. rewrite lookup_app_r by lia. rewrite Nat.sub_diag. now eexists. }
  destruct (first_accepting _ _ _ _ _) as [i|] eqn:Hi.
  - apply first_accepting_bound in Hi as (g & Hg & _). rewrite Nat.sub_0_r in Hg.
    cbn. now exists g.
  - destruct (_ <? _); [exact Hcreate|].
    destruct (0 <? len (t_groups t)) eqn:Hsome; [|exact Hcreate].
    apply Z.ltb_lt in Hsome. unfold len in Hsome. cbn.
    apply lookup_lt_is_Some_2. lia.
Qed.

Lemma findOrCreateGroup_sstSeq (t : @Tree M) startKey endKey :
  t_sstSeq (findOrCreateGroup t startKey endKey).1 = t_sstSeq t /\
  t_next_addr (findOrCreateGroup t startKey endKey).1 = t_next_addr t.
Proof.
  unfold findOrCreateGroup. destruct (first_accepting _ _ _ _ _); [now split|].
  destruct (_ <? _); [now split|]. destruct (_ <? _); now split.
Qed.

Lemma findOrCreateGroup_groups (t : @Tree M) startKey endKey :
  t_groups (findOrCreateGroup t startKey endKey).1 = t_groups t \/
  exists id, t_groups (findOrCreateGroup t startKey endKey).1
             = t_groups t ++ [NewGroup id (t_conf t)].
Proof.
  unfold findOrCreateGroup.
  assert (exists id, t_groups (create_group t).1 = t_groups t ++ [NewGroup id (t_conf t)])
    as Hcreate by (eexists; reflexivity).
  destruct (first_accepting _ _ _ _ _); [now left|].
  destruct (_ <? _); [now right|]. destruct (_ <? _); [now left|now right].
Qed.

(** X17.  With a segment writer and reader that do not fail, and a
    [GroupSize] on which [make] does not panic, the flush of a memtable
    that holds pairs does not panic, and afterwards the group the routing
    chose holds a new segment with exactly the pairs of the memtable, in
    their order.  The segment carries the next sequence number and the id
    of its group, in its fields and in its file name.  When the address
    of every segment of the tree is below the next address to hand out,
    the address of the new segment is the address of no segment that was
    there, and the addresses of all segments are again below the next
    address. *)
Theorem flushMemTable_segment (io : SSTIO) (t : @Tree M) (memTable : MemTableObj) :
  faithful_io io ->
  make_ok (GroupSize (t_conf t)) = true ->
  Forall (fun g0 => Forall (fun n0 => (n_addr n0 < t_next_addr t)%N) (g_nodes g0))
         (t_groups t) ->
  mt_All (mt_state memTable) <> [] ->
  exists t' g node,
    flushMemTable io t memTable = Some t' /\
    (forall first final,
        head (mt_All (mt_state memTable)) = Some first ->
        last (mt_All (mt_state memTable)) = Some final ->
        t_groups t' !! (findOrCreateGroup t (KV_Key first) (KV_Key final)).2 = Some g) /\
    node ∈ g_nodes g /\
    GetAll node = Ok (mt_All (mt_state memTable)) /\
    n_seq node = int32 (t_sstSeq t + 1) /\
    t_sstSeq t' = n_seq node /\
    n_groupID node = g_id g /\
    n_file node = FileName.sstFile (g_id g) (n_seq node) /\
    n_addr node = t_next_addr t /\
    t_next_addr t' = N.succ (t_next_addr t) /\
    Forall (fun g0 => Forall (fun n0 => n_addr n0 <> n_addr node) (g_nodes g0))
           (t_groups t) /\
    Forall (fun g0 => Forall (fun n0 => (n_addr n0 < t_next_addr t')%N) (g_nodes g0))
           (t_groups t').
Proof.
  intros Hio _ Hbelow Hkvs. unfold flushMemTable.
  destruct (mt_All (mt_state memTable)) as [|first kvs] eqn:Hall; [contradiction|].
  destruct (last (first :: kvs)) as [final|] eqn:Hlast;
    [|apply last_None in Hlast; discriminate].
  pose proof (findOrCreateGroup_position t (KV_Key first) (KV_Key final)) as [group Hgroup].
  pose proof (findOrCreateGroup_sstSeq t (KV_Key first) (KV_Key final)) as [Hseq Haddr].
  pose proof (findOrCreateGroup_groups t (KV_Key first) (KV_Key final)) as Hgroups1.
  destruct (findOrCreateGroup t (KV_Key first) (KV_Key final)) as [t1 i] eqn:Hfind.
  cbn [fst snd] in Hgroup, Hseq, Haddr, Hgroups1. rewrite Hgroup. cbn [mbind option_bind].
  rewrite (writer_opens io Hio).
  pose proof (createNodeFromSST_node io (set_sstSeq t1 (int32 (t_sstSeq t1 + 1)))
                (g_id group) (int32 (t_sstSeq t1 + 1)) (first :: kvs)
                (reader_faithful io Hio) Hkvs) as Hnode.
  cbn zeta in Hnode.
  destruct (Finish io _ _) as [[size blockToFilter] index].
  destruct Hnode as (node & -> & Hdata & Hna & _ & Hfile & Hgid & Hnseq & _).
  cbn [mbind option_bind]. cbn [t_next_addr set_sstSeq] in Hna.
  set (t3 := set_next_addr (set_sstSeq t1 (int32 (t_sstSeq t1 + 1)))
                           (N.succ (t_next_addr (set_sstSeq t1 (int32 (t_sstSeq t1 + 1)))))).
  exists (tryTriggerGroupCompact (add_node_at t3 i node) (g_id group)),
         (AddNode group node), node.
  split; [reflexivity|].
  assert (t_groups (tryTriggerGroupCompact (add_node_at t3 i node) (g_id group))
            = <[i := AddNode group node]> (t_groups t1) /\
          t_sstSeq (tryTriggerGroupCompact (add_node_at t3 i node) (g_id group))
            = int32 (t_sstSeq t1 + 1) /\
          t_next_addr (tryTriggerGroupCompact (add_node_at t3 i node) (g_id group))
            = N.succ (t_next_addr t1)) as (Hg' & Hs' & Ha').
  { unfold tryTriggerGroupCompact, add_node_at. cbn [t3 t_groups set_next_addr set_sstSeq].
    rewrite Hgroup. destruct (shall_compact _ _); repeat split. }
  assert (Forall (fun g0 => Forall (fun n0 => (n_addr n0 < t_next_addr t)%N) (g_nodes g0))
                 (t_groups t1)) as Hbelow1.
  { destruct Hgroups1 as [->|[id ->]]; [exact Hbelow|].
    apply Forall_app. split; [exact Hbelow|]. repeat constructor. }
  split.
  { intros first' final' [= <-] [= <-]. rewrite Hfind. cbn [snd]. rewrite Hg'.
    apply list_lookup_insert_eq. eapply lookup_lt_Some; eauto. }
  split.
  { cbn [AddNode sortNodes updateKeyRange g_nodes].
    rewrite (sort_Slice_perm _ (g_nodes group ++ [node])). apply elem_of_app. right. constructor. }
  split; [exact Hdata|].
  split; [now rewrite Hnseq, Hseq|].
  split; [now rewrite Hs', Hnseq|].
  split; [exact Hgid|].
  split; [now rewrite Hfile, Hnseq|].
  split; [now rewrite Hna, Haddr|].
  split; [now rewrite Ha', Haddr|].
  split.
  - eapply Forall_impl; [exact Hbelow|]. cbn. intros g0 Hg0.
    eapply Forall_impl; [exact Hg0|]. cbn. intros n0 Hn0. rewrite Hna, Haddr. lia.
  - rewrite Hg', Ha', Haddr. apply Forall_insert.
    + eapply Forall_impl; [exact Hbelow1|]. cbn. intros g0 Hg0.
      eapply Forall_impl; [exact Hg0|]. cbn. intros n0 Hn0. lia.
    + cbn [AddNode sortNodes updateKeyRange g_nodes].
      rewrite (sort_Slice_perm _ (g_nodes group ++ [node])). apply Forall_app. split.
      * rewrite Forall_forall in Hbelow1.
        pose proof (Hbelow1 group (list_elem_of_lookup_2 _ _ _ Hgroup)) as Hnodes.
        eapply Forall_impl; [exact Hnodes|]. cbn. intros n0 Hn0. lia.
      * constructor; [|constructor]. rewrite Hna, Haddr. lia.
Qed.

End NewSegments.

(** ** The sorted table *)

Section SortedTable.
Import GoInt Bytes Types SST Grp GroupSpec NodeSpec Engine EngineSpec MoreSpec Concrete.

Lemma table_Get_find (m : Table) key :
  table_Get m key =
  match find (has_key key) m with Some e => (KV_Value e, true) | None => ([], false) end.
Proof.
  induction m as [|e m IH]; [reflexivity|].
  cbn [table_Get find]. unfold has_key at 1. destruct (Equal (KV_Key e) key); [reflexivity|exact IH].
Qed.

Lemma last_write_none kvs key : forall found,
  Forall (fun e => Equal (KV_Key e) key = false) kvs -> last_write kvs key found = found.
Proof.
  induction kvs as [|e kvs IH]; intros found Hall; [reflexivity|].
  inversion Hall as [|? ? He Hrest]; subst.
  unfold last_write in *. cbn [fold_left]. rewrite He. now apply IH.
Qed.

Lemma Equal_false a b : Equal a b = false <-> a <> b.
Proof.
  destruct (Equal a b) eqn:E.
  - apply Equal_true in E. split; [discriminate|contradiction].
  - split; [|reflexivity]. intros _ Heq. apply Equal_true in Heq. congruence.
Qed.

Lemma last_write_in kvs e : forall found,
  NoDup (map KV_Key kvs) -> e ∈ kvs ->
  last_write kvs (KV_Key e) found = (KV_Value e, true).
Proof.
  induction kvs as [|x kvs IH]; intros found Hnodup Hin; [inversion Hin|].
  cbn [map] in Hnodup. apply NoDup_cons in Hnodup as [Hx Hnodup].
  unfold last_write in *. cbn [fold_left].
  apply elem_of_cons in Hin as [->|Hin].
  - rewrite Equal_refl. apply last_write_none.
    apply Forall_forall. intros y Hy. apply Equal_false. intros Heq. apply Hx.
    rewrite <- Heq. now apply list_elem_of_fmap_2.
  - now apply IH.
Qed.

Lemma ascending_keys_strongly (m : Table) :
  ascending_keys m -> StronglySorted (fun a b => lt (KV_Key a) (KV_Key b)) m.
Proof.
  apply Sorted_StronglySorted. intros a b c Hab Hbc. eapply lt_trans; eauto.
Qed.

Lemma ascending_keys_NoDup (m : Table) : ascending_keys m -> NoDup (map KV_Key m).
Proof.
  intros Hasc. apply ascending_keys_strongly in Hasc.
  induction Hasc as [|e m Hm IH Hall]; cbn [map]; constructor; [|exact IH].
  intros Hin. apply list_elem_of_fmap in Hin as (y & Heq & Hy).
  rewrite Forall_forall in Hall. specialize (Hall y Hy). rewrite <- Heq in Hall.
  now apply lt_irrefl in Hall.
Qed.

Lemma table_Get_above (m : Table) key :
  Forall (fun e => lt key (KV_Key e)) m -> table_Get m key = ([], false).
Proof.
  induction 1 as [|e m He Hall IH]; [reflexivity|]. cbn [table_Get].
  destruct (Equal (KV_Key e) key) eqn:E; [|exact IH].
  apply Equal_true in E. rewrite E in He. now apply lt_irrefl in He.
Qed.

(** Two tables with ascending keys that answer every lookup alike are
    the same table. *)
Lemma table_ext (m1 : Table) : forall m2 : Table,
  ascending_keys m1 -> ascending_keys m2 ->
  (forall key, table_Get m1 key = table_Get m2 key) -> m1 = m2.
Proof.
  induction m1 as [|e1 m1 IH]; intros m2 H1 H2 Hget.
  - destruct m2 as [|e2 m2]; [reflexivity|].
    specialize (Hget (KV_Key e2)). cbn [table_Get] in Hget. rewrite Equal_refl in Hget.
    discriminate.
  - destruct m2 as [|e2 m2].
    { specialize (Hget (KV_Key e1)). cbn [table_Get] in Hget. rewrite Equal_refl in Hget.
      discriminate. }
    pose proof (ascending_keys_strongly _ H1) as S1.
    pose proof (ascending_keys_strongly _ H2) as S2.
    inversion S1 as [|? ? S1' A1]; subst. inversion S2 as [|? ? S2' A2]; subst.
    assert (KV_Key e1 = KV_Key e2) as Hkey.
    { destruct (Compare_range (KV_Key e1) (KV_Key e2)) as [Hlt|[Heq|Hgt]].
      - exfalso. pose proof (Hget (KV_Key e1)) as Hg. cbn [table_Get] in Hg.
        rewrite Equal_refl in Hg.
        assert (lt (KV_Key e1) (KV_Key e2)) as Hl by (unfold lt; lia).
        destruct (Equal (KV_Key e2) (KV_Key e1)) eqn:E.
        + apply Equal_true in E. rewrite E in Hl. now apply lt_irrefl in Hl.
        + rewrite table_Get_above in Hg; [discriminate|].
          eapply Forall_impl; [exact A2|]. cbn. intros x Hx. eapply lt_trans; eauto.
      - now apply Compare_eq.
      - exfalso. pose proof (Hget (KV_Key e2)) as Hg. cbn [table_Get] in Hg.
        rewrite Equal_refl in Hg.
        assert (lt (KV_Key e2) (KV_Key e1)) as Hl
          by (unfold lt; rewrite Compare_antisym; lia).
        destruct (Equal (KV_Key e1) (KV_Key e2)) eqn:E.
        + apply Equal_true in E. rewrite E in Hl. now apply lt_irrefl in Hl.
        + rewrite table_Get_above in Hg; [discriminate|].
          eapply Forall_impl; [exact A1|]. cbn. intros x Hx. eapply lt_trans; eauto. }
    assert (e1 = e2) as ->.
    { pose proof (Hget (KV_Key e1)) as Hg. cbn [table_Get] in Hg.
      rewrite Equal_refl, <- Hkey, Equal_refl in Hg.
      destruct e1, e2. cbn in *. congruence. }
    f_equal. apply IH.
    + now inversion H1.
    + now inversion H2.
    + intros key. specialize (Hget key). cbn [table_Get] in Hget.
      destruct (Equal (KV_Key e2) key) eqn:E; [|exact Hget].
      apply Equal_true in E. subst key.
      now rewrite !table_Get_above by assumption.
Qed.

(** Putting the pairs of a table with ascending keys into an empty table,
    in whatever order, gives the table back. *)
Lemma put_all_permutation (m : Table) (kvs : list KV) :
  ascending_keys m -> Permutation kvs m -> put_all ([] : Table) kvs = m.
Proof.
  intros Hasc Hperm. apply table_ext; [apply put_all_ascending; constructor|exact Hasc|].
  intros key. rewrite put_all_Get. cbn [table_Get]. rewrite table_Get_find.
  assert (NoDup (map KV_Key kvs)) as Hnodup.
  { rewrite Hperm. now apply ascending_keys_NoDup. }
  destruct (find (has_key key) m) as [e|] eqn:Hfind.
  - apply find_some in Hfind as [Hin Hkey]. unfold has_key in Hkey. apply Equal_true in Hkey.
    subst key. apply last_write_in; [exact Hnodup|].
    rewrite Hperm. now apply list_elem_of_In.
  - apply last_write_none. apply Forall_forall. intros e He.
    rewrite Hperm in He. apply list_elem_of_In in He.
    exact (List.find_none _ _ Hfind e He).
Qed.

Lemma GetAllKVs_loop_ascending nodes : forall (m temp : Table),
  ascending_keys m -> GetAllKVs_loop nodes m = Ok temp -> ascending_keys temp.
Proof.
  induction nodes as [|n nodes IH]; intros m temp Hm; cbn [GetAllKVs_loop].
  - now intros [= <-].
  - destruct (GetAll n) as [kvs|]; [|discriminate].
    apply IH. now apply put_all_ascending.
Qed.

End SortedTable.

(** ** The rewrite of a group *)

Section Compaction.
Import GoInt Bytes Types SST Grp GroupSpec NodeSpec Engine EngineSpec MoreSpec Concrete.

Lemma finish_file_node io groupID (c : @compaction Table) :
  faithful_reader io -> c_appended c <> [] ->
  exists c' node,
    finish_file io groupID c = Some c' /\
    c_newNodes c' = c_newNodes c ++ [node] /\ GetAll node = Ok (c_appended c) /\
    c_appended c' = c_appended c /\ c_broken c' = c_broken c /\
    t_sstSeq (c_tree c') = t_sstSeq (c_tree c).
Proof.
  intros Hio Hne. unfold finish_file.
  pose proof (createNodeFromSST_node io (c_tree c) groupID (c_seq c) (c_appended c) Hio Hne)
    as Hnode. cbn zeta in Hnode.
  destruct (Finish io _ _) as [[size blockToFilter] index].
  destruct Hnode as (node & -> & Hdata & _). cbn [mbind option_bind].
  eexists _, node. split; [reflexivity|]. cbn. repeat split. exact Hdata.
Qed.

Lemma chunk_size_nonneg kvs : 0 <= chunk_size kvs.
Proof.
  assert (forall z, 0 <= z ->
            0 <= fold_left (fun size kv => uint64 (size + kv_size kv)) kvs z) as Hfold.
  { induction kvs as [|kv kvs IH]; intros z Hz; cbn [fold_left]; [exact Hz|].
    apply IH. unfold uint64. apply Z.mod_pos_bound. lia. }
  apply Hfold. lia.
Qed.

Lemma chunk_size_snoc kvs kv :
  chunk_size (kvs ++ [kv]) = uint64 (chunk_size kvs + kv_size kv).
Proof. unfold chunk_size. now rewrite fold_left_app. Qed.

Lemma fits_snoc conf kvs kv :
  chunk_size kvs = 0 \/ uint64 (chunk_size kvs + kv_size kv) <= GroupSSTSize conf ->
  fits conf (kvs ++ [kv]).
Proof.
  unfold fits. rewrite removelast_last, chunk_size_snoc. tauto.
Qed.

Lemma cut_when_full_grow conf chunks a b :
  cut_when_full conf (chunks ++ [a]) -> (a = [] -> chunks = []) ->
  cut_when_full conf (chunks ++ [a ++ b]).
Proof.
  intros Hcut Hnil i chunk next Hi Hnext.
  assert (S i < length (chunks ++ [a ++ b]))%nat as Hlt by (eapply lookup_lt_Some; eauto).
  rewrite length_app in Hlt. cbn [length] in Hlt.
  rewrite lookup_app_l in Hi by lia.
  destruct (decide (S i = length chunks)) as [Hlast|Hne].
  - rewrite lookup_app_r in Hnext by lia. rewrite Hlast, Nat.sub_diag in Hnext.
    injection Hnext as <-.
    destruct a as [|x a]; [rewrite Hnil in Hlast by reflexivity; discriminate|].
    apply (Hcut i chunk (x :: a)).
    + now rewrite lookup_app_l by lia.
    + rewrite lookup_app_r by lia. now rewrite Hlast, Nat.sub_diag.
  - rewrite lookup_app_l in Hnext by lia.
    apply (Hcut i chunk next); now rewrite lookup_app_l by lia.
Qed.

Lemma cut_when_full_snoc conf chunks a kv :
  cut_when_full conf (chunks ++ [a]) ->
  0 < chunk_size a -> GroupSSTSize conf < uint64 (chunk_size a + kv_size kv) ->
  cut_when_full conf ((chunks ++ [a]) ++ [[kv]]).
Proof.
  intros Hcut Hpos Hbig i chunk next Hi Hnext.
  assert (S i < length ((chunks ++ [a]) ++ [[kv]]))%nat as Hlt by (eapply lookup_lt_Some; eauto).
  rewrite !length_app in Hlt. cbn [length] in Hlt.
  destruct (decide (i = length chunks)) as [->|Hne].
  - rewrite lookup_app_l in Hi by (rewrite length_app; cbn [length]; lia).
    rewrite lookup_app_r in Hi by lia. rewrite Nat.sub_diag in Hi. injection Hi as <-.
    rewrite lookup_app_r in Hnext by (rewrite length_app; cbn [length]; lia).
    rewrite length_app in Hnext. cbn [length] in Hnext.
    replace (S (length chunks) - (length chunks + 1))%nat with 0%nat in Hnext by lia.
    injection Hnext as <-. split; [exact Hpos|]. exists kv. split; [reflexivity|exact Hbig].
  - rewrite lookup_app_l in Hi by (rewrite length_app; cbn [length]; lia).
    rewrite lookup_app_l in Hnext by (rewrite length_app; cbn [length]; lia).
    exact (Hcut i chunk next Hi Hnext).
Qed.

(** One round of the loop, when no writer fails to open: the next pair
    joins the open file, or the open file is finished first because the
    pair would not fit; the last pair finishes its file. *)
Lemma compact_round_chunks io conf groupID (c : @compaction Table) kv is_last done :
  faithful_io io ->
  chunked conf c done ->
  exists c', compact_round io conf groupID c kv is_last = Some c' /\
    c_broken c' = false /\
    if is_last then exists chunks, hold_cut conf (c_newNodes c') chunks (done ++ [kv])
    else chunked conf c' (done ++ [kv]).
Proof.
  intros Hio (Hbroken & Hsize & chunks & Hchunks & Hdone & Hfull & Hfits & Hcut & Hnil).
  assert (forall (c1 : @compaction Table) chunks1,
            Forall2 (fun n d => GetAll n = Ok d) (c_newNodes c1) chunks1 ->
            concat chunks1 ++ c_appended c1 = done ->
            Forall (fun chunk => chunk <> []) chunks1 ->
            Forall (fits conf) (chunks1 ++ [c_appended c1 ++ [kv]]) ->
            cut_when_full conf (chunks1 ++ [c_appended c1 ++ [kv]]) ->
            c_currentSize c1 = chunk_size (c_appended c1) ->
            let c2 := {| c_tree := c_tree c1; c_seq := c_seq c1;
                         c_appended := c_appended c1 ++ [kv];
                         c_currentSize :=
                           uint64 (c_currentSize c1 +
                                   uint64 (int (len (KV_Key kv) + len (KV_Value kv))));
                         c_newNodes := c_newNodes c1; c_broken := false |} in
            exists c', (if is_last then finish_file io groupID c2 else Some c2) = Some c' /\
              c_broken c' = false /\
              if is_last then exists chunks, hold_cut conf (c_newNodes c') chunks (done ++ [kv])
              else chunked conf c' (done ++ [kv])) as Htail.
  { intros c1 chunks1 Hchunks1 Hdone1 Hfull1 Hfits1 Hcut1 Hsize1 c2.
    assert (c_appended c2 <> []) as Hne2.
    { cbn [c2 c_appended]. intros Hempty. now apply app_eq_nil in Hempty as [_ [=]]. }
    destruct is_last.
    - destruct (finish_file_node io groupID c2 (reader_faithful io Hio) Hne2)
        as (c3 & node & -> & Hnodes & Hdata & Happ & Hb3 & _).
      exists c3. split; [reflexivity|]. split; [exact Hb3|].
      exists (chunks1 ++ [c_appended c1 ++ [kv]]). rewrite Hnodes. split; [|split; [|split; [|split]]].
      + apply Forall2_app; [exact Hchunks1|]. constructor; [exact Hdata|constructor].
      + rewrite concat_app. cbn [concat]. rewrite app_nil_r, app_assoc. now rewrite Hdone1.
      + apply Forall_app. split; [exact Hfull1|]. constructor; [exact Hne2|constructor].
      + exact Hfits1.
      + exact Hcut1.
    - exists c2. split; [reflexivity|]. split; [reflexivity|].
      split; [reflexivity|]. split.
      { cbn [c2 c_currentSize c_appended]. rewrite chunk_size_snoc, Hsize1. reflexivity. }
      exists chunks1. cbn [c2 c_newNodes c_appended].
      split; [exact Hchunks1|]. split; [rewrite app_assoc; now rewrite Hdone1|].
      split; [exact Hfull1|]. split; [exact Hfits1|]. split; [exact Hcut1|].
      intros Hempty. now apply app_eq_nil in Hempty as [_ [=]]. }
  pose proof (chunk_size_nonneg (c_appended c)) as Hnn.
  pose proof Hfits as Hfits_all. apply Forall_app in Hfits as [Hfits _].
  unfold compact_round. cbn zeta.
  destruct (_ && _) eqn:Hcond.
  - apply andb_true_iff in Hcond as [Hpos Hbig]. apply Z.ltb_lt in Hpos, Hbig.
    rewrite Hsize in Hpos, Hbig.
    assert (c_appended c <> []) as Hne.
    { intros Hempty. rewrite Hempty in Hpos. cbn in Hpos. lia. }
    destruct (finish_file_node io groupID c (reader_faithful io Hio) Hne)
      as (c' & node & -> & Hnodes & Hdata & Happ & _).
    cbn [mbind option_bind]. rewrite (writer_opens io Hio).
    cbn [mbind option_bind c_broken].
    apply (Htail _ (chunks ++ [c_appended c])); cbn [c_newNodes c_appended c_currentSize app].
    + rewrite Hnodes. apply Forall2_app; [exact Hchunks|].
      constructor; [exact Hdata|constructor].
    + rewrite concat_app. cbn [concat]. now rewrite !app_nil_r.
    + apply Forall_app. split; [exact Hfull|]. constructor; [exact Hne|constructor].
    + apply Forall_app. split; [exact Hfits_all|].
      constructor; [|constructor]. right. reflexivity.
    + now apply cut_when_full_snoc.
    + reflexivity.
  - cbn [mbind option_bind]. rewrite Hbroken. apply (Htail c chunks); try assumption.
    + apply Forall_app. split; [exact Hfits|]. constructor; [|constructor].
      apply fits_snoc. apply andb_false_iff in Hcond as [Hc|Hc]; apply Z.ltb_ge in Hc.
      * left. lia.
      * right. rewrite Hsize in Hc. exact Hc.
    + now apply cut_when_full_grow.
Qed.

Lemma compact_loop_chunks io conf groupID rest : forall (c : @compaction Table) done,
  faithful_io io ->
  chunked conf c done ->
  rest <> [] ->
  exists c', compact_loop io conf groupID c rest = Some c' /\
    exists chunks, hold_cut conf (c_newNodes c') chunks (done ++ rest).
Proof.
  induction rest as [|kv rest IH]; intros c done Hio Hinv Hne; [contradiction|].
  cbn [compact_loop].
  destruct (compact_round_chunks io conf groupID c kv
              (match rest with [] => true | _ => false end) done Hio Hinv)
    as (c1 & -> & Hb1 & Hinv1).
  cbn [mbind option_bind]. rewrite Hb1.
  destruct rest as [|kv' rest].
  - exists c1. split; [reflexivity|]. exact Hinv1.
  - destruct (IH c1 (done ++ [kv]) Hio Hinv1) as (c' & Hloop & chunks & Hcut); [discriminate|].
    exists c'. split; [exact Hloop|]. exists chunks. now rewrite <- app_assoc in Hcut.
Qed.

Lemma first_same_node nodes node :
  n_addr node ∈ map n_addr nodes ->
  exists before m after,
    nodes = before ++ m :: after /\
    Forall (fun n => same_node n node = false) before /\ same_node m node = true.
Proof.
  induction nodes as [|n nodes IH]; intros Hin; [inversion Hin|].
  destruct (same_node n node) eqn:Hsame.
  - exists [], n, nodes. repeat split; [constructor|exact Hsame].
  - cbn [map] in Hin. apply elem_of_cons in Hin as [Heq|Hin].
    + unfold same_node in Hsame. rewrite Heq, N.eqb_refl in Hsame. discriminate.
    + destruct (IH Hin) as (before & m & after & -> & Hbefore & Hm).
      exists (n :: before), m, after. repeat split; [constructor; assumption|exact Hm].
Qed.

(** Removing every node of a snapshot of [g.nodes], one after the other,
    leaves no node. *)
Lemma fold_RemoveNode_all oldNodes : forall g,
  Permutation (map n_addr oldNodes) (map n_addr (g_nodes g)) ->
  g_nodes (fold_left (fun g oldNode => (RemoveNode g oldNode).1) oldNodes g) = [].
Proof.
  induction oldNodes as [|node oldNodes IH]; intros g Hperm; cbn [fold_left].
  - cbn [map] in Hperm. apply Permutation_nil in Hperm.
    now destruct (g_nodes g).
  - cbn [map] in Hperm.
    assert (n_addr node ∈ map n_addr (g_nodes g)) as Hin
      by (rewrite <- Hperm; constructor).
    destruct (first_same_node _ _ Hin) as (before & m & after & Hnodes & Hbefore & Hm).
    apply IH. unfold RemoveNode. rewrite Hnodes at 1.
    rewrite (RemoveNode_loop_present g node before [] 0%nat m after Hnodes eq_refl Hbefore Hm).
    cbn [fst without g_nodes app].
    rewrite Hnodes, map_app in Hperm. cbn [map] in Hperm.
    rewrite <- Permutation_middle in Hperm.
    assert (n_addr m = n_addr node) as Hsame by (now apply N.eqb_eq).
    rewrite Hsame in Hperm. apply Permutation_cons_inv in Hperm.
    now rewrite map_app.
Qed.

Lemma fold_AddNode_nodes newNodes : forall g,
  Permutation (g_nodes (fold_left AddNode newNodes g)) (g_nodes g ++ newNodes).
Proof.
  induction newNodes as [|n newNodes IH]; intros g; cbn [fold_left].
  - now rewrite app_nil_r.
  - rewrite IH. cbn [AddNode sortNodes updateKeyRange g_nodes].
    rewrite (sort_Slice_perm _ (g_nodes g ++ [n])). now rewrite <- app_assoc.
Qed.

Lemma Forall2_pairs_of nodes chunks :
  Forall2 (fun n d => GetAll n = Ok d) nodes chunks ->
  chunks = map pairs_of nodes /\ Forall (fun n => GetAll n = Ok (pairs_of n)) nodes.
Proof.
  induction 1 as [|n d nodes chunks Hn Hrest [IH1 IH2]]; [split; [reflexivity|constructor]|].
  assert (pairs_of n = d) as Hd by (unfold pairs_of; now rewrite Hn).
  split; [cbn [map]; now rewrite Hd, IH1|]. constructor; [now rewrite Hd|exact IH2].
Qed.

Lemma pairs_of_Forall2 nodes :
  Forall (fun n => GetAll n = Ok (pairs_of n)) nodes ->
  Forall2 (fun n d => GetAll n = Ok d) nodes (map pairs_of nodes).
Proof. induction 1; cbn [map]; constructor; assumption. Qed.

(** What [replaceGroupNodes] leaves when it replaces every node of the
    group: the new nodes. *)
Lemma replace_all_nodes (group : Group) newNodes :
  Permutation
    (g_nodes (fold_left AddNode newNodes
                (fold_left (fun g oldNode => (RemoveNode g oldNode).1) (g_nodes group) group)))
    newNodes.
Proof. rewrite fold_AddNode_nodes, fold_RemoveNode_all; reflexivity. Qed.

(** The run of [compactGroup] on a group that is rewritten, when no writer
    and no reader fails. *)
Lemma compactGroup_rewrite io (t : @Tree Table) groupID i group kv allKVs :
  faithful_io io ->
  group_with_id (t_groups t) groupID 0 = Some i ->
  t_groups t !! i = Some group ->
  (len (g_nodes group) <=? 1) = false ->
  GetAllKVs (M := Table) group = Ok (kv :: allKVs) ->
  exists c chunks,
    compactGroup io t groupID =
      Some (set_groups (c_tree c)
              (<[i := fold_left AddNode (c_newNodes c)
                        (fold_left (fun g oldNode => (RemoveNode g oldNode).1)
                                   (g_nodes group) group)]> (t_groups t))) /\
    hold_cut (t_conf t) (c_newNodes c) chunks (kv :: allKVs).
Proof.
  intros Hio Hi Hgroup Hmany Hall.
  unfold compactGroup. rewrite Hi, Hgroup. cbn [mbind option_bind].
  rewrite Hmany, Hall, (writer_opens io Hio).
  match goal with |- context [compact_loop io ?conf groupID ?c0 (kv :: allKVs)] =>
    destruct (compact_loop_chunks io conf groupID (kv :: allKVs) c0 [] Hio)
      as (c & Hloop & chunks & Hcut)
  end.
  { split; [reflexivity|]. split; [reflexivity|]. exists [].
    cbn [c_newNodes c_appended app concat].
    split; [constructor|]. split; [reflexivity|]. split; [constructor|].
    split; [constructor; [right; reflexivity|constructor]|].
    split; [|reflexivity]. intros j chunk next Hj Hnext. destruct j; discriminate. }
  { discriminate. }
  rewrite Hloop. cbn [mbind option_bind]. cbn [app] in Hcut.
  apply compact_loop_groups in Hloop. cbn [c_tree set_sstSeq t_groups] in Hloop.
  unfold replaceGroupNodes. rewrite Hloop, Hgroup.
  exists c, chunks. split; [reflexivity|exact Hcut].
Qed.

Lemma GetAllKVs_permuted (group' : Group) nodes chunks (allKVs : list KV) :
  Permutation (g_nodes group') nodes ->
  Forall2 (fun n d => GetAll n = Ok d) nodes chunks ->
  concat chunks = allKVs ->
  ascending_keys allKVs ->
  GetAllKVs (M := Table) group' = Ok allKVs.
Proof.
  intros Hperm Hchunks Hconcat Hasc.
  apply Forall2_pairs_of in Hchunks as [-> Hnew].
  assert (Forall (fun n => GetAll n = Ok (pairs_of n)) (g_nodes group')) as Hnodes
    by (now rewrite Hperm).
  unfold GetAllKVs. cbn [MemTableConstructor Table_MemTable].
  rewrite (GetAllKVs_loop_Ok (g_nodes group') (map pairs_of (g_nodes group')) []
             (pairs_of_Forall2 _ Hnodes)).
  cbn [mt_All Table_MemTable]. rewrite rebuild_pairs. f_equal.
  apply put_all_permutation; [exact Hasc|].
  rewrite <- Hconcat, <- !flat_map_concat_map. now apply Permutation_flat_map.
Qed.

Lemma GetAllKVs_ascending (group : Group) (allKVs : list KV) :
  GetAllKVs (M := Table) group = Ok allKVs -> ascending_keys allKVs.
Proof.
  unfold GetAllKVs.
  destruct (GetAllKVs_loop (g_nodes group) MemTableConstructor) as [temp|] eqn:Hloop;
    [|discriminate].
  cbn [mt_All Table_MemTable]. rewrite rebuild_pairs. intros [= <-].
  eapply GetAllKVs_loop_ascending; [|exact Hloop]. constructor.
Qed.

(** X18.  With a segment writer and reader that do not fail, the compaction of
    a group does not panic and loses nothing: the group it leaves at the
    same position, under the same id, merges to exactly the pairs the
    group merged to before. *)
Theorem compactGroup_keeps_pairs (io : SSTIO) (t : @Tree Table) (groupID : Z) (i : nat)
    (group : Group) (allKVs : list KV) :
  faithful_io io ->
  group_with_id (t_groups t) groupID 0 = Some i ->
  t_groups t !! i = Some group ->
  GetAllKVs (M := Table) group = Ok allKVs ->
  exists t' group',
    compactGroup io t groupID = Some t' /\
    t_groups t' !! i = Some group' /\
    g_id group' = groupID /\
    GetAllKVs (M := Table) group' = Ok allKVs.
Proof.
  intros Hio Hi Hgroup Hall.
  assert (g_id group = groupID) as Hid.
  { apply group_with_id_Some in Hi as (_ & g & Hg & Hgid). rewrite Nat.sub_0_r in Hg. congruence. }
  pose proof (GetAllKVs_ascending _ _ Hall) as Hasc.
  destruct (len (g_nodes group) <=? 1) eqn:Hmany.
  { exists t, group. unfold compactGroup. rewrite Hi, Hgroup. cbn [mbind option_bind].
    now rewrite Hmany. }
  destruct allKVs as [|kv allKVs].
  { exists t, group. unfold compactGroup. rewrite Hi, Hgroup. cbn [mbind option_bind].
    now rewrite Hmany, Hall. }
  destruct (compactGroup_rewrite io t groupID i group kv allKVs Hio Hi Hgroup Hmany Hall)
    as (c & chunks & -> & Hchunks & Hconcat & _).
  eexists _, _. split; [reflexivity|]. cbn [t_groups set_groups].
  split; [apply list_lookup_insert_eq; eapply lookup_lt_Some; eauto|].
  split; [now rewrite fold_AddNode_id, fold_RemoveNode_id|].
  apply (GetAllKVs_permuted _ (c_newNodes c) chunks);
    [apply replace_all_nodes|exact Hchunks|exact Hconcat|exact Hasc].
Qed.

(** X19.  With a segment writer and reader that do not fail, the compaction of
    a group with more than one segment and with pairs replaces all its
    segments: the new segments hold the merged pairs cut into consecutive
    non-empty files, one segment per file.  A file is within
    [GroupSSTSize] in the [uint64] size the loop counts, unless the pairs
    before its last one count nothing; and a file ends only where it holds
    something and the next pair would have taken it over [GroupSSTSize]. *)
Theorem compactGroup_cuts (io : SSTIO) (t : @Tree Table) (groupID : Z) (i : nat)
    (group : Group) (allKVs : list KV) :
  faithful_io io ->
  group_with_id (t_groups t) groupID 0 = Some i ->
  t_groups t !! i = Some group ->
  1 < len (g_nodes group) ->
  GetAllKVs (M := Table) group = Ok allKVs ->
  allKVs <> [] ->
  exists t' group' newNodes chunks,
    compactGroup io t groupID = Some t' /\
    t_groups t' !! i = Some group' /\
    Permutation (g_nodes group') newNodes /\
    Forall2 (fun n d => GetAll n = Ok d) newNodes chunks /\
    concat chunks = allKVs /\
    Forall (fun chunk => chunk <> []) chunks /\
    Forall (fits (t_conf t)) chunks /\
    cut_when_full (t_conf t) chunks.
Proof.
  intros Hio Hi Hgroup Hmany Hall Hne.
  apply Z.leb_gt in Hmany.
  destruct allKVs as [|kv allKVs]; [contradiction|].
  destruct (compactGroup_rewrite io t groupID i group kv allKVs Hio Hi Hgroup Hmany Hall)
    as (c & chunks & -> & Hchunks & Hconcat & Hfull & Hfits & Hcut).
  eexists _, _, (c_newNodes c), chunks. split; [reflexivity|]. cbn [t_groups set_groups].
  split; [apply list_lookup_insert_eq; eapply lookup_lt_Some; eauto|].
  split; [apply replace_all_nodes|]. split; [exact Hchunks|]. split; [exact Hconcat|].
  split; [exact Hfull|]. split; [exact Hfits|exact Hcut].
Qed.

End Compaction.

(** * The repair of a configuration *)

Section Repair.
Import GoInt Bytes Types.

(** X20.  [repaire] leaves every size positive and a ratio that passes its
    own test (a ratio that is not a number passes it and is kept).  A
    filter that is set is kept, and in place of a nil filter stands what
    [NewBloomFilter] returned; the memtable constructor is never nil
    afterwards, the skiplist standing in for a nil one.  The directory
    and the footer size are not touched, and the engine reads positive
    sizes from the result.  Repairing twice is repairing
    once, and a configuration with positive sizes, a ratio that passes
    the test, a filter and a constructor is left as it is. *)
Theorem repaire_spec {C : Type} (bloom : option Filter) (skiplist : C) (c : RawConfig C) :
  let r := repaire bloom skiplist c in
  0 < raw_GroupSize r /\ 0 < raw_GroupSSTSize r /\ 0 < raw_MaxGroups r /\
  0 < raw_SSTDataBlockSize r /\
  PrimFloat.leb (raw_CompactionRatio r) 0 = false /\
  PrimFloat.leb 1 (raw_CompactionRatio r) = false /\
  raw_Filter r = match raw_Filter c with Some f => Some f | None => bloom end /\
  raw_MemTableConstructor r = Some (default skiplist (raw_MemTableConstructor c)) /\
  raw_Dir r = raw_Dir c /\ raw_SSTFooterSize r = raw_SSTFooterSize c /\
  (forall conf, config_of r = Some conf ->
     0 < GroupSize conf /\ 0 < GroupSSTSize conf /\ 0 < MaxGroups conf /\
     0 < SSTDataBlockSize conf) /\
  repaire bloom skiplist r = r /\
  (0 < raw_GroupSize c -> 0 < raw_GroupSSTSize c -> 0 < raw_MaxGroups c ->
   0 < raw_SSTDataBlockSize c ->
   PrimFloat.leb (raw_CompactionRatio c) 0 = false ->
   PrimFloat.leb 1 (raw_CompactionRatio c) = false ->
   is_Some (raw_Filter c) -> is_Some (raw_MemTableConstructor c) ->
   r = c).
Proof.
  assert (forall c' : RawConfig C,
            0 < raw_GroupSize c' -> 0 < raw_GroupSSTSize c' -> 0 < raw_MaxGroups c' ->
            0 < raw_SSTDataBlockSize c' ->
            PrimFloat.leb (raw_CompactionRatio c') 0 = false ->
            PrimFloat.leb 1 (raw_CompactionRatio c') = false ->
            (raw_Filter c' = None -> bloom = None) ->
            is_Some (raw_MemTableConstructor c') ->
            repaire bloom skiplist c' = c') as Hfix.
  { intros c' H1 H2 H3 H4 H5 H6 Hf [constructor Hm]. unfold repaire. rewrite H5, H6. cbn [orb].
    apply Z.leb_gt in H1, H2, H3, H4. rewrite H1, H2, H3, H4, Hm.
    destruct c' as [d gs gss mg cr bs fs [f|] m]; cbn in *; [now rewrite Hm|].
    now rewrite Hf, Hm. }
  assert (0 < raw_GroupSize (repaire bloom skiplist c) /\
          0 < raw_GroupSSTSize (repaire bloom skiplist c) /\
          0 < raw_MaxGroups (repaire bloom skiplist c) /\
          0 < raw_SSTDataBlockSize (repaire bloom skiplist c) /\
          PrimFloat.leb (raw_CompactionRatio (repaire bloom skiplist c)) 0 = false /\
          PrimFloat.leb 1 (raw_CompactionRatio (repaire bloom skiplist c)) = false) as Hshape.
  { unfold repaire.
    cbn [raw_GroupSize raw_GroupSSTSize raw_MaxGroups raw_SSTDataBlockSize raw_CompactionRatio].
    destruct (raw_GroupSize c <=? 0) eqn:E1; destruct (raw_GroupSSTSize c <=? 0) eqn:E2;
      destruct (raw_MaxGroups c <=? 0) eqn:E3; destruct (raw_SSTDataBlockSize c <=? 0) eqn:E4;
      rewrite ?Z.leb_gt in *;
      (destruct (PrimFloat.leb (raw_CompactionRatio c) 0) eqn:E5;
       [|destruct (PrimFloat.leb 1 (raw_CompactionRatio c)) eqn:E6]);
      cbn [orb]; repeat split; try lia; try assumption; vm_compute; reflexivity. }
  cbn zeta. destruct Hshape as (H1 & H2 & H3 & H4 & H5 & H6).
  repeat (split; [assumption|]).
  split; [unfold repaire; cbn [raw_Filter]; now destruct (raw_Filter c)|].
  split; [unfold repaire; cbn [raw_MemTableConstructor];
          now destruct (raw_MemTableConstructor c)|].
  split; [reflexivity|]. split; [reflexivity|].
  split.
  { unfold config_of. intros conf.
    destruct (raw_Filter (repaire bloom skiplist c)); [|discriminate].
    intros [= <-]. cbn [GroupSize GroupSSTSize MaxGroups SSTDataBlockSize]. auto. }
  split.
  - apply Hfix; try assumption.
    + unfold repaire. cbn [raw_Filter]. destruct (raw_Filter c); [discriminate|auto].
    + unfold repaire. cbn [raw_MemTableConstructor].
      destruct (raw_MemTableConstructor c); eauto.
  - intros G1 G2 G3 G4 G5 G6 [f Hf] Hm. apply Hfix; try assumption.
    rewrite Hf. discriminate.
Qed.

End Repair.

(** * Runs of the statements above *)

Section FurtherRuns.
Import GoInt Bytes Types SST Grp GroupSpec NodeSpec Engine EngineSpec MoreSpec Concrete MoreRuns.

Lemma one_block_reader_faithful io :
  Finish io = Finish one_block_io -> NewSSTReader io = NewSSTReader one_block_io ->
  faithful_reader io.
Proof.
  intros Hfinish Hreader. split.
  - intros file kvs. rewrite Hreader. eexists. split; reflexivity.
  - intros file kvs Hkvs. rewrite Hfinish. cbn. unfold one_block_index.
    destruct kvs as [|first kvs]; [contradiction|].
    destruct (last (first :: kvs)) eqn:Hlast; [discriminate|].
    apply last_None in Hlast. discriminate.
Qed.

Lemma one_block_io_faithful : faithful_io one_block_io.
Proof. split; [reflexivity|]. now apply one_block_reader_faithful. Qed.

Lemma walk_1_reachable : reachable one_block_io medium walk_1.
Proof.
  apply reachable_step with (t := walk_0); [|apply (step_Put _ walk_0)].
  apply reachable_init.
Qed.

Lemma run_2_reachable : reachable one_block_io tiny run_2.
Proof.
  apply reachable_step with (t := run_1); [|apply (step_Put _ run_1)].
  apply reachable_step with (t := run_0); [|apply (step_Put _ run_0)].
  apply reachable_init.
Qed.

Lemma run_4_reachable : reachable one_block_io tiny run_4.
Proof.
  apply reachable_step with (t := run_3).
  - apply reachable_step with (t := run_2); [exact run_2_reachable|].
    apply step_compactMemTable with (before := []) (item := first_item)
                                    (after := [second_item]); vm_compute; reflexivity.
  - apply step_compactMemTable with (before := []) (item := second_item) (after := []);
      vm_compute; reflexivity.
Qed.

Lemma compactGroup_frame_witness :
  compactGroup one_block_io (set_groupCompactC run_4 [1]) 1 = Some run_5 /\
  write_side run_5 = write_side (set_groupCompactC run_4 [1]) /\
  map g_id (t_groups run_5) = map g_id (t_groups (set_groupCompactC run_4 [1])).
Proof.
  assert (compactGroup one_block_io (set_groupCompactC run_4 [1]) 1 = Some run_5) as Hrun
    by (vm_compute; reflexivity).
  destruct (compactGroup_frame one_block_io _ run_5 1 Hrun) as (Hw & _ & _ & _ & Hids & _).
  split; [exact Hrun|]. split; [exact Hw|exact Hids].
Defined.

Lemma flushMemTable_frame_witness :
  flushMemTable one_block_io run_2 (item_memTable first_item) = Some run_2_flushed /\
  write_side run_2_flushed = write_side run_2 /\
  t_conf run_2_flushed = t_conf run_2.
Proof.
  assert (flushMemTable one_block_io run_2 (item_memTable first_item) = Some run_2_flushed)
    as Hrun by (vm_compute; reflexivity).
  destruct (flushMemTable_frame one_block_io run_2 _ _ Hrun) as (Hw & Hc & _).
  split; [exact Hrun|]. split; [exact Hw|exact Hc].
Defined.

Lemma reachable_log_replays_witness :
  reachable one_block_io medium walk_1 /\
  mt_state (t_memTable walk_1) = put_all MemTableConstructor (wal_written (t_walWriter walk_1)) /\
  wal_file (t_walWriter walk_1) = walFile walk_1 /\
  wal_closed (t_walWriter walk_1) = false.
Proof.
  split; [exact walk_1_reachable|].
  exact (reachable_log_replays one_block_io medium walk_1 walk_1_reachable).
Defined.

Lemma reachable_frozen_tables_witness :
  reachable one_block_io tiny run_2 /\
  Permutation (t_rOnlyMemTable run_2) (t_memCompactC run_2) /\
  NoDup (mt_addr (t_memTable run_2) :: map item_addr (t_rOnlyMemTable run_2)).
Proof.
  split; [exact run_2_reachable|].
  destruct (reachable_frozen_tables one_block_io tiny run_2 run_2_reachable) as (Hp & Hn & _).
  split; [exact Hp|exact Hn].
Defined.

Lemma reachable_groups_numbered_witness :
  0 < MaxGroups tiny <= max_int32 /\
  reachable one_block_io tiny run_4 /\
  t_conf run_4 = tiny /\
  len (t_groups run_4) <= MaxGroups tiny /\
  ids_in_order (t_groups run_4) /\
  t_groupSeq run_4 = len (t_groups run_4).
Proof.
  assert (0 < MaxGroups tiny <= max_int32) as Hmax by (split; vm_compute; congruence).
  split; [exact Hmax|]. split; [exact run_4_reachable|].
  exact (reachable_groups_numbered one_block_io tiny run_4 Hmax run_4_reachable).
Defined.

Lemma reachable_groups_wf_witness :
  reachable one_block_io tiny run_4 /\ Forall group_wf (t_groups run_4).
Proof.
  split; [exact run_4_reachable|].
  exact (reachable_groups_wf one_block_io tiny run_4 run_4_reachable).
Defined.

Lemma flushMemTable_segment_witness :
  faithful_io one_block_io /\
  make_ok (GroupSize (t_conf (tree_of roomy [two_flushes]))) = true /\
  Forall (fun g0 => Forall (fun n0 => (n_addr n0 < t_next_addr (tree_of roomy [two_flushes]))%N)
                           (g_nodes g0))
         (t_groups (tree_of roomy [two_flushes])) /\
  mt_All (mt_state small_table) <> [] /\
  exists t' g node,
    flushMemTable one_block_io (tree_of roomy [two_flushes]) small_table = Some t' /\
    node ∈ g_nodes g /\
    GetAll node = Ok [kv "b" "z"] /\
    n_seq node = 10 /\
    n_file node = FileName.sstFile (g_id g) 10 /\
    Forall (fun g0 => Forall (fun n0 => n_addr n0 <> n_addr node) (g_nodes g0))
           (t_groups (tree_of roomy [two_flushes])).
Proof.
  assert (mt_All (mt_state small_table) <> []) as Hkvs by discriminate.
  assert (make_ok (GroupSize (t_conf (tree_of roomy [two_flushes]))) = true) as Hmake
    by reflexivity.
  assert (Forall (fun g0 => Forall (fun n0 => (n_addr n0 < t_next_addr (tree_of roomy [two_flushes]))%N)
                                   (g_nodes g0))
                 (t_groups (tree_of roomy [two_flushes]))) as Hbelow.
  { vm_compute. repeat constructor. }
  split; [exact one_block_io_faithful|]. split; [exact Hmake|]. split; [exact Hbelow|].
  split; [exact Hkvs|].
  destruct (flushMemTable_segment one_block_io (tree_of roomy [two_flushes]) small_table
              one_block_io_faithful Hmake Hbelow Hkvs)
    as (t' & g & node & Hrun & _ & Hin & Hdata & Hseq & _ & _ & Hfile & _ & _ & Hfresh & _).
  exists t', g, node. split; [exact Hrun|]. split; [exact Hin|]. split; [exact Hdata|].
  split; [exact Hseq|]. rewrite Hseq in Hfile. split; [exact Hfile|exact Hfresh].
Defined.

Lemma compactGroup_keeps_pairs_witness :
  exists group,
    faithful_io one_block_io /\
    group_with_id (t_groups run_4) 1 0 = Some 0%nat /\
    t_groups run_4 !! 0%nat = Some group /\
    GetAllKVs (M := Table) group = Ok [kv "a" "x"; kv "b" "y"] /\
    exists t' group',
      compactGroup one_block_io run_4 1 = Some t' /\
      t_groups t' !! 0%nat = Some group' /\
      g_id group' = 1 /\
      GetAllKVs (M := Table) group' = Ok [kv "a" "x"; kv "b" "y"].
Proof.
  assert (exists group, t_groups run_4 !! 0%nat = Some group /\
                        GetAllKVs (M := Table) group = Ok [kv "a" "x"; kv "b" "y"])
    as (group & Hgroup & Hall) by (eexists; split; vm_compute; reflexivity).
  assert (group_with_id (t_groups run_4) 1 0 = Some 0%nat) as Hi by (vm_compute; reflexivity).
  exists group. split; [exact one_block_io_faithful|]. split; [exact Hi|].
  split; [exact Hgroup|]. split; [exact Hall|].
  exact (compactGroup_keeps_pairs one_block_io run_4 1 0%nat group _
           one_block_io_faithful Hi Hgroup Hall).
Defined.

End FurtherRuns.

(** * When a segment writer cannot be opened *)

Section FlushFailure.
Import GoInt Bytes Types SST Grp GroupSpec Engine EngineSpec MoreSpec.
Context {M : Type} `{MemTable M}.






End FlushFailure.

Section CompactionFailure.
Import GoInt Bytes Types SST Grp GroupSpec NodeSpec Engine EngineSpec MoreSpec Concrete.

Lemma kv_size_first kv : uint64 (0 + kv_size kv) = kv_size kv.
Proof. unfold kv_size, uint64. rewrite Z.add_0_l. apply Z.mod_mod. lia. Qed.

(** The loop of [compactGroup] when the second writer cannot be opened:
    the first pair is written to the first file, which is finished, and the
    loop ends. *)
Lemma compact_loop_second_writer_fails io conf groupID (t1 : @Tree Table) seq kv1 kv2 rest err :
  faithful_reader io ->
  0 < kv_size kv1 ->
  GroupSSTSize conf < uint64 (kv_size kv1 + kv_size kv2) ->
  NewSSTWriter_err io (FileName.sstFile groupID (int32 (t_sstSeq t1 + 1))) = Some err ->
  exists c node,
    compact_loop io conf groupID
      {| c_tree := t1; c_seq := seq; c_appended := []; c_currentSize := 0;
         c_newNodes := []; c_broken := false |} (kv1 :: kv2 :: rest) = Some c /\
    c_newNodes c = [node] /\ GetAll node = Ok [kv1] /\ t_groups (c_tree c) = t_groups t1.
Proof.
  intros Hio Hpos Hbig Hsecond.
  set (c2 := {| c_tree := t1; c_seq := seq; c_appended := [kv1];
                c_currentSize := kv_size kv1; c_newNodes := []; c_broken := false |}
             : @compaction Table).
  assert (compact_round io conf groupID
            {| c_tree := t1; c_seq := seq; c_appended := []; c_currentSize := 0;
               c_newNodes := []; c_broken := false |} kv1 false = Some c2) as Hround1.
  { unfold compact_round. cbn zeta. cbn [c_currentSize]. change (0 <? 0) with false.
    cbn [andb mbind option_bind c_broken c_tree c_seq c_appended c_currentSize c_newNodes app].
    fold (kv_size kv1). rewrite kv_size_first. reflexivity. }
  destruct (finish_file_node io groupID c2 Hio) as (c' & node & Hfin & Hnodes & Hdata & _ & _ & Hseq);
    [discriminate|].
  pose proof (finish_file_groups _ _ _ _ Hfin) as Hgroups.
  cbn [c2 c_tree c_newNodes c_appended app] in Hnodes, Hdata, Hseq, Hgroups.
  assert (forall is_last,
            compact_round io conf groupID c2 kv2 is_last =
            Some {| c_tree := set_sstSeq (c_tree c') (int32 (t_sstSeq (c_tree c') + 1));
                    c_seq := int32 (t_sstSeq (c_tree c') + 1);
                    c_appended := c_appended c'; c_currentSize := c_currentSize c';
                    c_newNodes := c_newNodes c'; c_broken := true |}) as Hround2.
  { intros is_last. unfold compact_round. cbn zeta. cbn [c2 c_currentSize].
    fold (kv_size kv2).
    assert ((0 <? kv_size kv1) = true) as -> by now apply Z.ltb_lt.
    assert ((GroupSSTSize conf <? uint64 (kv_size kv1 + kv_size kv2)) = true) as ->
      by now apply Z.ltb_lt.
    cbn [andb]. fold c2. rewrite Hfin. cbn [mbind option_bind].
    rewrite Hseq, Hsecond. cbn [mbind option_bind c_broken]. reflexivity. }
  cbn [compact_loop]. rewrite Hround1. cbn [mbind option_bind]. cbn [c2 c_broken]. fold c2.
  rewrite Hround2. cbn [mbind option_bind c_broken].
  eexists _, node. split; [reflexivity|]. cbn [c_newNodes c_tree t_groups set_sstSeq].
  split; [exact Hnodes|]. split; [exact Hdata|exact Hgroups].
Qed.

(** X22.  A compaction that cannot open the writer of its second file is
    not noticed either: the group is left with the first file alone, and
    the pairs from the second file on, which the replaced segments held,
    are gone. *)
Theorem compactGroup_failed_writer_drops_pairs (io : SSTIO) (t : @Tree Table)
    (groupID : Z) (i : nat) (group : Group) (kv1 kv2 : KV) (rest : list KV) (err : error) :
  faithful_reader io ->
  group_with_id (t_groups t) groupID 0 = Some i ->
  t_groups t !! i = Some group ->
  1 < len (g_nodes group) ->
  GetAllKVs (M := Table) group = Ok (kv1 :: kv2 :: rest) ->
  0 < kv_size kv1 ->
  GroupSSTSize (t_conf t) < uint64 (kv_size kv1 + kv_size kv2) ->
  NewSSTWriter_err io (FileName.sstFile groupID (int32 (t_sstSeq t + 1))) = None ->
  NewSSTWriter_err io (FileName.sstFile groupID (int32 (int32 (t_sstSeq t + 1) + 1)))
    = Some err ->
  exists t' group',
    compactGroup io t groupID = Some t' /\
    t_groups t' !! i = Some group' /\
    GetAllKVs (M := Table) group' = Ok [kv1].
Proof.
  intros Hio Hi Hgroup Hmany Hall Hpos Hbig Hfirst Hsecond.
  apply Z.leb_gt in Hmany.
  unfold compactGroup. rewrite Hi, Hgroup. cbn [mbind option_bind].
  rewrite Hmany, Hall, Hfirst.
  destruct (compact_loop_second_writer_fails io (t_conf (set_sstSeq t (int32 (t_sstSeq t + 1))))
              groupID (set_sstSeq t (int32 (t_sstSeq t + 1))) (int32 (t_sstSeq t + 1))
              kv1 kv2 rest err Hio Hpos Hbig Hsecond)
    as (c & node & -> & Hnodes & Hdata & Hgroups).
  cbn [mbind option_bind]. cbn [t_groups set_sstSeq] in Hgroups.
  unfold replaceGroupNodes. rewrite Hgroups, Hgroup, Hnodes.
  eexists _, _. split; [reflexivity|]. cbn [t_groups set_groups].
  split; [apply list_lookup_insert_eq; eapply lookup_lt_Some; eauto|].
  apply (GetAllKVs_permuted _ [node] [[kv1]]).
  - apply (replace_all_nodes group [node]).
  - constructor; [exact Hdata|constructor].
  - reflexivity.
  - repeat constructor.
Qed.

End CompactionFailure.

Section FailureRuns.
Import GoInt Bytes Types SST Grp GroupSpec NodeSpec Engine EngineSpec MoreSpec Concrete MoreRuns.

Lemma compactGroup_cuts_witness :
  exists group,
    faithful_io one_block_io /\
    group_with_id (t_groups run_4) 1 0 = Some 0%nat /\
    t_groups run_4 !! 0%nat = Some group /\
    1 < len (g_nodes group) /\
    GetAllKVs (M := Table) group = Ok [kv "a" "x"; kv "b" "y"] /\
    exists t' group' newNodes chunks,
      compactGroup one_block_io run_4 1 = Some t' /\
      t_groups t' !! 0%nat = Some group' /\
      Permutation (g_nodes group') newNodes /\
      Forall2 (fun n d => GetAll n = Ok d) newNodes chunks /\
      concat chunks = [kv "a" "x"; kv "b" "y"] /\
      Forall (fits tiny) chunks /\
      cut_when_full tiny chunks.
Proof.
  assert (exists group, t_groups run_4 !! 0%nat = Some group /\
                        1 < len (g_nodes group) /\
                        GetAllKVs (M := Table) group = Ok [kv "a" "x"; kv "b" "y"])
    as (group & Hgroup & Hmany & Hall) by (eexists; split; [|split]; vm_compute; reflexivity).
  assert (group_with_id (t_groups run_4) 1 0 = Some 0%nat) as Hi by (vm_compute; reflexivity).
  assert ([kv "a" "x"; kv "b" "y"] <> []) as Hne by discriminate.
  exists group. split; [exact one_block_io_faithful|]. split; [exact Hi|].
  split; [exact Hgroup|]. split; [exact Hmany|]. split; [exact Hall|].
  destruct (compactGroup_cuts one_block_io run_4 1 0%nat group _
              one_block_io_faithful Hi Hgroup Hmany Hall Hne)
    as (t' & group' & newNodes & chunks & Hrun & Hlook & Hperm & Hdata & Hconcat & _ & Hfits & Hcut).
  exists t', group', newNodes, chunks. repeat (split; [assumption|]). exact Hcut.
Defined.

Lemma compactGroup_failed_writer_drops_pairs_witness :
  exists group,
    faithful_reader fourth_file_fails /\
    group_with_id (t_groups run_4) 1 0 = Some 0%nat /\
    t_groups run_4 !! 0%nat = Some group /\
    GetAllKVs (M := Table) group = Ok [kv "a" "x"; kv "b" "y"] /\
    exists t' group',
      compactGroup fourth_file_fails run_4 1 = Some t' /\
      t_groups t' !! 0%nat = Some group' /\
      GetAllKVs (M := Table) group' = Ok [kv "a" "x"].
Proof.
  assert (exists group, t_groups run_4 !! 0%nat = Some group /\
                        1 < len (g_nodes group) /\
                        GetAllKVs (M := Table) group = Ok [kv "a" "x"; kv "b" "y"])
    as (group & Hgroup & Hmany & Hall) by (eexists; split; [|split]; vm_compute; reflexivity).
  assert (group_with_id (t_groups run_4) 1 0 = Some 0%nat) as Hi by (vm_compute; reflexivity).
  assert (faithful_reader fourth_file_fails) as Hio
    by (apply one_block_reader_faithful; reflexivity).
  assert (0 < kv_size (kv "a" "x")) as Hpos by (vm_compute; reflexivity).
  assert (GroupSSTSize (t_conf run_4) < uint64 (kv_size (kv "a" "x") + kv_size (kv "b" "y")))
    as Hbig by (vm_compute; reflexivity).
  assert (NewSSTWriter_err fourth_file_fails (FileName.sstFile 1 (int32 (t_sstSeq run_4 + 1)))
          = None) as Hfirst by (vm_compute; reflexivity).
  assert (NewSSTWriter_err fourth_file_fails
            (FileName.sstFile 1 (int32 (int32 (t_sstSeq run_4 + 1) + 1)))
          = Some "no space left on device"%string) as Hsecond by (vm_compute; reflexivity).
  exists group. split; [exact Hio|]. split; [exact Hi|]. split; [exact Hgroup|].
  split; [exact Hall|].
  exact (compactGroup_failed_writer_drops_pairs fourth_file_fails run_4 1 0%nat group
           (kv "a" "x") (kv "b" "y") [] _ Hio Hi Hgroup Hmany Hall Hpos Hbig Hfirst Hsecond).
Defined.


End FailureRuns.
